(** * winhsock.c: Windows HANDLEs wrapped up as a PuTTY Socket

    A shallow embedding of [src/windows/winhsock.c].  The [HandleSocket]
    structure lives in a one-cell heap (so that [sfree] and later accesses
    can be told apart), every call the adapter makes outwards (to the
    Plug, to winhandl.c, to the callback queue, to the allocator) is
    appended to a trace, and the Plug may call back into the Socket
    vtable while one of its methods is running. *)

From Stdlib Require Import String ZArith List Bool Lia.
From Stdlib Require Import Init.Byte.
Import ListNotations.
Local Open Scope Z_scope.

(** ** Data *)

(** Pointers and Windows handles are integers; [NULL] is [0]. *)
Definition HANDLE := Z.
Definition handle := Z.
Definition Plug := Z.
Definition NULL : Z := 0.

Definition INT_MAX : Z := 2147483647.

(** winstuff.h (not under src/): [#define HANDLE_FLAG_OVERLAPPED 1]. *)
Definition HANDLE_FLAG_OVERLAPPED : Z := 1.

(** The [len] bytes found at a [data] pointer. *)
Definition chunk (data : list byte) (len : Z) : list byte :=
  firstn (Z.to_nat len) data.

Inductive frozen_state : Type :=
| UNFROZEN   (* reading as normal *)
| FREEZING   (* have been set to frozen but winhandl is still reading *)
| FROZEN     (* really frozen - winhandl has been throttled *)
| THAWING.   (* we're gradually releasing our remaining data *)

Definition frozen_eqb (a b : frozen_state) : bool :=
  match a, b with
  | UNFROZEN, UNFROZEN | FREEZING, FREEZING
  | FROZEN, FROZEN | THAWING, THAWING => true
  | _, _ => false
  end.

(** Modelled from the spec: the Byte Queue ([bufchain], misc.c, is not
    under src/): an ordered buffer of pending bytes with append,
    consume-N, clear and size-query.  Peeking the contiguous prefix is
    [bufchain_prefix] below, which depends on the granule layout. *)
Definition bufchain := list byte.

Definition bufchain_init : bufchain := [].

Definition bufchain_size (ch : bufchain) : Z := Z.of_nat (length ch).

Definition bufchain_add (ch : bufchain) (data : list byte) (len : Z) : bufchain :=
  ch ++ chunk data len.

Definition bufchain_consume (ch : bufchain) (len : Z) : bufchain :=
  skipn (Z.to_nat len) ch.

Definition bufchain_clear (ch : bufchain) : bufchain := [].

Record HandleSocket : Type := mkHandleSocket {
  send_H : HANDLE;
  recv_H : HANDLE;
  stderr_H : HANDLE;
  send_h : handle;
  recv_h : handle;
  stderr_h : handle;
  frozen : frozen_state;
  inputdata : bufchain;
  stderrdata : bufchain;
  defer_close : bool;
  deferred_close : bool;
  error : option string;
  plug : Plug
}.

Definition with_frozen (v : frozen_state) (hs : HandleSocket) : HandleSocket :=
  mkHandleSocket (send_H hs) (recv_H hs) (stderr_H hs) (send_h hs) (recv_h hs)
    (stderr_h hs) v (inputdata hs) (stderrdata hs) (defer_close hs)
    (deferred_close hs) (error hs) (plug hs).

Definition with_inputdata (v : bufchain) (hs : HandleSocket) : HandleSocket :=
  mkHandleSocket (send_H hs) (recv_H hs) (stderr_H hs) (send_h hs) (recv_h hs)
    (stderr_h hs) (frozen hs) v (stderrdata hs) (defer_close hs)
    (deferred_close hs) (error hs) (plug hs).

Definition with_stderrdata (v : bufchain) (hs : HandleSocket) : HandleSocket :=
  mkHandleSocket (send_H hs) (recv_H hs) (stderr_H hs) (send_h hs) (recv_h hs)
    (stderr_h hs) (frozen hs) (inputdata hs) v (defer_close hs)
    (deferred_close hs) (error hs) (plug hs).

Definition with_defer_close (v : bool) (hs : HandleSocket) : HandleSocket :=
  mkHandleSocket (send_H hs) (recv_H hs) (stderr_H hs) (send_h hs) (recv_h hs)
    (stderr_h hs) (frozen hs) (inputdata hs) (stderrdata hs) v
    (deferred_close hs) (error hs) (plug hs).

Definition with_deferred_close (v : bool) (hs : HandleSocket) : HandleSocket :=
  mkHandleSocket (send_H hs) (recv_H hs) (stderr_H hs) (send_h hs) (recv_h hs)
    (stderr_h hs) (frozen hs) (inputdata hs) (stderrdata hs) (defer_close hs)
    v (error hs) (plug hs).

Definition with_plug (v : Plug) (hs : HandleSocket) : HandleSocket :=
  mkHandleSocket (send_H hs) (recv_H hs) (stderr_H hs) (send_h hs) (recv_h hs)
    (stderr_h hs) (frozen hs) (inputdata hs) (stderrdata hs) (defer_close hs)
    (deferred_close hs) (error hs) v.

(** ** Calls across the module boundary *)

(** The three Plug methods the adapter calls. *)
Inductive plug_call : Type :=
| plug_closing_call (error_msg : option string) (error_code : Z) (calling_back : Z)
| plug_receive_call (urgent : Z) (data : list byte) (len : Z)
| plug_sent_call (bufsize : Z).

(** The Socket vtable entries a Plug (or the owner) may call.
    [sk_handle_peer_info] only queries the Windows API and is left out. *)
Inductive sock_call : Type :=
| sk_plug_call (p : Plug)
| sk_close_call
| sk_write_call (data : list byte) (len : Z)
| sk_write_oob_call (data : list byte) (len : Z)
| sk_write_eof_call
| sk_flush_call
| sk_set_frozen_call (is_frozen : Z)
| sk_socket_error_call.

Inductive queue_name : Type := q_inputdata | q_stderrdata.

Inductive event : Type :=
| EvPlug (p : Plug) (c : plug_call)          (* a Plug method is entered *)
| EvPlugReturn                               (* ... and returns *)
| EvHandleInputNew (H : HANDLE) (flags : Z) (h : handle)
| EvHandleOutputNew (H : HANDLE) (flags : Z) (h : handle)
| EvHandleFree (h : handle)
| EvHandleWrite (h : handle) (data : list byte) (len : Z)
| EvHandleWriteEof (h : handle)
| EvHandleUnthrottle (h : handle) (backlog : Z)
| EvCloseHandle (H : HANDLE)
| EvBufchainClear (q : queue_name)
| EvSfree
| EvQueueToplevelCallback
| EvLogProxyStderr (p : Plug) (data : list byte) (len : Z).

(** ** The world and the monad *)

Record world : Type := mkWorld {
  heap : option HandleSocket;     (* the HandleSocket, until it is sfree'd *)
  trace : list event;             (* outward calls so far, oldest first *)
  toplevel_callbacks : nat;       (* queued handle_socket_unfreeze callbacks *)
  send_backlog : Z;               (* bytes queued in the send worker *)
  next_handle : handle            (* next worker token winhandl.c hands out *)
}.

Inductive status (A : Type) : Type :=
| Ok (a : A)
| AssertFailed       (* an assert() of the module failed *)
| UseAfterFree.      (* the HandleSocket was accessed after sfree *)
Arguments Ok {A} a.
Arguments AssertFailed {A}.
Arguments UseAfterFree {A}.

Definition M (A : Type) : Type := world -> status A * world.

Definition ret {A : Type} (a : A) : M A := fun w => (Ok a, w).

Definition bind {A B : Type} (m : M A) (k : A -> M B) : M B :=
  fun w =>
    match m w with
    | (Ok a, w') => k a w'
    | (AssertFailed, w') => (AssertFailed, w')
    | (UseAfterFree, w') => (UseAfterFree, w')
    end.

Declare Scope adapter_scope.
Delimit Scope adapter_scope with adapter.
Notation "x <- m ;; k" := (bind m (fun x => k))
  (at level 61, m at next level, right associativity) : adapter_scope.
Notation "m ;; k" := (bind m (fun _ => k))
  (at level 61, right associativity) : adapter_scope.
Local Open Scope adapter_scope.

Definition assert (b : bool) : M unit :=
  fun w => if b then (Ok tt, w) else (AssertFailed, w).

(** [hs->field] : read through the pointer. *)
Definition deref : M HandleSocket :=
  fun w =>
    match heap w with
    | Some hs => (Ok hs, w)
    | None => (UseAfterFree, w)
    end.

(** [hs->field = v] : write through the pointer. *)
Definition store (f : HandleSocket -> HandleSocket) : M unit :=
  fun w =>
    match heap w with
    | Some hs =>
        (Ok tt, mkWorld (Some (f hs)) (trace w) (toplevel_callbacks w)
                  (send_backlog w) (next_handle w))
    | None => (UseAfterFree, w)
    end.

Definition emit (e : event) : M unit :=
  fun w =>
    (Ok tt, mkWorld (heap w) (trace w ++ [e]) (toplevel_callbacks w)
              (send_backlog w) (next_handle w)).

Definition snew (hs : HandleSocket) : M unit :=
  fun w =>
    (Ok tt, mkWorld (Some hs) (trace w) (toplevel_callbacks w)
              (send_backlog w) (next_handle w)).

Definition sfree : M unit :=
  fun w =>
    match heap w with
    | Some _ =>
        (Ok tt, mkWorld None (trace w ++ [EvSfree]) (toplevel_callbacks w)
                  (send_backlog w) (next_handle w))
    | None => (UseAfterFree, w)
    end.

(** Callback Scheduler: [queue_toplevel_callback(handle_socket_unfreeze, hs)]. *)
Definition queue_toplevel_callback : M unit :=
  fun w =>
    (Ok tt, mkWorld (heap w) (trace w ++ [EvQueueToplevelCallback])
              (S (toplevel_callbacks w)) (send_backlog w) (next_handle w)).

(** Modelled from the spec: the Engine (winhandl.c is not under src/).
    [registerReader]/[registerWriter] return a worker token,
    [write(workerToken, bytes) -> queuedBacklog] queues the bytes and
    returns the bytes queued but not yet flushed; [release], [writeEOF]
    and [unthrottle] are recorded in the trace. *)
Definition handle_input_new (H : HANDLE) (flags : Z) : M handle :=
  fun w =>
    (Ok (next_handle w),
     mkWorld (heap w) (trace w ++ [EvHandleInputNew H flags (next_handle w)])
       (toplevel_callbacks w) (send_backlog w) (next_handle w + 1)).

Definition handle_output_new (H : HANDLE) (flags : Z) : M handle :=
  fun w =>
    (Ok (next_handle w),
     mkWorld (heap w) (trace w ++ [EvHandleOutputNew H flags (next_handle w)])
       (toplevel_callbacks w) (send_backlog w) (next_handle w + 1)).

Definition handle_write (h : handle) (data : list byte) (len : Z) : M Z :=
  fun w =>
    let queued := send_backlog w + Z.of_nat (length (chunk data len)) in
    (Ok queued,
     mkWorld (heap w) (trace w ++ [EvHandleWrite h (chunk data len) len])
       (toplevel_callbacks w) queued (next_handle w)).

Definition handle_write_eof (h : handle) : M unit := emit (EvHandleWriteEof h).

Definition handle_free (h : handle) : M unit := emit (EvHandleFree h).

Definition handle_unthrottle (h : handle) (backlog : Z) : M unit :=
  emit (EvHandleUnthrottle h backlog).

Definition CloseHandle (H : HANDLE) : M unit := emit (EvCloseHandle H).

(** ** The Socket vtable *)

(** [sk_handle_plug], lines 108-115. *)
Definition sk_handle_plug (p : Plug) : M Plug :=
  hs <- deref ;;
  let ret_plug := plug hs in
  (if negb (p =? NULL) then store (with_plug p) else ret tt) ;;
  ret ret_plug.

(** [sk_handle_close], lines 117-135. *)
Definition sk_handle_close : M unit :=
  hs <- deref ;;
  if defer_close hs then
    store (with_deferred_close true)
  else
    handle_free (send_h hs) ;;
    handle_free (recv_h hs) ;;
    CloseHandle (send_H hs) ;;
    (if negb (recv_H hs =? send_H hs) then CloseHandle (recv_H hs) else ret tt) ;;
    store (fun hs => with_inputdata (bufchain_clear (inputdata hs)) hs) ;;
    emit (EvBufchainClear q_inputdata) ;;
    store (fun hs => with_stderrdata (bufchain_clear (stderrdata hs)) hs) ;;
    emit (EvBufchainClear q_stderrdata) ;;
    sfree.

(** [sk_handle_write], lines 137-142. *)
Definition sk_handle_write (data : list byte) (len : Z) : M Z :=
  hs <- deref ;;
  handle_write (send_h hs) data len.

(** [sk_handle_write_oob], lines 144-151. *)
Definition sk_handle_write_oob (data : list byte) (len : Z) : M Z :=
  sk_handle_write data len.

(** [sk_handle_write_eof], lines 153-158. *)
Definition sk_handle_write_eof : M unit :=
  hs <- deref ;;
  handle_write_eof (send_h hs).

(** [sk_handle_flush], lines 160-164: does nothing. *)
Definition sk_handle_flush : M unit := ret tt.

(** [sk_handle_set_frozen], lines 213-266. *)
Definition sk_handle_set_frozen (is_frozen : Z) : M unit :=
  hs <- deref ;;
  if negb (is_frozen =? 0) then
    match frozen hs with
    | FREEZING | FROZEN => ret tt
    | THAWING => store (with_frozen FROZEN)
    | UNFROZEN => store (with_frozen FREEZING)
    end
  else
    match frozen hs with
    | UNFROZEN | THAWING => ret tt
    | FREEZING =>
        assert (bufchain_size (inputdata hs) =? 0) ;;
        store (with_frozen UNFROZEN)
    | FROZEN =>
        store (with_frozen THAWING) ;;
        queue_toplevel_callback
    end.

(** [sk_handle_socket_error], lines 268-272. *)
Definition sk_handle_socket_error : M (option string) :=
  hs <- deref ;;
  ret (error hs).

(** A call through the vtable whose result the caller drops. *)
Definition sock_exec (c : sock_call) : M unit :=
  match c with
  | sk_plug_call p => _ <- sk_handle_plug p ;; ret tt
  | sk_close_call => sk_handle_close
  | sk_write_call data len => _ <- sk_handle_write data len ;; ret tt
  | sk_write_oob_call data len => _ <- sk_handle_write_oob data len ;; ret tt
  | sk_write_eof_call => sk_handle_write_eof
  | sk_flush_call => sk_handle_flush
  | sk_set_frozen_call is_frozen => sk_handle_set_frozen is_frozen
  | sk_socket_error_call => _ <- sk_handle_socket_error ;; ret tt
  end.

(** The calls a Plug method makes on the Socket before it returns. *)
Fixpoint reenter (cs : list sock_call) : M unit :=
  match cs with
  | [] => ret tt
  | c :: cs' => sock_exec c ;; reenter cs'
  end.

(** Events a top-level caller can raise: the two winhandl.c callbacks of
    the receive and send workers, the stderr worker's callback, one
    queued top-level callback being run, and a vtable call by the owner
    of the Socket. *)
Inductive op : Type :=
| OpGotData (data : list byte) (len : Z)
| OpStderr (data : list byte) (len : Z)
| OpSentData (new_backlog : Z)
| OpCallback
| OpSock (c : sock_call).

(** winhandl.c has been told to stop reading. *)
Definition throttled (w : world) : bool :=
  match heap w with
  | Some hs => frozen_eqb (frozen hs) FROZEN || frozen_eqb (frozen hs) THAWING
  | None => false
  end.

Section Adapter.

(** What the Plug does, from inside each of its methods, to the Socket. *)
Variable consumer : Plug -> plug_call -> list sock_call.

(** Length of the contiguous block at the head of a [bufchain]
    (misc.c's granule layout, not under src/). *)
Variable prefix_len : bufchain -> nat.

(** [win_strerror] (winmisc.c, not under src/). *)
Variable win_strerror : Z -> string.

(** [log_proxy_stderr] (be_misc.c, not under src/): what it leaves in
    the stderr bufchain. *)
Variable log_proxy_stderr : bufchain -> list byte -> Z -> bufchain.

Definition bufchain_prefix (ch : bufchain) : list byte * Z :=
  let data := firstn (prefix_len ch) ch in
  (data, Z.of_nat (length data)).

(** The [plug_closing], [plug_receive] and [plug_sent] macros: enter the
    Plug's method, which may re-enter the Socket, then return. *)
Definition plug_invoke (p : Plug) (c : plug_call) : M unit :=
  emit (EvPlug p c) ;;
  reenter (consumer p c) ;;
  emit EvPlugReturn.

Definition plug_closing (p : Plug) (error_msg : option string)
    (error_code calling_back : Z) : M unit :=
  plug_invoke p (plug_closing_call error_msg error_code calling_back).

Definition plug_receive (p : Plug) (urgent : Z) (data : list byte) (len : Z)
    : M unit :=
  plug_invoke p (plug_receive_call urgent (chunk data len) len).

Definition plug_sent (p : Plug) (bufsize : Z) : M unit :=
  plug_invoke p (plug_sent_call bufsize).

(** [handle_gotdata], lines 49-81. *)
Definition handle_gotdata (data : list byte) (len : Z) : M Z :=
  hs <- deref ;;
  if len <? 0 then
    plug_closing (plug hs) (Some "Read error from handle"%string) 0 0 ;;
    ret 0
  else if len =? 0 then
    plug_closing (plug hs) None 0 0 ;;
    ret 0
  else
    assert (negb (frozen_eqb (frozen hs) FROZEN)
            && negb (frozen_eqb (frozen hs) THAWING)) ;;
    if frozen_eqb (frozen hs) FREEZING then
      store (fun hs => with_inputdata (bufchain_add (inputdata hs) data len) hs) ;;
      store (with_frozen FROZEN) ;;
      ret INT_MAX
    else
      plug_receive (plug hs) 0 data len ;;
      ret 0.

(** [handle_stderr], lines 83-91. *)
Definition handle_stderr (data : list byte) (len : Z) : M Z :=
  (if 0 <? len then
     hs <- deref ;;
     emit (EvLogProxyStderr (plug hs) (chunk data len) len) ;;
     store (fun hs =>
              with_stderrdata (log_proxy_stderr (stderrdata hs) data len) hs)
   else ret tt) ;;
  ret 0.

(** [handle_sentdata], lines 93-106. *)
Definition handle_sentdata (new_backlog : Z) : M unit :=
  hs <- deref ;;
  if new_backlog <? 0 then
    plug_closing (plug hs) (Some (win_strerror (- new_backlog)))
      (- new_backlog) 0
  else
    plug_sent (plug hs) new_backlog.

(** [handle_socket_unfreeze], lines 166-211. *)
Definition handle_socket_unfreeze : M unit :=
  hs <- deref ;;
  if negb (frozen_eqb (frozen hs) THAWING) then
    ret tt
  else
    let '(data, len) := bufchain_prefix (inputdata hs) in
    assert (0 <? len) ;;
    store (with_defer_close true) ;;
    plug_receive (plug hs) 0 data len ;;
    store (fun hs => with_inputdata (bufchain_consume (inputdata hs) len) hs) ;;
    store (with_defer_close false) ;;
    hs1 <- deref ;;
    if deferred_close hs1 then
      sk_handle_close
    else if 0 <? bufchain_size (inputdata hs1) then
      queue_toplevel_callback
    else
      store (with_frozen UNFROZEN) ;;
      handle_unthrottle (recv_h hs1) 0.

(** [make_handle_socket], lines 321-347.  [stderr_h] is left as [snew]
    gave it when there is no stderr handle; it is never read then. *)
Definition make_handle_socket (send_H recv_H stderr_H : HANDLE) (plug : Plug)
    (overlapped : Z) : M unit :=
  let flags := if negb (overlapped =? 0) then HANDLE_FLAG_OVERLAPPED else 0 in
  recv_h <- handle_input_new recv_H flags ;;
  send_h <- handle_output_new send_H flags ;;
  stderr_h <- (if negb (stderr_H =? NULL)
               then handle_input_new stderr_H flags
               else ret NULL) ;;
  snew (mkHandleSocket send_H recv_H stderr_H send_h recv_h stderr_h
          UNFROZEN bufchain_init bufchain_init false false None plug).

(** One top-level event. *)
Definition run_toplevel_callback : M unit :=
  fun w =>
    match toplevel_callbacks w with
    | O => (Ok tt, w)
    | S n =>
        handle_socket_unfreeze
          (mkWorld (heap w) (trace w) n (send_backlog w) (next_handle w))
    end.

Definition step (o : op) : M unit :=
  match o with
  | OpGotData data len => _ <- handle_gotdata data len ;; ret tt
  | OpStderr data len => _ <- handle_stderr data len ;; ret tt
  | OpSentData new_backlog => handle_sentdata new_backlog
  | OpCallback => run_toplevel_callback
  | OpSock c => sock_exec c
  end.

Fixpoint run (os : list op) : M unit :=
  match os with
  | [] => ret tt
  | o :: os' => step o ;; run os'
  end.

(** The Engine contract along a sequence of events: winhandl.c hands
    over no data while it is throttled. *)
Fixpoint engine_contract (os : list op) (w : world) : bool :=
  match os with
  | [] => true
  | o :: os' =>
      match o with
      | OpGotData _ len => negb ((0 <? len) && throttled w)
      | _ => true
      end
      && engine_contract os' (snd (step o w))
  end.

End Adapter.

(** ** Observations on traces and event sequences *)

(** The Plug methods entered, in order. *)
Fixpoint plug_calls (tr : list event) : list plug_call :=
  match tr with
  | [] => []
  | EvPlug _ c :: tr' => c :: plug_calls tr'
  | _ :: tr' => plug_calls tr'
  end.

(** The bytes handed to [plug_receive], in order. *)
Fixpoint received (tr : list event) : list byte :=
  match tr with
  | [] => []
  | EvPlug _ (plug_receive_call _ data _) :: tr' => data ++ received tr'
  | _ :: tr' => received tr'
  end.

(** The bytes winhandl.c handed to [handle_gotdata], in order. *)
Fixpoint delivered (os : list op) : list byte :=
  match os with
  | [] => []
  | OpGotData data len :: os' =>
      (if 0 <? len then chunk data len else []) ++ delivered os'
  | _ :: os' => delivered os'
  end.

(** Events of [sk_handle_close] tearing the socket down. *)
Definition is_teardown (e : event) : bool :=
  match e with
  | EvHandleFree _ | EvCloseHandle _ | EvBufchainClear _ | EvSfree => true
  | _ => false
  end.

Definition is_sfree (e : event) : bool :=
  match e with
  | EvSfree => true
  | _ => false
  end.

(** No teardown event lies between the entry of a Plug method and its
    return ([inside] tells whether the trace starts inside one). *)
Fixpoint teardown_outside_plug (inside : bool) (tr : list event) : bool :=
  match tr with
  | [] => true
  | EvPlug _ _ :: tr' => teardown_outside_plug true tr'
  | EvPlugReturn :: tr' => teardown_outside_plug false tr'
  | e :: tr' =>
      negb (inside && is_teardown e) && teardown_outside_plug inside tr'
  end.

(** The sequences of the flow-control property: freeze/unfreeze requests,
    reads of a positive length [len] from a buffer that holds [len]
    bytes, and runs of queued callbacks. *)
Definition flow_op (o : op) : bool :=
  match o with
  | OpGotData data len => (0 <? len) && (len <=? Z.of_nat (length data))
  | OpCallback => true
  | OpSock (sk_set_frozen_call _) => true
  | _ => false
  end.

(** Section 4.1 of the spec, as a table: the state after a request in a
    state, and how many drain callbacks the request schedules. *)
Definition transition_table (st : frozen_state) (freeze : bool)
    : frozen_state * nat :=
  match freeze, st with
  | true, UNFROZEN => (FREEZING, O)
  | true, FREEZING => (FREEZING, O)
  | true, FROZEN => (FROZEN, O)
  | true, THAWING => (FROZEN, O)
  | false, UNFROZEN => (UNFROZEN, O)
  | false, THAWING => (THAWING, O)
  | false, FREEZING => (UNFROZEN, O)
  | false, FROZEN => (THAWING, 1%nat)
  end.

(** [inputdata] is empty whenever the state is [UNFROZEN], and non-empty
    only when the state is [FROZEN] or [THAWING]. *)
Definition queue_invariant (hs : HandleSocket) : Prop :=
  (frozen hs = UNFROZEN -> inputdata hs = []) /\
  (inputdata hs <> [] -> frozen hs = FROZEN \/ frozen hs = THAWING).

Definition world_invariant (w : world) : Prop :=
  match heap w with
  | Some hs => queue_invariant hs
  | None => True
  end.

(** The release order of the spec's section 5: read worker, write
    worker (side-channel worker if there is one), handles, queues,
    adapter. *)
Definition spec_release_order (hs : HandleSocket) : list event :=
  [EvHandleFree (recv_h hs); EvHandleFree (send_h hs)]
  ++ (if negb (stderr_H hs =? NULL) then [EvHandleFree (stderr_h hs)] else [])
  ++ [EvCloseHandle (send_H hs)]
  ++ (if negb (recv_H hs =? send_H hs) then [EvCloseHandle (recv_H hs)] else [])
  ++ [EvBufchainClear q_inputdata; EvBufchainClear q_stderrdata; EvSfree].

(** The outward calls of a [sk_handle_close] that is not deferred, in
    the order of lines 126-134. *)
Definition close_trace (hs : HandleSocket) : list event :=
  [EvHandleFree (send_h hs); EvHandleFree (recv_h hs);
   EvCloseHandle (send_H hs)]
  ++ (if negb (recv_H hs =? send_H hs) then [EvCloseHandle (recv_H hs)] else [])
  ++ [EvBufchainClear q_inputdata; EvBufchainClear q_stderrdata; EvSfree].

(** The calls of winhandl.c's write operation, in order. *)
Fixpoint engine_writes (tr : list event) : list (handle * list byte) :=
  match tr with
  | [] => []
  | EvHandleWrite h data _ :: tr' => (h, data) :: engine_writes tr'
  | _ :: tr' => engine_writes tr'
  end.

(** ** Sample collaborators and worlds *)

Definition quiet_consumer : Plug -> plug_call -> list sock_call :=
  fun _ _ => [].

(** A Plug that closes the socket from inside [receive]. *)
Definition closing_consumer : Plug -> plug_call -> list sock_call :=
  fun _ c =>
    match c with
    | plug_receive_call _ _ _ => [sk_close_call]
    | _ => []
    end.

(** A Plug that freezes the socket, asks twice for it to be closed and
    writes a byte, all from inside [receive]. *)
Definition busy_consumer : Plug -> plug_call -> list sock_call :=
  fun _ c =>
    match c with
    | plug_receive_call _ _ _ =>
        [sk_set_frozen_call 1; sk_close_call; sk_write_call [x2e] 1;
         sk_close_call]
    | _ => []
    end.

(** A Plug that freezes the socket whenever it is given data. *)
Definition throttling_consumer : Plug -> plug_call -> list sock_call :=
  fun _ c =>
    match c with
    | plug_receive_call _ _ _ => [sk_set_frozen_call 1]
    | _ => []
    end.

Definition whole_prefix : bufchain -> nat := fun ch => length ch.
Definition granule2 : bufchain -> nat := fun ch => Nat.min 2 (length ch).

Definition sample_strerror : Z -> string :=
  fun e => if e =? 5 then "Access is denied."%string else "Unknown error"%string.

Definition sample_log : bufchain -> list byte -> Z -> bufchain :=
  fun ch _ _ => ch.

Definition world0 : world := mkWorld None [] 0 0 1.

(** A socket just made on a pipe pair, without and with a stderr handle. *)
Definition fresh_world : world :=
  snd (make_handle_socket 100 101 NULL 7 0 world0).

Definition fresh_world_stderr : world :=
  snd (make_handle_socket 100 101 102 7 1 world0).

Definition sample_hs : HandleSocket :=
  mkHandleSocket 100 101 NULL 2 1 NULL UNFROZEN [] [] false false None 7.

Definition in_state (st : frozen_state) (q : bufchain) : world :=
  mkWorld (Some (with_inputdata q (with_frozen st sample_hs))) [] 1 0 3.

Definition AB : list byte := [x41; x42].
Definition CD : list byte := [x43; x44].
Definition CDE : list byte := [x43; x44; x45].

(** "AB" arrives, the owner freezes, "CDE" arrives from the read that
    was in flight, the owner unfreezes, two drain callbacks run. *)
Definition race_scenario : list op :=
  [OpGotData AB 2; OpSock (sk_set_frozen_call 1); OpGotData CDE 3;
   OpSock (sk_set_frozen_call 0); OpCallback; OpCallback].

(** The same race, stopped before the owner unfreezes. *)
Definition frozen_scenario : list op :=
  [OpGotData AB 2; OpSock (sk_set_frozen_call 1); OpGotData CDE 3].

(** A read failure, then a write failure with Windows error code 5. *)
Definition failure_scenario : list op :=
  [OpGotData [] (-1); OpSentData (-5)].

(** Worlds reached from [fresh_world]: after a read failure, after a
    write failure with error code 5, after both, and after "AB" was read
    by a Plug that closes the socket from inside [receive]. *)
Definition after_read_failure : world :=
  snd (handle_gotdata quiet_consumer [] (-1) fresh_world).

Definition after_write_failure : world :=
  snd (handle_sentdata quiet_consumer sample_strerror (-5) fresh_world).

Definition after_failures : world :=
  snd (run quiet_consumer whole_prefix sample_strerror sample_log
         failure_scenario fresh_world).

Definition after_direct_close : world :=
  snd (handle_gotdata closing_consumer AB 2 fresh_world).

(** ** What a computation may do to the heap and to the trace *)

(** [heap_rel R w w']: if the adapter is allocated in [w'] it was in
    [w], with [R] between the two structures. *)
Definition heap_rel (R : HandleSocket -> HandleSocket -> Prop) (w w' : world)
    : Prop :=
  match heap w' with
  | None => True
  | Some hs' =>
      match heap w with
      | Some hs => R hs hs'
      | None => False
      end
  end.

Definition frames (R : HandleSocket -> HandleSocket -> Prop) {A : Type}
    (m : M A) : Prop :=
  forall w, heap_rel R w (snd (m w)).

(** [emits P m]: [m] only appends events satisfying [P] to the trace. *)
Definition emits (P : event -> Prop) {A : Type} (m : M A) : Prop :=
  forall w, exists evs, trace (snd (m w)) = trace w ++ evs /\ Forall P evs.

(** States in which [inputdata] holds bytes. *)
Definition buffering (st : frozen_state) : bool :=
  match st with
  | FROZEN | THAWING => true
  | UNFROZEN | FREEZING => false
  end.

(** What a call through the Socket vtable leaves of a live adapter. *)
Definition vtable_frame (hs hs' : HandleSocket) : Prop :=
  send_H hs' = send_H hs /\ recv_H hs' = recv_H hs /\
  stderr_H hs' = stderr_H hs /\ send_h hs' = send_h hs /\
  recv_h hs' = recv_h hs /\ stderr_h hs' = stderr_h hs /\
  buffering (frozen hs') = buffering (frozen hs) /\
  inputdata hs' = inputdata hs /\ stderrdata hs' = stderrdata hs /\
  defer_close hs' = defer_close hs /\
  (deferred_close hs' = deferred_close hs \/
   (defer_close hs = true /\ deferred_close hs' = true)) /\
  error hs' = error hs /\
  (plug hs' = plug hs \/ plug hs' <> NULL).

(** What any entry point of the module leaves of a live adapter. *)
Definition adapter_frame (hs hs' : HandleSocket) : Prop :=
  send_H hs' = send_H hs /\ recv_H hs' = recv_H hs /\
  stderr_H hs' = stderr_H hs /\ send_h hs' = send_h hs /\
  recv_h hs' = recv_h hs /\ stderr_h hs' = stderr_h hs /\
  error hs' = error hs /\
  (plug hs <> NULL -> plug hs' <> NULL).

Definition not_plug_event (e : event) : Prop :=
  match e with
  | EvPlug _ _ | EvPlugReturn => False
  | _ => True
  end.

(** Between two top-level events: no close is pending, and [inputdata]
    holds bytes exactly in the states FROZEN and THAWING. *)
Definition settled (hs : HandleSocket) : Prop :=
  defer_close hs = false /\ deferred_close hs = false /\
  (buffering (frozen hs) = false -> inputdata hs = []) /\
  (buffering (frozen hs) = true -> inputdata hs <> []).

(** Neither a Plug call nor a step of the teardown. *)
Definition calm_event (e : event) : Prop :=
  not_plug_event e /\ is_teardown e = false.

Definition is_close_call (c : sock_call) : bool :=
  match c with
  | sk_close_call => true
  | _ => false
  end.

Definition is_freeze_call (c : sock_call) : bool :=
  match c with
  | sk_set_frozen_call is_frozen => negb (is_frozen =? 0)
  | _ => false
  end.

(** A call that is not a freeze request does not end a thaw. *)
Definition stays_thawing (hs hs' : HandleSocket) : Prop :=
  frozen hs = THAWING -> frozen hs' = THAWING.

(** A socket in state THAWING has a drain callback queued. *)
Definition drain_queued (w : world) : Prop :=
  forall hs, heap w = Some hs -> frozen hs = THAWING ->
             (1 <= toplevel_callbacks w)%nat.

(** What is left to do once the owner lets the data flow again: one
    unfreeze request and [k] runs of queued callbacks. *)
Definition thaw (k : nat) : list op :=
  OpSock (sk_set_frozen_call 0) :: repeat OpCallback k.

(** ** Further observations *)

(** Every event a top-level caller can raise except a close by the
    owner; a read of positive length [len] comes with [len] bytes. *)
Definition benign_op (o : op) : bool :=
  match o with
  | OpGotData data len => (len <=? 0) || (len <=? Z.of_nat (length data))
  | OpSock c => negb (is_close_call c)
  | _ => true
  end.

Definition is_unthrottle (e : event) : bool :=
  match e with
  | EvHandleUnthrottle _ _ => true
  | _ => false
  end.

(** How often winhandl.c's receive worker was told to resume. *)
Definition unthrottles (tr : list event) : nat :=
  length (filter is_unthrottle tr).

(** How often [handle_gotdata] returned INT_MAX along a sequence of
    events, which is how often winhandl.c was told to stop reading. *)
Fixpoint throttles (consumer : Plug -> plug_call -> list sock_call)
    (prefix_len : bufchain -> nat) (win_strerror : Z -> string)
    (log_proxy_stderr : bufchain -> list byte -> Z -> bufchain)
    (os : list op) (w : world) : nat :=
  match os with
  | [] => O
  | o :: os' =>
      (match o with
       | OpGotData data len =>
           match fst (handle_gotdata consumer data len w) with
           | Ok v => if Z.eqb v INT_MAX then 1%nat else O
           | _ => O
           end
       | _ => O
       end
       + throttles consumer prefix_len win_strerror log_proxy_stderr os'
           (snd (step consumer prefix_len win_strerror log_proxy_stderr o w)))%nat
  end.

(** The longest read among a sequence of events. *)
Fixpoint largest_read (os : list op) : nat :=
  match os with
  | [] => O
  | OpGotData data len :: os' =>
      Nat.max (length (if 0 <? len then chunk data len else []))
        (largest_read os')
  | _ :: os' => largest_read os'
  end.

(** An outward call that concerns a worker or a Windows handle names one
    the socket [hs] was made with: writes and write-EOF go to the send
    worker, unthrottle to the receive worker with backlog 0, only the
    send and receive workers are released and only their handles closed,
    and no worker is registered. *)
Definition addressed (hs : HandleSocket) (e : event) : Prop :=
  match e with
  | EvHandleInputNew _ _ _ | EvHandleOutputNew _ _ _ => False
  | EvHandleFree h => h = send_h hs \/ h = recv_h hs
  | EvHandleWrite h _ _ => h = send_h hs
  | EvHandleWriteEof h => h = send_h hs
  | EvHandleUnthrottle h backlog => h = recv_h hs /\ backlog = 0
  | EvCloseHandle H => H = send_H hs \/ H = recv_H hs
  | _ => True
  end.

(** Nothing in a computation or in a Plug's behaviour asks for a close. *)
Definition close_free_op (o : op) : bool :=
  match o with
  | OpSock c => negb (is_close_call c)
  | _ => true
  end.

Definition not_unthrottle (e : event) : Prop := is_unthrottle e = false.

Definition any_event (e : event) : Prop := True.

(** [hs] has the workers and handles of [ref]. *)
Definition same_handles (ref hs : HandleSocket) : Prop :=
  send_H hs = send_H ref /\ recv_H hs = recv_H ref /\
  send_h hs = send_h ref /\ recv_h hs = recv_h ref.

(** [m], run on the socket [ref] was made as, only appends events that
    are addressed to [ref]'s workers and handles. *)
Definition emits_addressed (ref : HandleSocket) {A : Type} (m : M A) : Prop :=
  forall w,
    (forall hs, heap w = Some hs -> same_handles ref hs) ->
    exists evs, trace (snd (m w)) = trace w ++ evs /\ Forall (addressed ref) evs.

(** [m] neither frees the adapter nor asks for a deferred close, and
    does not run into freed memory. *)
Definition stays_alive {A : Type} (m : M A) : Prop :=
  forall w hs,
    heap w = Some hs -> deferred_close hs = false ->
    exists hs',
      heap (snd (m w)) = Some hs' /\ deferred_close hs' = false /\
      fst (m w) <> UseAfterFree /\
      filter is_sfree (trace (snd (m w))) = filter is_sfree (trace w).

(** The byte strings a list of vtable calls hands to [sk_handle_write]
    and [sk_handle_write_oob], in order. *)
Fixpoint written (cs : list sock_call) : list (list byte) :=
  match cs with
  | [] => []
  | sk_write_call data len :: cs' => chunk data len :: written cs'
  | sk_write_oob_call data len :: cs' => chunk data len :: written cs'
  | _ :: cs' => written cs'
  end.


(** Traffic of every kind around a Plug that freezes the socket each
    time it is given data: reads, stderr output, write completions, a
    write by the owner, an end of file, and the owner's unfreeze
    requests with the drain callbacks they queue. *)
Definition mixed_scenario : list op :=
  [OpGotData AB 2; OpStderr CD 2; OpSentData 3; OpSock (sk_write_call CD 2);
   OpGotData CDE 3; OpSock (sk_set_frozen_call 0); OpCallback; OpCallback;
   OpSock (sk_set_frozen_call 0); OpCallback; OpStderr [] 0;
   OpSock (sk_write_oob_call AB 2); OpSentData (-5); OpGotData [] 0].




(** A vtable call that leaves the Plug of the socket in place: anything
    but [sk_handle_plug] with a Plug that is not NULL. *)
Definition keeps_plug_call (c : sock_call) : bool :=
  match c with
  | sk_plug_call p => p =? NULL
  | _ => true
  end.

Definition keeps_plug_op (o : op) : bool :=
  match o with
  | OpSock c => keeps_plug_call c
  | _ => true
  end.

(** Every Plug method entered, and every line of stderr logged, names
    the Plug [p]. *)
Definition to_plug (p : Plug) (e : event) : Prop :=
  match e with
  | EvPlug p' _ => p' = p
  | EvLogProxyStderr p' _ _ => p' = p
  | _ => True
  end.

(** [m], run on a socket whose Plug is [p], leaves [p] in place and
    talks to no other Plug. *)
Definition routed (p : Plug) {A : Type} (m : M A) : Prop :=
  forall w,
    (forall hs, heap w = Some hs -> plug hs = p) ->
    (forall hs', heap (snd (m w)) = Some hs' -> plug hs' = p) /\
    exists evs, trace (snd (m w)) = trace w ++ evs /\ Forall (to_plug p) evs.


(** ** Proofs *)

Ltac unfold_prims :=
  unfold handle_free, handle_write_eof, handle_unthrottle, CloseHandle,
    handle_write, handle_input_new, handle_output_new,
    queue_toplevel_callback, sfree, snew, emit, store, deref, assert,
    bind, ret in *.

Ltac unfold_vtable :=
  unfold sock_exec, sk_handle_plug, sk_handle_close, sk_handle_write_oob,
    sk_handle_write, sk_handle_write_eof, sk_handle_flush,
    sk_handle_set_frozen, sk_handle_socket_error in *.

Lemma with_frozen_same (hs : HandleSocket) : with_frozen (frozen hs) hs = hs.
Proof. destruct hs; reflexivity. Qed.

Lemma world_eta (w : world) :
  mkWorld (heap w) (trace w) (toplevel_callbacks w) (send_backlog w)
    (next_handle w) = w.
Proof. destruct w; reflexivity. Qed.

Lemma frozen_eqb_eq (a b : frozen_state) : frozen_eqb a b = true <-> a = b.
Proof. destruct a, b; simpl; split; intro H; congruence. Qed.

Lemma bufchain_size_zero (ch : bufchain) : (bufchain_size ch =? 0) = true <-> ch = [].
Proof.
  unfold bufchain_size. destruct ch as [| b ch]; simpl length.
  - split; reflexivity.
  - split; intro H; [apply Z.eqb_eq in H; lia | discriminate].
Qed.

Lemma bufchain_size_pos (ch : bufchain) : (0 <? bufchain_size ch) = true <-> ch <> [].
Proof.
  unfold bufchain_size. destruct ch as [| b ch]; simpl length.
  - split; intro H; [discriminate | congruence].
  - split; intro H; [discriminate | apply Z.ltb_lt; lia].
Qed.

Section Frames.

Variable R : HandleSocket -> HandleSocket -> Prop.
Hypothesis R_refl : forall hs, R hs hs.
Hypothesis R_trans : forall a b c, R a b -> R b c -> R a c.

Lemma heap_rel_refl (w : world) : heap_rel R w w.
Proof. unfold heap_rel. destruct (heap w); auto. Qed.

Lemma heap_rel_trans (w1 w2 w3 : world) :
  heap_rel R w1 w2 -> heap_rel R w2 w3 -> heap_rel R w1 w3.
Proof.
  unfold heap_rel. destruct (heap w3); auto.
  destruct (heap w2); [| contradiction].
  destruct (heap w1); [| contradiction]. eauto.
Qed.

Lemma frames_ret {A : Type} (a : A) : frames R (ret a).
Proof. intro w. apply heap_rel_refl. Qed.

Lemma frames_bind {A B : Type} (m : M A) (k : A -> M B) :
  frames R m -> (forall a, frames R (k a)) -> frames R (bind m k).
Proof.
  intros Hm Hk w. unfold bind. specialize (Hm w).
  destruct (m w) as [[a | |] w1]; simpl in *; auto.
  eapply heap_rel_trans; [exact Hm | apply Hk].
Qed.

Lemma frames_assert (b : bool) : frames R (assert b).
Proof. intro w. unfold assert. destruct b; apply heap_rel_refl. Qed.

Lemma frames_deref : frames R deref.
Proof. intro w. unfold deref. destruct (heap w) eqn:E; simpl; apply heap_rel_refl. Qed.

Lemma frames_store (f : HandleSocket -> HandleSocket) :
  (forall hs, R hs (f hs)) -> frames R (store f).
Proof.
  intros Hf w. unfold store, heap_rel.
  destruct (heap w) eqn:E; simpl; rewrite ?E; auto.
Qed.

Lemma frames_emit (e : event) : frames R (emit e).
Proof. intro w. unfold emit, heap_rel. simpl. destruct (heap w); auto. Qed.

Lemma frames_sfree : frames R sfree.
Proof. intro w. unfold sfree, heap_rel. destruct (heap w) eqn:E; simpl; rewrite ?E; auto. Qed.

Lemma frames_queue_toplevel_callback : frames R queue_toplevel_callback.
Proof. intro w. unfold queue_toplevel_callback, heap_rel. simpl. destruct (heap w); auto. Qed.

Lemma frames_handle_write (h : handle) (data : list byte) (len : Z) :
  frames R (handle_write h data len).
Proof. intro w. unfold handle_write, heap_rel. simpl. destruct (heap w); auto. Qed.

End Frames.

Section Emits.

Variable P : event -> Prop.

Lemma emits_ret {A : Type} (a : A) : emits P (ret a).
Proof. intro w. exists []. simpl. rewrite app_nil_r. auto. Qed.

Lemma emits_bind {A B : Type} (m : M A) (k : A -> M B) :
  emits P m -> (forall a, emits P (k a)) -> emits P (bind m k).
Proof.
  intros Hm Hk w. unfold bind. destruct (Hm w) as (e1 & H1 & F1).
  destruct (m w) as [[a | |] w1]; simpl in *; eauto.
  destruct (Hk a w1) as (e2 & H2 & F2). exists (e1 ++ e2).
  rewrite H2, H1, app_assoc. split; [reflexivity | apply Forall_app; auto].
Qed.

Lemma emits_assert (b : bool) : emits P (assert b).
Proof. intro w. exists []. unfold assert. destruct b; simpl; rewrite app_nil_r; auto. Qed.

Lemma emits_deref : emits P deref.
Proof. intro w. exists []. unfold deref. destruct (heap w); simpl; rewrite app_nil_r; auto. Qed.

Lemma emits_store (f : HandleSocket -> HandleSocket) : emits P (store f).
Proof. intro w. exists []. unfold store. destruct (heap w); simpl; rewrite app_nil_r; auto. Qed.

Lemma emits_emit (e : event) : P e -> emits P (emit e).
Proof. intros He w. exists [e]. simpl. auto. Qed.

Lemma emits_sfree : P EvSfree -> emits P sfree.
Proof.
  intros He w. unfold sfree. destruct (heap w); simpl.
  - exists [EvSfree]. auto.
  - exists []. rewrite app_nil_r. auto.
Qed.

Lemma emits_queue_toplevel_callback :
  P EvQueueToplevelCallback -> emits P queue_toplevel_callback.
Proof. intros He w. exists [EvQueueToplevelCallback]. simpl. auto. Qed.

Lemma emits_handle_write (h : handle) (data : list byte) (len : Z) :
  P (EvHandleWrite h (chunk data len) len) -> emits P (handle_write h data len).
Proof. intros He w. eexists. simpl. split; [reflexivity | auto]. Qed.

End Emits.

(** *** Stepping through a computation *)

Lemma bind_ok {A B : Type} (m : M A) (k : A -> M B) (w w' : world) (a : A) :
  m w = (Ok a, w') -> bind m k w = k a w'.
Proof. intro H. unfold bind. rewrite H. reflexivity. Qed.

Lemma bind_assoc {A B C : Type} (m : M A) (f : A -> M B) (g : B -> M C)
    (w : world) :
  bind (bind m f) g w = bind m (fun a => bind (f a) g) w.
Proof.
  unfold bind. destruct (m w) as [[a | |] w1]; reflexivity.
Qed.

Lemma bind_deref {B : Type} (k : HandleSocket -> M B) (w : world)
    (hs : HandleSocket) :
  heap w = Some hs -> bind deref k w = k hs w.
Proof. intro H. apply bind_ok. unfold deref. rewrite H. reflexivity. Qed.

Lemma bind_store {B : Type} (f : HandleSocket -> HandleSocket)
    (k : unit -> M B) (w : world) (hs : HandleSocket) :
  heap w = Some hs ->
  bind (store f) k w =
    k tt (mkWorld (Some (f hs)) (trace w) (toplevel_callbacks w)
            (send_backlog w) (next_handle w)).
Proof. intro H. apply bind_ok. unfold store. rewrite H. reflexivity. Qed.

Lemma bind_emit {B : Type} (e : event) (k : unit -> M B) (w : world) :
  bind (emit e) k w =
    k tt (mkWorld (heap w) (trace w ++ [e]) (toplevel_callbacks w)
            (send_backlog w) (next_handle w)).
Proof. reflexivity. Qed.

Lemma bind_assert {B : Type} (b : bool) (k : unit -> M B) (w : world) :
  b = true -> bind (assert b) k w = k tt w.
Proof. intro H. subst b. reflexivity. Qed.

(** *** Calls through the vtable *)

Lemma vtable_frame_refl (hs : HandleSocket) : vtable_frame hs hs.
Proof. unfold vtable_frame. intuition. Qed.

Lemma vtable_frame_trans (a b c : HandleSocket) :
  vtable_frame a b -> vtable_frame b c -> vtable_frame a c.
Proof.
  unfold vtable_frame.
  intros (A1 & A2 & A3 & A4 & A5 & A6 & A7 & A8 & A9 & A10 & A11 & A12 & A13)
         (B1 & B2 & B3 & B4 & B5 & B6 & B7 & B8 & B9 & B10 & B11 & B12 & B13).
  repeat split; try congruence.
  - destruct B11 as [B11 | [B11 B11']]; [destruct A11 as [A11 | [A11 A11']] |].
    + left. congruence.
    + right. split; congruence.
    + right. split; congruence.
  - destruct B13 as [B13 | B13]; [destruct A13 as [A13 | A13] |].
    + left. congruence.
    + right. congruence.
    + right. exact B13.
Qed.

Lemma adapter_frame_refl (hs : HandleSocket) : adapter_frame hs hs.
Proof. unfold adapter_frame. intuition. Qed.

Lemma adapter_frame_trans (a b c : HandleSocket) :
  adapter_frame a b -> adapter_frame b c -> adapter_frame a c.
Proof. unfold adapter_frame. intuition congruence. Qed.

Lemma vtable_adapter_frame (a b : HandleSocket) :
  vtable_frame a b -> adapter_frame a b.
Proof.
  unfold vtable_frame, adapter_frame.
  intros (A1 & A2 & A3 & A4 & A5 & A6 & A7 & A8 & A9 & A10 & A11 & A12 & A13).
  repeat split; try assumption.
  intro Hp. destruct A13 as [A13 | A13]; congruence.
Qed.

Lemma frames_weaken (R R' : HandleSocket -> HandleSocket -> Prop) {A : Type}
    (m : M A) :
  (forall a b, R a b -> R' a b) -> frames R m -> frames R' m.
Proof.
  intros Hsub Hm w. specialize (Hm w). unfold heap_rel in *.
  destruct (heap (snd (m w))); auto. destruct (heap w); auto.
Qed.

Lemma sock_exec_frame (c : sock_call) : frames vtable_frame (sock_exec c).
Proof.
  intro w. destruct c; unfold_vtable; unfold_prims; unfold heap_rel;
    destruct (heap w) as [hs |] eqn:Hheap; simpl; rewrite ?Hheap; auto.
  - (* sk_handle_plug *)
    destruct (p =? NULL) eqn:Hp; simpl; rewrite Hheap; simpl; rewrite ?Hheap.
    + apply vtable_frame_refl.
    + apply Z.eqb_neq in Hp. unfold vtable_frame. simpl. intuition.
  - (* sk_handle_close *)
    destruct (defer_close hs) eqn:Hd; simpl; rewrite ?Hheap; simpl.
    + unfold vtable_frame. simpl. intuition.
    + destruct (recv_H hs =? send_H hs); simpl; rewrite ?Hheap; simpl; auto.
  - apply vtable_frame_refl.
  - apply vtable_frame_refl.
  - apply vtable_frame_refl.
  - apply vtable_frame_refl.
  - (* sk_handle_set_frozen *)
    destruct (is_frozen =? 0); destruct (frozen hs) eqn:Hst; simpl;
      rewrite ?Hheap; simpl; rewrite ?Hheap;
      try solve [apply vtable_frame_refl];
      try solve [unfold vtable_frame; simpl; rewrite ?Hst; simpl; intuition].
    destruct (bufchain_size (inputdata hs) =? 0); simpl; rewrite ?Hheap; simpl.
    + unfold vtable_frame; simpl; rewrite ?Hst; simpl; intuition.
    + apply vtable_frame_refl.
  - apply vtable_frame_refl.
Qed.

Lemma reenter_frame (cs : list sock_call) : frames vtable_frame (reenter cs).
Proof.
  induction cs as [| c cs IH]; simpl.
  - apply frames_ret, vtable_frame_refl.
  - apply frames_bind; [exact vtable_frame_trans | apply sock_exec_frame |].
    intros _. exact IH.
Qed.

Lemma sock_exec_emits (c : sock_call) : emits not_plug_event (sock_exec c).
Proof.
  destruct c; unfold_vtable;
    repeat first
      [ apply emits_ret | apply emits_deref | apply emits_store
      | apply emits_assert | apply emits_sfree; exact I
      | apply emits_queue_toplevel_callback; exact I
      | apply emits_handle_write; exact I
      | apply emits_emit; exact I
      | apply emits_bind; [| intro]
      | match goal with
        | |- emits _ (if ?b then _ else _) => destruct b
        | |- emits _ (match ?x with _ => _ end) => destruct x
        end ].
Qed.

Lemma reenter_emits (cs : list sock_call) : emits not_plug_event (reenter cs).
Proof.
  induction cs as [| c cs IH]; simpl.
  - apply emits_ret.
  - apply emits_bind; [apply sock_exec_emits | intros _; exact IH].
Qed.

Lemma sock_exec_calm (c : sock_call) (w : world) (hs : HandleSocket) :
  heap w = Some hs ->
  defer_close hs = true \/ is_close_call c = false ->
  (buffering (frozen hs) = false -> inputdata hs = []) ->
  exists w' hs' evs,
    sock_exec c w = (Ok tt, w') /\ heap w' = Some hs' /\
    trace w' = trace w ++ evs /\ Forall calm_event evs /\
    deferred_close hs' = deferred_close hs || is_close_call c.
Proof.
  intros Hheap Hclose Hq.
  destruct c; unfold_vtable; unfold_prims; rewrite ?Hheap; simpl.
  - (* sk_handle_plug *)
    destruct (p =? NULL); simpl; rewrite ?Hheap; simpl;
      do 2 eexists; exists []; rewrite app_nil_r, orb_false_r;
      repeat split; try reflexivity; eauto.
  - (* sk_handle_close *)
    destruct Hclose as [Hd | Hd]; [| discriminate]. rewrite Hd. simpl.
    rewrite ?Hheap.
    do 2 eexists; exists []; rewrite app_nil_r, orb_true_r.
    repeat split; try reflexivity; eauto.
  - do 2 eexists; eexists [_]; rewrite orb_false_r.
    repeat split; try reflexivity; eauto. repeat constructor.
  - do 2 eexists; eexists [_]; rewrite orb_false_r.
    repeat split; try reflexivity; eauto. repeat constructor.
  - do 2 eexists; eexists [_]; rewrite orb_false_r.
    repeat split; try reflexivity; eauto. repeat constructor.
  - do 2 eexists; exists []; rewrite app_nil_r, orb_false_r.
    repeat split; try reflexivity; eauto.
  - (* sk_handle_set_frozen *)
    destruct (is_frozen =? 0); destruct (frozen hs) eqn:Hst; simpl;
      rewrite ?Hheap; simpl; rewrite ?Hheap;
      try solve [do 2 eexists; exists []; rewrite app_nil_r, orb_false_r;
                 repeat split; try reflexivity; eauto].
    + rewrite (Hq eq_refl). simpl. rewrite Hheap.
      do 2 eexists; exists []; rewrite app_nil_r, orb_false_r.
      repeat split; try reflexivity; eauto.
    + do 2 eexists; eexists [_]; rewrite orb_false_r.
      repeat split; try reflexivity; eauto. repeat constructor.
  - do 2 eexists; exists []; rewrite app_nil_r, orb_false_r.
    repeat split; try reflexivity; eauto.
Qed.

Lemma reenter_calm (cs : list sock_call) :
  forall (w : world) (hs : HandleSocket),
    heap w = Some hs ->
    defer_close hs = true \/ existsb is_close_call cs = false ->
    (buffering (frozen hs) = false -> inputdata hs = []) ->
    exists w' hs' evs,
      reenter cs w = (Ok tt, w') /\ heap w' = Some hs' /\
      trace w' = trace w ++ evs /\ Forall calm_event evs /\
      deferred_close hs' = deferred_close hs || existsb is_close_call cs /\
      vtable_frame hs hs'.
Proof.
  induction cs as [| c cs IH]; intros w hs Hheap Hclose Hq.
  - exists w, hs, []. simpl. rewrite app_nil_r, orb_false_r.
    repeat split; auto; try apply vtable_frame_refl.
  - simpl in Hclose.
    destruct (sock_exec_calm c w hs Hheap) as (w1 & hs1 & e1 & Hrun1 & Hh1 & Ht1 & Hc1 & Hd1);
      [ destruct Hclose as [Hd | Hd]; [left; exact Hd |];
        apply orb_false_iff in Hd; right; apply Hd
      | exact Hq |].
    pose proof (sock_exec_frame c w) as Hf. unfold heap_rel in Hf.
    rewrite Hrun1 in Hf. simpl in Hf. rewrite Hh1, Hheap in Hf.
    assert (Hf' := Hf).
    destruct Hf' as (_ & _ & _ & _ & _ & _ & Hb & Hi & _ & Hdc & _).
    destruct (IH w1 hs1 Hh1) as (w2 & hs2 & e2 & Hrun2 & Hh2 & Ht2 & Hc2 & Hd2 & Hf2).
    + destruct Hclose as [Hd | Hd]; [left; congruence |].
      apply orb_false_iff in Hd. right. apply Hd.
    + rewrite Hb, Hi. exact Hq.
    + exists w2, hs2, (e1 ++ e2). simpl. unfold bind at 1. rewrite Hrun1.
      refine (conj Hrun2 (conj Hh2 (conj _ (conj _ (conj _ _))))).
      * rewrite Ht2, Ht1, app_assoc. reflexivity.
      * apply Forall_app. auto.
      * rewrite Hd2, Hd1, orb_assoc. reflexivity.
      * eapply vtable_frame_trans; eauto.
Qed.

Lemma reenter_app (a b : list sock_call) (w : world) :
  reenter (a ++ b) w = bind (reenter a) (fun _ => reenter b) w.
Proof.
  revert w. induction a as [| c a IH]; intro w; simpl.
  - reflexivity.
  - unfold bind. destruct (sock_exec c w) as [[u | |] w1]; try reflexivity.
    rewrite IH. reflexivity.
Qed.

Lemma bind_reenter_app {B : Type} (a b : list sock_call) (k : unit -> M B)
    (w : world) :
  bind (reenter (a ++ b)) k w =
  bind (reenter a) (fun _ => bind (reenter b) k) w.
Proof.
  rewrite <- bind_assoc. unfold bind at 1 3. rewrite reenter_app. reflexivity.
Qed.

(** A close that is not deferred tears the socket down at once. *)
Lemma sk_handle_close_now (w : world) (hs : HandleSocket) :
  heap w = Some hs -> defer_close hs = false ->
  sk_handle_close w =
    (Ok tt,
     mkWorld None (trace w ++ close_trace hs) (toplevel_callbacks w)
       (send_backlog w) (next_handle w)).
Proof.
  intros Hheap Hd. unfold sk_handle_close, close_trace. unfold_prims.
  rewrite Hheap, Hd. simpl.
  destruct (recv_H hs =? send_H hs); simpl; rewrite Hheap; simpl;
    rewrite <- !app_assoc; reflexivity.
Qed.

(** A deferred close only sets the flag. *)
Lemma sk_handle_close_deferred (w : world) (hs : HandleSocket) :
  heap w = Some hs -> defer_close hs = true ->
  sk_handle_close w =
    (Ok tt,
     mkWorld (Some (with_deferred_close true hs)) (trace w)
       (toplevel_callbacks w) (send_backlog w) (next_handle w)).
Proof.
  intros Hheap Hd. unfold sk_handle_close. unfold_prims.
  rewrite Hheap, Hd, Hheap. reflexivity.
Qed.

Lemma calm_not_sfree (evs : list event) :
  Forall calm_event evs -> filter is_sfree evs = [].
Proof.
  induction 1 as [| e evs [_ He] _ IH]; simpl; [reflexivity |].
  destruct e; simpl in *; try discriminate; exact IH.
Qed.

Lemma calm_teardown_outside (evs : list event) (inside : bool) :
  Forall calm_event evs -> forall rest,
  teardown_outside_plug inside (evs ++ rest) = teardown_outside_plug inside rest.
Proof.
  induction 1 as [| e evs [Hp He] _ IH]; intro rest; simpl; [reflexivity |].
  destruct e; simpl in *; try contradiction; try discriminate;
    rewrite ?andb_false_r; simpl; apply IH.
Qed.

Lemma close_trace_frame (hs hs' : HandleSocket) :
  vtable_frame hs hs' -> close_trace hs' = close_trace hs.
Proof.
  intros (A1 & A2 & A3 & A4 & A5 & A6 & _). unfold close_trace.
  rewrite A1, A2, A4, A5. reflexivity.
Qed.

Lemma close_trace_sfree (hs : HandleSocket) :
  filter is_sfree (close_trace hs) = [EvSfree].
Proof.
  unfold close_trace. destruct (negb (recv_H hs =? send_H hs)); reflexivity.
Qed.

Lemma close_trace_outside (hs : HandleSocket) (rest : list event) :
  teardown_outside_plug false (close_trace hs ++ rest) =
  teardown_outside_plug false rest.
Proof.
  unfold close_trace. destruct (negb (recv_H hs =? send_H hs)); reflexivity.
Qed.

Lemma close_trace_inside (hs : HandleSocket) (rest : list event) :
  teardown_outside_plug true (close_trace hs ++ rest) = false.
Proof. reflexivity. Qed.

Lemma queue_invariant_iff (hs : HandleSocket) :
  queue_invariant hs <-> (buffering (frozen hs) = false -> inputdata hs = []).
Proof.
  unfold queue_invariant. split.
  - intros [H1 H2] Hb. destruct (inputdata hs) as [| b q] eqn:Hq; [reflexivity |].
    destruct H2 as [H2 | H2]; [discriminate | |]; rewrite H2 in Hb; discriminate.
  - intro H. split.
    + intro Hst. apply H. rewrite Hst. reflexivity.
    + intro Hne. destruct (frozen hs); auto; exfalso; apply Hne, H; reflexivity.
Qed.

Lemma heap_rel_invariant (w w' : world) :
  heap_rel vtable_frame w w' -> world_invariant w -> world_invariant w'.
Proof.
  unfold heap_rel, world_invariant. destruct (heap w') as [hs' |]; [| auto].
  destruct (heap w) as [hs |]; [| contradiction].
  intros (_ & _ & _ & _ & _ & _ & Hb & Hi & _) Hinv.
  pose proof (proj1 (queue_invariant_iff hs) Hinv) as Hinv'.
  apply queue_invariant_iff. rewrite Hb, Hi. exact Hinv'.
Qed.

(** [sk_handle_set_frozen] against the table, when its assertion holds. *)
Lemma set_frozen_run (w : world) (hs : HandleSocket) (is_frozen : Z) :
  heap w = Some hs ->
  ~ (frozen hs = FREEZING /\ negb (is_frozen =? 0) = false /\ inputdata hs <> []) ->
  sk_handle_set_frozen is_frozen w =
    (Ok tt,
     mkWorld
       (Some (with_frozen
                (fst (transition_table (frozen hs) (negb (is_frozen =? 0)))) hs))
       (trace w
        ++ repeat EvQueueToplevelCallback
             (snd (transition_table (frozen hs) (negb (is_frozen =? 0)))))
       (snd (transition_table (frozen hs) (negb (is_frozen =? 0)))
        + toplevel_callbacks w)
       (send_backlog w) (next_handle w)).
Proof.
  intros Hheap Hno.
  unfold sk_handle_set_frozen. unfold_prims. rewrite Hheap.
  destruct (negb (is_frozen =? 0)) eqn:Hf; destruct (frozen hs) eqn:Hst;
    simpl; rewrite ?Hheap, ?app_nil_r; simpl;
    try (rewrite <- Hst, with_frozen_same, <- Hheap, world_eta; reflexivity);
    try reflexivity.
  destruct (bufchain_size (inputdata hs) =? 0) eqn:Hq.
  - rewrite Hheap. reflexivity.
  - exfalso. apply Hno. repeat split.
    intro Hnil. rewrite Hnil in Hq. discriminate.
Qed.

Lemma stays_thawing_refl (hs : HandleSocket) : stays_thawing hs hs.
Proof. intro H. exact H. Qed.

Lemma stays_thawing_trans (a b c : HandleSocket) :
  stays_thawing a b -> stays_thawing b c -> stays_thawing a c.
Proof. unfold stays_thawing. auto. Qed.

Lemma sock_exec_stays_thawing (c : sock_call) :
  is_freeze_call c = false -> frames stays_thawing (sock_exec c).
Proof.
  intros Hc w. destruct c; unfold_vtable; unfold_prims; unfold heap_rel;
    destruct (heap w) as [hs |] eqn:Hheap; simpl; rewrite ?Hheap; auto;
    try apply stays_thawing_refl.
  - destruct (p =? NULL); simpl; rewrite Hheap; simpl; rewrite ?Hheap;
      intro H; exact H.
  - destruct (defer_close hs); simpl; rewrite ?Hheap; simpl.
    + intro H; exact H.
    + destruct (recv_H hs =? send_H hs); simpl; rewrite ?Hheap; simpl; auto.
  - simpl in Hc. rewrite Hc.
    destruct (frozen hs) eqn:Hst; simpl; rewrite ?Hheap; simpl; rewrite ?Hheap;
      try (intro H; congruence).
    destruct (bufchain_size (inputdata hs) =? 0); simpl; rewrite ?Hheap; simpl;
      intro H; congruence.
Qed.

Lemma reenter_stays_thawing (cs : list sock_call) :
  existsb is_freeze_call cs = false -> frames stays_thawing (reenter cs).
Proof.
  induction cs as [| c cs IH]; simpl; intro Hcs.
  - apply frames_ret, stays_thawing_refl.
  - apply orb_false_iff in Hcs. destruct Hcs as [Hc Hcs].
    apply frames_bind;
      [exact stays_thawing_trans | apply sock_exec_stays_thawing, Hc |].
    intros _. apply IH, Hcs.
Qed.

Lemma run_app (consumer : Plug -> plug_call -> list sock_call)
    (prefix_len : bufchain -> nat) (win_strerror : Z -> string)
    (log_proxy_stderr : bufchain -> list byte -> Z -> bufchain)
    (a b : list op) (w : world) :
  run consumer prefix_len win_strerror log_proxy_stderr (a ++ b) w =
  bind (run consumer prefix_len win_strerror log_proxy_stderr a)
    (fun _ => run consumer prefix_len win_strerror log_proxy_stderr b) w.
Proof.
  revert w. induction a as [| o a IH]; intro w; simpl.
  - reflexivity.
  - unfold bind.
    destruct (step consumer prefix_len win_strerror log_proxy_stderr o w)
      as [[u | |] w1]; try reflexivity.
    rewrite IH. reflexivity.
Qed.

(** *** Where the receive worker is unthrottled *)

Ltac emits_with tac :=
  repeat first
    [ apply emits_ret | apply emits_deref | apply emits_store
    | apply emits_assert | apply emits_sfree; tac
    | apply emits_queue_toplevel_callback; tac
    | apply emits_handle_write; tac
    | apply emits_emit; tac
    | apply emits_bind; [| intro]
    | match goal with
      | |- emits _ (if ?b then _ else _) => destruct b
      | |- emits _ (match ?x with _ => _ end) => destruct x
      end ].

Lemma emits_weaken (P Q : event -> Prop) {A : Type} (m : M A) :
  (forall e, P e -> Q e) -> emits P m -> emits Q m.
Proof.
  intros Hsub Hm w. destruct (Hm w) as (evs & Ht & Hf).
  exists evs. split; [exact Ht |]. eapply Forall_impl; eauto.
Qed.

Lemma sock_exec_no_unthrottle (c : sock_call) :
  emits not_unthrottle (sock_exec c).
Proof. destruct c; unfold_vtable; emits_with ltac:(reflexivity). Qed.

Lemma reenter_no_unthrottle (cs : list sock_call) :
  emits not_unthrottle (reenter cs).
Proof.
  induction cs as [| c cs IH]; simpl.
  - apply emits_ret.
  - apply emits_bind; [apply sock_exec_no_unthrottle | intros _; exact IH].
Qed.

(** *** Which worker an outward call names *)

Section Addressed.

Variable ref : HandleSocket.

Lemma same_handles_frame (hs hs' : HandleSocket) :
  same_handles ref hs -> adapter_frame hs hs' -> same_handles ref hs'.
Proof.
  unfold same_handles, adapter_frame.
  intros (A1 & A2 & A3 & A4) (B1 & B2 & _ & B4 & B5 & _).
  repeat split; congruence.
Qed.

Lemma addressed_ret {A : Type} (a : A) : emits_addressed ref (ret a).
Proof. intros w _. exists []. simpl. rewrite app_nil_r. auto. Qed.

Lemma addressed_bind {A B : Type} (m : M A) (k : A -> M B) :
  emits_addressed ref m -> frames adapter_frame m ->
  (forall a, emits_addressed ref (k a)) ->
  emits_addressed ref (bind m k).
Proof.
  intros Hm Hf Hk w Hpre. unfold bind.
  destruct (Hm w Hpre) as (e1 & H1 & F1). specialize (Hf w).
  destruct (m w) as [[a | |] w1]; simpl in *; eauto.
  destruct (Hk a w1) as (e2 & H2 & F2).
  { intros hs1 Hh1. unfold heap_rel in Hf. rewrite Hh1 in Hf.
    pose proof (fun hs Hh => Hpre hs Hh) as Hpre'.
    destruct (heap w) as [hs |]; [| contradiction].
    eapply same_handles_frame; [apply Hpre'; reflexivity | exact Hf]. }
  exists (e1 ++ e2). rewrite H2, H1, app_assoc.
  split; [reflexivity | apply Forall_app; auto].
Qed.

Lemma addressed_bind_deref {B : Type} (k : HandleSocket -> M B) :
  (forall hs, same_handles ref hs -> emits_addressed ref (k hs)) ->
  emits_addressed ref (bind deref k).
Proof.
  intros Hk w Hpre. unfold bind, deref.
  pose proof (fun hs Hh => Hk hs (Hpre hs Hh) w Hpre) as Hk'.
  destruct (heap w) as [hs |].
  - exact (Hk' hs eq_refl).
  - exists []. simpl. rewrite app_nil_r. auto.
Qed.

Lemma addressed_assert (b : bool) : emits_addressed ref (assert b).
Proof.
  intros w _. exists []. unfold assert. destruct b; simpl; rewrite app_nil_r; auto.
Qed.

Lemma addressed_store (f : HandleSocket -> HandleSocket) :
  emits_addressed ref (store f).
Proof.
  intros w _. exists []. unfold store.
  destruct (heap w); simpl; rewrite app_nil_r; auto.
Qed.

Lemma addressed_emit (e : event) :
  addressed ref e -> emits_addressed ref (emit e).
Proof. intros He w _. exists [e]. simpl. auto. Qed.

Lemma addressed_sfree : emits_addressed ref sfree.
Proof.
  intros w _. unfold sfree. destruct (heap w); simpl.
  - exists [EvSfree]. split; [reflexivity |]. repeat constructor.
  - exists []. rewrite app_nil_r. auto.
Qed.

Lemma addressed_queue_toplevel_callback :
  emits_addressed ref queue_toplevel_callback.
Proof.
  intros w _. exists [EvQueueToplevelCallback]. simpl.
  split; [reflexivity |]. repeat constructor.
Qed.

Lemma addressed_handle_write (h : handle) (data : list byte) (len : Z) :
  h = send_h ref -> emits_addressed ref (handle_write h data len).
Proof.
  intros Hh w _. eexists. simpl. split; [reflexivity |].
  repeat constructor. exact Hh.
Qed.

End Addressed.

(** Side conditions of the rules below. *)
Ltac addressed_side :=
  match goal with
  | H : same_handles _ _ |- _ =>
      let E1 := fresh in let E2 := fresh in
      let E3 := fresh in let E4 := fresh in
      destruct H as (E1 & E2 & E3 & E4); simpl;
      first [ exact I | assumption | left; assumption | right; assumption
            | split; [assumption | reflexivity] ]
  | _ => simpl; exact I
  end.

Ltac addressed_frames :=
  repeat first
    [ apply frames_ret; exact adapter_frame_refl
    | apply frames_deref; exact adapter_frame_refl
    | apply frames_assert; exact adapter_frame_refl
    | apply frames_emit; exact adapter_frame_refl
    | apply frames_sfree
    | apply frames_handle_write; exact adapter_frame_refl
    | apply frames_queue_toplevel_callback; exact adapter_frame_refl
    | apply frames_store; intro; unfold adapter_frame; simpl; repeat split; auto;
      intros _; apply Z.eqb_neq; assumption
    | apply frames_bind; [exact adapter_frame_trans | | intro]
    | match goal with
      | |- frames _ (if negb ?b then _ else _) =>
          let E := fresh "E" in destruct b eqn:E; simpl negb; cbv iota
      | |- frames _ (if ?b then _ else _) => destruct b
      | |- frames _ (match ?x with _ => _ end) => destruct x
      end ].

Ltac addressed_steps :=
  repeat first
    [ apply addressed_ret | apply addressed_assert | apply addressed_store
    | apply addressed_sfree | apply addressed_queue_toplevel_callback
    | apply addressed_handle_write; addressed_side
    | apply addressed_emit; addressed_side
    | apply addressed_bind_deref; intros ? ?
    | apply addressed_bind; [| addressed_frames | intro]
    | match goal with
      | |- emits_addressed _ (if ?b then _ else _) => destruct b
      | |- emits_addressed _ (match ?x with _ => _ end) => destruct x
      end ].

Lemma sock_exec_addressed (ref : HandleSocket) (c : sock_call) :
  emits_addressed ref (sock_exec c).
Proof.
  destruct c; unfold_vtable;
    unfold handle_free, CloseHandle, handle_write_eof; addressed_steps.
Qed.

Lemma reenter_addressed (ref : HandleSocket) (cs : list sock_call) :
  emits_addressed ref (reenter cs).
Proof.
  induction cs as [| c cs IH]; simpl.
  - apply addressed_ret.
  - apply addressed_bind; [apply sock_exec_addressed | | intros _; exact IH].
    apply (frames_weaken vtable_frame); [exact vtable_adapter_frame |].
    apply sock_exec_frame.
Qed.


(** *** Only a close frees the adapter *)

Lemma alive_ret {A : Type} (a : A) : stays_alive (ret a).
Proof.
  intros w hs Hh Hd. exists hs. simpl. repeat split; auto. discriminate.
Qed.

Lemma alive_bind {A B : Type} (m : M A) (k : A -> M B) :
  stays_alive m -> (forall a, stays_alive (k a)) -> stays_alive (bind m k).
Proof.
  intros Hm Hk w hs Hh Hd. unfold bind.
  destruct (Hm w hs Hh Hd) as (hs1 & Hh1 & Hd1 & Hok & Ht1).
  destruct (m w) as [[a | |] w1]; simpl in *.
  - destruct (Hk a w1 hs1 Hh1 Hd1) as (hs2 & Hh2 & Hd2 & Hok2 & Ht2).
    exists hs2. repeat split; auto. congruence.
  - exists hs1. repeat split; auto. discriminate.
  - congruence.
Qed.

Lemma alive_bind_deref {B : Type} (k : HandleSocket -> M B) :
  (forall hs, deferred_close hs = false -> stays_alive (k hs)) ->
  stays_alive (bind deref k).
Proof.
  intros Hk w hs Hh Hd. unfold bind, deref. rewrite Hh.
  exact (Hk hs Hd w hs Hh Hd).
Qed.

Lemma alive_assert (b : bool) : stays_alive (assert b).
Proof.
  intros w hs Hh Hd. exists hs. unfold assert.
  destruct b; simpl; repeat split; auto; discriminate.
Qed.

Lemma alive_store (f : HandleSocket -> HandleSocket) :
  (forall hs, deferred_close hs = false -> deferred_close (f hs) = false) ->
  stays_alive (store f).
Proof.
  intros Hf w hs Hh Hd. unfold store. rewrite Hh. simpl.
  exists (f hs). repeat split; auto. discriminate.
Qed.

Lemma alive_emit (e : event) : is_sfree e = false -> stays_alive (emit e).
Proof.
  intros He w hs Hh Hd. exists hs. unfold emit. simpl.
  repeat split; auto; [discriminate |].
  rewrite filter_app. simpl. rewrite He. apply app_nil_r.
Qed.

Lemma alive_queue_toplevel_callback : stays_alive queue_toplevel_callback.
Proof.
  intros w hs Hh Hd. exists hs. unfold queue_toplevel_callback. simpl.
  repeat split; auto; [discriminate |].
  rewrite filter_app. simpl. apply app_nil_r.
Qed.

Lemma alive_handle_write (h : handle) (data : list byte) (len : Z) :
  stays_alive (handle_write h data len).
Proof.
  intros w hs Hh Hd. exists hs. unfold handle_write. simpl.
  repeat split; auto; [discriminate |].
  rewrite filter_app. simpl. apply app_nil_r.
Qed.

Ltac alive_steps :=
  repeat first
    [ apply alive_ret | apply alive_assert | apply alive_emit; reflexivity
    | apply alive_queue_toplevel_callback | apply alive_handle_write
    | apply alive_store; intros ? ?; simpl; assumption
    | apply alive_bind_deref; intros ? ?
    | apply alive_bind; [| intro]
    | match goal with
      | H : deferred_close ?h = false
        |- stays_alive (if deferred_close ?h then _ else _) =>
          rewrite H
      | |- stays_alive (if ?b then _ else _) => destruct b
      | |- stays_alive (match ?x with _ => _ end) => destruct x
      | |- stays_alive (let '(_, _) := ?x in _) => destruct x
      end ].

Lemma sock_exec_alive (c : sock_call) :
  is_close_call c = false -> stays_alive (sock_exec c).
Proof.
  intro Hc. destruct c; try discriminate; unfold_vtable;
    unfold handle_write_eof; alive_steps.
Qed.

Lemma reenter_alive (cs : list sock_call) :
  existsb is_close_call cs = false -> stays_alive (reenter cs).
Proof.
  induction cs as [| c cs IH]; simpl; intro Hcs.
  - apply alive_ret.
  - apply orb_false_iff in Hcs. destruct Hcs as [Hc Hcs].
    apply alive_bind; [apply sock_exec_alive, Hc | intros _; apply IH, Hcs].
Qed.

(** *** Which Plug is called *)

Section Routed.

Variable p : Plug.

Lemma routed_ret {A : Type} (a : A) : routed p (ret a).
Proof.
  intros w Hpre. split; [exact Hpre |]. exists []. simpl.
  rewrite app_nil_r. auto.
Qed.

Lemma routed_bind {A B : Type} (m : M A) (k : A -> M B) :
  routed p m -> (forall a, routed p (k a)) -> routed p (bind m k).
Proof.
  intros Hm Hk w Hpre. unfold bind.
  destruct (Hm w Hpre) as (Hp1 & e1 & H1 & F1).
  destruct (m w) as [[a | |] w1]; simpl in *; eauto.
  destruct (Hk a w1 Hp1) as (Hp2 & e2 & H2 & F2).
  split; [exact Hp2 |].
  exists (e1 ++ e2). rewrite H2, H1, app_assoc.
  split; [reflexivity | apply Forall_app; auto].
Qed.

Lemma routed_bind_deref {B : Type} (k : HandleSocket -> M B) :
  (forall hs, plug hs = p -> routed p (k hs)) -> routed p (bind deref k).
Proof.
  intros Hk w Hpre. unfold bind, deref.
  pose proof (fun hs Hh => Hk hs (Hpre hs Hh) w Hpre) as Hk'.
  destruct (heap w) as [hs |] eqn:Hh.
  - exact (Hk' hs eq_refl).
  - simpl. rewrite Hh. split; [intros hs' H; discriminate H |].
    exists []. rewrite app_nil_r. auto.
Qed.

Lemma routed_assert (b : bool) : routed p (assert b).
Proof.
  intros w Hpre. unfold assert.
  destruct b; simpl; (split; [exact Hpre |]); exists [];
    rewrite app_nil_r; auto.
Qed.

Lemma routed_store (f : HandleSocket -> HandleSocket) :
  (forall hs, plug (f hs) = plug hs) -> routed p (store f).
Proof.
  intros Hf w Hpre. unfold store.
  pose proof (fun hs Hh => Hpre hs Hh) as Hpre'.
  destruct (heap w) as [hs |] eqn:Hh; simpl.
  - split.
    + intros hs' H. injection H as H. subst hs'. rewrite Hf.
      exact (Hpre' hs eq_refl).
    + exists []. rewrite app_nil_r. auto.
  - rewrite Hh. split; [intros hs' H; discriminate H |].
    exists []. rewrite app_nil_r. auto.
Qed.

Lemma routed_emit (e : event) : to_plug p e -> routed p (emit e).
Proof.
  intros He w Hpre. split; [exact Hpre |]. exists [e]. simpl. auto.
Qed.

Lemma routed_sfree : routed p sfree.
Proof.
  intros w Hpre. unfold sfree. destruct (heap w) as [hs |] eqn:Hh; simpl.
  - split; [intros hs' H; discriminate H |].
    exists [EvSfree]. split; [reflexivity |]. repeat constructor.
  - rewrite Hh. split; [intros hs' H; discriminate H |].
    exists []. rewrite app_nil_r. auto.
Qed.

Lemma routed_queue_toplevel_callback : routed p queue_toplevel_callback.
Proof.
  intros w Hpre. split; [exact Hpre |]. exists [EvQueueToplevelCallback].
  simpl. split; [reflexivity |]. repeat constructor.
Qed.

Lemma routed_handle_write (h : handle) (data : list byte) (len : Z) :
  routed p (handle_write h data len).
Proof.
  intros w Hpre. split; [exact Hpre |]. eexists. simpl.
  split; [reflexivity |]. repeat constructor.
Qed.

End Routed.

Ltac routed_steps :=
  repeat first
    [ apply routed_ret | apply routed_assert | apply routed_sfree
    | apply routed_queue_toplevel_callback | apply routed_handle_write
    | apply routed_store; intro; reflexivity
    | apply routed_emit; first [exact I | assumption]
    | apply routed_bind_deref; intros ? ?
    | apply routed_bind; [| intro]
    | match goal with
      | |- routed _ (if ?b then _ else _) => destruct b
      | |- routed _ (match ?x with _ => _ end) => destruct x
      end ].

Lemma sock_exec_routed (p : Plug) (c : sock_call) :
  keeps_plug_call c = true -> routed p (sock_exec c).
Proof.
  intro Hc.
  destruct c as [q | | data len | data len | | | is_frozen |];
    simpl in Hc; unfold_vtable;
    unfold handle_free, CloseHandle, handle_write_eof, handle_unthrottle;
    try rewrite Hc; simpl negb; cbv iota; routed_steps.
Qed.

Lemma reenter_routed (p : Plug) (cs : list sock_call) :
  forallb keeps_plug_call cs = true -> routed p (reenter cs).
Proof.
  induction cs as [| c cs IH]; simpl; intro Hcs.
  - apply routed_ret.
  - apply andb_true_iff in Hcs. destruct Hcs as [Hc Hcs].
    apply routed_bind; [apply sock_exec_routed; exact Hc | intros _; auto].
Qed.

Section Proofs.

Variable consumer : Plug -> plug_call -> list sock_call.
Variable prefix_len : bufchain -> nat.
Variable win_strerror : Z -> string.
Variable log_proxy_stderr : bufchain -> list byte -> Z -> bufchain.

(** [bufchain_prefix] of a non-empty chain is a non-empty block. *)
Hypothesis prefix_len_pos :
  forall ch : bufchain, ch <> [] -> (0 < prefix_len ch)%nat.

(** *** The freeze/thaw transition table *)

(** C2: [sk_handle_set_frozen] follows the table of section 4.1.  With
    the adapter allocated, a request in state [st] succeeds, moves the
    state to the table's entry, touches no other field (so the input
    queue in particular), and queues exactly the number of drain
    callbacks the table gives (one for unfreeze-while-FROZEN, none
    otherwise); the only exception is unfreeze-while-FREEZING with
    buffered input, where the assertion fails and nothing changes.  A
    queued drain callback that finds a state other than THAWING returns
    without doing anything. *)
Theorem set_frozen_transition_table :
  forall (w : world) (hs : HandleSocket) (is_frozen : Z),
    heap w = Some hs ->
    let freeze := negb (is_frozen =? 0) in
    let st' := fst (transition_table (frozen hs) freeze) in
    let n := snd (transition_table (frozen hs) freeze) in
    (frozen hs = FREEZING /\ freeze = false /\ inputdata hs <> [] ->
     sk_handle_set_frozen is_frozen w = (AssertFailed, w)) /\
    (~ (frozen hs = FREEZING /\ freeze = false /\ inputdata hs <> []) ->
     sk_handle_set_frozen is_frozen w =
       (Ok tt,
        mkWorld (Some (with_frozen st' hs))
          (trace w ++ repeat EvQueueToplevelCallback n)
          (n + toplevel_callbacks w) (send_backlog w) (next_handle w)) /\
     inputdata (with_frozen st' hs) = inputdata hs /\
     (n = O -> st' = frozen hs ->
      sk_handle_set_frozen is_frozen w = (Ok tt, w))) /\
    (frozen hs <> THAWING ->
     handle_socket_unfreeze consumer prefix_len w = (Ok tt, w)).
Proof.
  intros w hs is_frozen Hheap freeze st' n.
  assert (Hrun :
    ~ (frozen hs = FREEZING /\ freeze = false /\ inputdata hs <> []) ->
    sk_handle_set_frozen is_frozen w =
      (Ok tt,
       mkWorld (Some (with_frozen st' hs))
         (trace w ++ repeat EvQueueToplevelCallback n)
         (n + toplevel_callbacks w) (send_backlog w) (next_handle w))).
  { intro Hno. exact (set_frozen_run w hs is_frozen Hheap Hno). }
  split; [| split].
  - intros (Hst & Hf & Hq). subst freeze.
    unfold sk_handle_set_frozen. unfold_prims. rewrite Hheap, Hf, Hst.
    destruct (bufchain_size (inputdata hs) =? 0) eqn:Hsz; [| reflexivity].
    apply bufchain_size_zero in Hsz. contradiction.
  - intro Hno. split; [exact (Hrun Hno) |]. split; [reflexivity |].
    intros Hn Hsame. rewrite (Hrun Hno), Hn, Hsame, with_frozen_same.
    simpl. rewrite app_nil_r, <- Hheap. apply f_equal, world_eta.
  - intro Hst. unfold handle_socket_unfreeze. unfold_prims. rewrite Hheap.
    destruct (frozen hs); simpl; try reflexivity. congruence.
Qed.

(** *** Calls into the Plug *)

Lemma plug_calls_app (a b : list event) :
  plug_calls (a ++ b) = plug_calls a ++ plug_calls b.
Proof.
  induction a as [| e a IH]; simpl; [reflexivity |].
  destruct e; simpl; rewrite IH; reflexivity.
Qed.

Lemma received_app (a b : list event) :
  received (a ++ b) = received a ++ received b.
Proof.
  induction a as [| e a IH]; simpl; [reflexivity |].
  destruct e as [p c | | | | | | | | | | | |]; try exact IH.
  destruct c; try exact IH. rewrite IH, app_assoc. reflexivity.
Qed.

Lemma not_plug_event_quiet (evs : list event) :
  Forall not_plug_event evs -> plug_calls evs = [] /\ received evs = [].
Proof.
  induction 1 as [| e evs He _ IH]; simpl; [auto |].
  destruct e; simpl in He; try contradiction; exact IH.
Qed.

Lemma calm_event_quiet (evs : list event) :
  Forall calm_event evs -> plug_calls evs = [] /\ received evs = [].
Proof.
  intro H. apply not_plug_event_quiet.
  eapply Forall_impl; [| exact H]. intros e He. apply He.
Qed.

Lemma plug_invoke_frame (p : Plug) (c : plug_call) :
  frames vtable_frame (plug_invoke consumer p c).
Proof.
  unfold plug_invoke.
  apply frames_bind;
    [exact vtable_frame_trans | apply frames_emit, vtable_frame_refl |].
  intros _. apply frames_bind;
    [exact vtable_frame_trans | apply reenter_frame |].
  intros _. apply frames_emit, vtable_frame_refl.
Qed.

(** A Plug method is entered exactly once, and the calls it makes back
    into the Socket never enter the Plug. *)
Lemma plug_invoke_trace (p : Plug) (c : plug_call) (w : world) :
  exists evs,
    trace (snd (plug_invoke consumer p c w)) = trace w ++ EvPlug p c :: evs /\
    plug_calls evs = [] /\ received evs = [].
Proof.
  unfold plug_invoke, bind at 1. unfold emit at 1.
  set (w1 := mkWorld _ _ _ _ _).
  destruct (reenter_emits (consumer p c) w1) as (evs & Ht & Hf).
  apply not_plug_event_quiet in Hf. destruct Hf as [Hp Hr].
  unfold bind.
  destruct (reenter (consumer p c) w1) as [[[] | |] w2]; simpl in *.
  - exists (evs ++ [EvPlugReturn]). rewrite Ht. subst w1. simpl.
    rewrite <- !app_assoc. simpl.
    rewrite plug_calls_app, received_app, Hp, Hr. auto.
  - exists evs. rewrite Ht. subst w1. simpl. rewrite <- app_assoc. auto.
  - exists evs. rewrite Ht. subst w1. simpl. rewrite <- app_assoc. auto.
Qed.

(** A Plug that does not call back just returns. *)
Lemma plug_invoke_quiet (p : Plug) (c : plug_call) (w : world) :
  consumer p c = [] ->
  plug_invoke consumer p c w =
    (Ok tt,
     mkWorld (heap w) (trace w ++ [EvPlug p c; EvPlugReturn])
       (toplevel_callbacks w) (send_backlog w) (next_handle w)).
Proof.
  intro Hc. unfold plug_invoke. rewrite Hc. unfold_prims. simpl.
  rewrite <- app_assoc. reflexivity.
Qed.

(** *** The read-delivery path *)

Lemma handle_gotdata_unfrozen (w : world) (hs : HandleSocket)
    (data : list byte) (len : Z) :
  heap w = Some hs -> 0 < len -> frozen hs = UNFROZEN ->
  handle_gotdata consumer data len w =
    bind (plug_receive consumer (plug hs) 0 data len) (fun _ => ret 0) w.
Proof.
  intros Hheap Hlen Hst. unfold handle_gotdata.
  unfold bind at 1. unfold deref. rewrite Hheap.
  assert (H1 : (len <? 0) = false) by (apply Z.ltb_ge; lia).
  assert (H2 : (len =? 0) = false) by (apply Z.eqb_neq; lia).
  rewrite H1, H2, Hst. simpl. unfold bind at 1. simpl. reflexivity.
Qed.

(** C3: a positive-length read that arrives in state FREEZING is appended
    to [inputdata] (exactly its [len] bytes, after what was there), the
    state becomes FROZEN, nothing is passed to the Plug (the trace is
    unchanged) and INT_MAX is returned.  In state UNFROZEN the bytes go
    to the Plug's [receive], once; [inputdata] is as before in the
    adapter that remains, and a return value, when the Plug lets the call
    return, is 0; with a Plug that does not call back the call returns 0
    and changes nothing but the trace. *)
Theorem gotdata_freezing_buffers_unfrozen_delivers :
  forall (w : world) (hs : HandleSocket) (data : list byte) (len : Z),
    heap w = Some hs ->
    0 < len ->
    (frozen hs = FREEZING ->
     handle_gotdata consumer data len w =
       (Ok INT_MAX,
        mkWorld
          (Some (with_frozen FROZEN
                   (with_inputdata (inputdata hs ++ chunk data len) hs)))
          (trace w) (toplevel_callbacks w) (send_backlog w) (next_handle w))) /\
    (frozen hs = UNFROZEN ->
     let r := handle_gotdata consumer data len w in
     plug_calls (trace (snd r)) =
       plug_calls (trace w) ++ [plug_receive_call 0 (chunk data len) len] /\
     received (trace (snd r)) = received (trace w) ++ chunk data len /\
     (forall hs', heap (snd r) = Some hs' -> inputdata hs' = inputdata hs) /\
     (forall v, fst r = Ok v -> v = 0) /\
     (consumer (plug hs) (plug_receive_call 0 (chunk data len) len) = [] ->
      r = (Ok 0,
           mkWorld (Some hs)
             (trace w ++ [EvPlug (plug hs)
                            (plug_receive_call 0 (chunk data len) len);
                          EvPlugReturn])
             (toplevel_callbacks w) (send_backlog w) (next_handle w)))).
Proof.
  intros w hs data len Hheap Hlen. split; intro Hst.
  - unfold handle_gotdata. unfold_prims. rewrite Hheap.
    assert (H1 : (len <? 0) = false) by (apply Z.ltb_ge; lia).
    assert (H2 : (len =? 0) = false) by (apply Z.eqb_neq; lia).
    rewrite H1, H2, Hst. simpl. rewrite Hheap. simpl. reflexivity.
  - intro r. subst r. rewrite (handle_gotdata_unfrozen w hs data len Hheap Hlen Hst).
    unfold plug_receive.
    set (c := plug_receive_call 0 (chunk data len) len).
    destruct (plug_invoke_trace (plug hs) c w) as (evs & Ht & Hp & Hr).
    pose proof (plug_invoke_frame (plug hs) c w) as Hf.
    assert (Hsnd : forall (k : unit -> M Z),
               (forall u w1, snd (k u w1) = w1) ->
               snd (bind (plug_invoke consumer (plug hs) c) k w) =
               snd (plug_invoke consumer (plug hs) c w)).
    { intros k Hk. unfold bind.
      destruct (plug_invoke consumer (plug hs) c w) as [[u | |] w1]; simpl; auto. }
    rewrite Hsnd by reflexivity.
    repeat split.
    + rewrite Ht, plug_calls_app. simpl. rewrite Hp. reflexivity.
    + rewrite Ht, received_app. simpl. rewrite Hr, app_nil_r. reflexivity.
    + intros hs' Hh'. unfold heap_rel in Hf. rewrite Hh', Hheap in Hf.
      apply Hf.
    + intros v. unfold bind.
      destruct (plug_invoke consumer (plug hs) c w) as [[u | |] w1]; simpl;
        intro Hv; congruence.
    + intro Hq. unfold bind. rewrite (plug_invoke_quiet _ _ _ Hq).
      unfold ret. rewrite Hheap. reflexivity.
Qed.

(** *** The sent-data callback *)

(** C7: a negative backlog [-e] (with [e] an error code an [int] can
    hold) makes the adapter enter the Plug exactly once, through
    [plug_closing] with the message [win_strerror e] and the code [e],
    and never through [plug_sent]; a non-negative backlog makes it enter
    the Plug exactly once, through [plug_sent] with that very value. *)
Theorem sentdata_error_closes_else_forwards :
  forall (w : world) (hs : HandleSocket),
    heap w = Some hs ->
    (forall e : Z,
        0 < e <= INT_MAX ->
        plug_calls (trace (snd (handle_sentdata consumer win_strerror (- e) w))) =
        plug_calls (trace w)
          ++ [plug_closing_call (Some (win_strerror e)) e 0]) /\
    (forall n : Z,
        0 <= n ->
        plug_calls (trace (snd (handle_sentdata consumer win_strerror n w))) =
        plug_calls (trace w) ++ [plug_sent_call n]).
Proof.
  intros w hs Hheap. split.
  - intros e He. unfold handle_sentdata. unfold bind at 1. unfold deref.
    rewrite Hheap.
    assert (H1 : (- e <? 0) = true) by (apply Z.ltb_lt; lia).
    rewrite H1, Z.opp_involutive. unfold plug_closing.
    destruct (plug_invoke_trace (plug hs)
                (plug_closing_call (Some (win_strerror e)) e 0) w)
      as (evs & Ht & Hp & _).
    rewrite Ht, plug_calls_app. simpl. rewrite Hp. reflexivity.
  - intros n Hn. unfold handle_sentdata. unfold bind at 1. unfold deref.
    rewrite Hheap.
    assert (H1 : (n <? 0) = false) by (apply Z.ltb_ge; lia).
    rewrite H1. unfold plug_sent.
    destruct (plug_invoke_trace (plug hs) (plug_sent_call n) w)
      as (evs & Ht & Hp & _).
    rewrite Ht, plug_calls_app. simpl. rewrite Hp. reflexivity.
Qed.

(** *** The drain callback *)

Lemma chunk_whole (data : list byte) :
  chunk data (Z.of_nat (length data)) = data.
Proof. unfold chunk. rewrite Nat2Z.id. apply firstn_all. Qed.

Lemma prefix_nonempty (ch : bufchain) :
  ch <> [] -> (0 <? Z.of_nat (length (firstn (prefix_len ch) ch))) = true.
Proof.
  intro Hne. apply Z.ltb_lt. pose proof (prefix_len_pos ch Hne) as Hp.
  destruct ch as [| b ch]; [congruence |].
  destruct (prefix_len (b :: ch)); [lia |]. simpl. lia.
Qed.

(** One run of the callback in state THAWING with bytes queued, up to
    the point where [defer_close] is cleared again: the head block is
    handed to the Plug, whose calls back into the Socket are all calm
    (a close among them is only recorded), and the block is consumed. *)
Lemma handle_socket_unfreeze_thawing (w : world) (hs : HandleSocket) :
  heap w = Some hs -> frozen hs = THAWING -> inputdata hs <> [] ->
  let data := firstn (prefix_len (inputdata hs)) (inputdata hs) in
  let c := plug_receive_call 0 data (Z.of_nat (length data)) in
  exists w2 hs2 evs,
    heap w2 = Some hs2 /\
    trace w2 = trace w ++ EvPlug (plug hs) c :: evs ++ [EvPlugReturn] /\
    Forall calm_event evs /\
    vtable_frame (with_defer_close true hs) hs2 /\
    deferred_close hs2 =
      deferred_close hs || existsb is_close_call (consumer (plug hs) c) /\
    (existsb is_freeze_call (consumer (plug hs) c) = false ->
     frozen hs2 = THAWING) /\
    handle_socket_unfreeze consumer prefix_len w =
      (if deferred_close hs2 then sk_handle_close
       else if 0 <? bufchain_size (skipn (length data) (inputdata hs))
            then queue_toplevel_callback
            else store (with_frozen UNFROZEN) ;;
                 handle_unthrottle (recv_h hs) 0)
        (mkWorld
           (Some (with_defer_close false
                    (with_inputdata (skipn (length data) (inputdata hs)) hs2)))
           (trace w2) (toplevel_callbacks w2) (send_backlog w2)
           (next_handle w2)).
Proof.
  intros Hheap Hst Hne data c.
  set (w1 := mkWorld (Some (with_defer_close true hs))
               (trace w ++ [EvPlug (plug hs) c]) (toplevel_callbacks w)
               (send_backlog w) (next_handle w)).
  destruct (reenter_calm (consumer (plug hs) c) w1 (with_defer_close true hs)
              eq_refl (or_introl eq_refl))
    as (w2 & hs2 & evs & Hrun & Hh2 & Ht2 & Hcalm & Hdc & Hf).
  { simpl. rewrite Hst. discriminate. }
  exists (mkWorld (heap w2) (trace w2 ++ [EvPlugReturn]) (toplevel_callbacks w2)
            (send_backlog w2) (next_handle w2)), hs2, evs.
  simpl. split; [exact Hh2 |]. split.
  { rewrite Ht2. subst w1. simpl. rewrite <- !app_assoc. reflexivity. }
  split; [exact Hcalm |]. split; [exact Hf |]. split; [exact Hdc |].
  split.
  { intro Hnf. pose proof (reenter_stays_thawing _ Hnf w1) as Hth.
    unfold heap_rel in Hth. rewrite Hrun in Hth. simpl in Hth.
    rewrite Hh2 in Hth. apply Hth. exact Hst. }
  assert (Hi : inputdata hs2 = inputdata hs) by apply Hf.
  assert (Hr : recv_h hs2 = recv_h hs) by apply Hf.
  pose proof (prefix_nonempty _ Hne) as Hlen. fold data in Hlen.
  unfold handle_socket_unfreeze. rewrite (bind_deref _ _ _ Hheap), Hst.
  change (negb (frozen_eqb THAWING THAWING)) with false. cbv iota.
  unfold bufchain_prefix. cbv zeta. fold data.
  rewrite (bind_assert _ _ _ Hlen), (bind_store _ _ _ _ Hheap).
  unfold plug_receive, plug_invoke. rewrite chunk_whole. fold c.
  rewrite !bind_assoc, bind_emit.
  cbn [heap trace toplevel_callbacks send_backlog next_handle]. fold w1.
  rewrite !bind_assoc, (bind_ok _ _ _ _ _ Hrun), bind_emit.
  rewrite (bind_store _ _ _ hs2) by exact Hh2.
  erewrite bind_store by reflexivity. erewrite bind_deref by reflexivity.
  unfold bufchain_consume. rewrite Nat2Z.id, Hi.
  cbn [recv_h inputdata deferred_close with_defer_close with_inputdata].
  rewrite Hr. reflexivity.
Qed.

(** *** Close requested from inside [receive] *)

(** C4, as the code has it: while [defer_close] is set,
    [sk_handle_close] only sets [deferred_close]: the trace and every
    other field are as before.  [defer_close] is set around the
    [receive] of the drain callback only.  There, a Plug whose [receive]
    asks for the close (any number of times, among any other calls to
    the Socket) gets none of it done before [receive] returns; the
    teardown of lines 126-134 then runs, once ([sfree] is called once),
    and the callback returns without touching the adapter again.  In
    [handle_gotdata], a Plug that ends its [receive] by closing the
    socket gets the teardown at once, inside [receive]; it runs once, and
    [handle_gotdata] returns 0 without touching the adapter after it. *)
Theorem close_from_receive_completes_once :
  forall (w : world) (hs : HandleSocket),
    heap w = Some hs ->
    (defer_close hs = true ->
     sk_handle_close w =
       (Ok tt,
        mkWorld (Some (with_deferred_close true hs)) (trace w)
          (toplevel_callbacks w) (send_backlog w) (next_handle w))) /\
    (frozen hs = THAWING ->
     inputdata hs <> [] ->
     let data := firstn (prefix_len (inputdata hs)) (inputdata hs) in
     let c := plug_receive_call 0 data (Z.of_nat (length data)) in
     existsb is_close_call (consumer (plug hs) c) = true ->
     exists evs w',
       let new :=
         EvPlug (plug hs) c :: evs ++ EvPlugReturn :: close_trace hs in
       handle_socket_unfreeze consumer prefix_len w = (Ok tt, w') /\
       heap w' = None /\
       Forall calm_event evs /\
       trace w' = trace w ++ new /\
       filter is_sfree new = [EvSfree] /\
       teardown_outside_plug false new = true) /\
    (frozen hs = UNFROZEN ->
     inputdata hs = [] ->
     defer_close hs = false ->
     forall (data : list byte) (len : Z) (pre : list sock_call),
       0 < len ->
       let c := plug_receive_call 0 (chunk data len) len in
       consumer (plug hs) c = pre ++ [sk_close_call] ->
       existsb is_close_call pre = false ->
       exists evs w',
         let new :=
           EvPlug (plug hs) c :: evs ++ close_trace hs ++ [EvPlugReturn] in
         handle_gotdata consumer data len w = (Ok 0, w') /\
         heap w' = None /\
         Forall calm_event evs /\
         trace w' = trace w ++ new /\
         filter is_sfree new = [EvSfree] /\
         teardown_outside_plug false new = false).
Proof.
  intros w hs Hheap. split; [| split].
  - intro Hd. apply sk_handle_close_deferred; assumption.
  - intros Hst Hne data c Hclose.
    destruct (handle_socket_unfreeze_thawing w hs Hheap Hst Hne)
      as (w2 & hs2 & evs & Hh2 & Ht2 & Hcalm & Hf & Hdc & Hthaw & Hrun).
    fold data in Ht2, Hdc, Hrun. fold c in Ht2, Hdc, Hrun.
    rewrite Hclose, orb_true_r in Hdc. rewrite Hdc in Hrun.
    erewrite sk_handle_close_now in Hrun by reflexivity.
    cbn [trace toplevel_callbacks send_backlog next_handle] in Hrun.
    assert (Hct : close_trace
                    (with_defer_close false
                       (with_inputdata (skipn (length data) (inputdata hs)) hs2))
                  = close_trace hs).
    { transitivity (close_trace hs2); [reflexivity |].
      rewrite (close_trace_frame _ _ Hf). reflexivity. }
    rewrite Hct in Hrun.
    eexists evs, _. cbv zeta. split; [exact Hrun |].
    cbn [heap trace]. split; [reflexivity |]. split; [exact Hcalm |].
    split; [| split].
    + rewrite Ht2, <- !app_assoc. cbn [app]. rewrite <- !app_assoc. reflexivity.
    + cbn [filter is_sfree]. rewrite filter_app. cbn [filter is_sfree].
      rewrite (calm_not_sfree _ Hcalm), close_trace_sfree. reflexivity.
    + cbn [teardown_outside_plug].
      rewrite (calm_teardown_outside _ true Hcalm).
      cbn [teardown_outside_plug].
      rewrite <- (app_nil_r (close_trace hs)), close_trace_outside.
      reflexivity.
  - intros Hst Hq Hd data len pre Hlen c Hc Hpre.
    rewrite (handle_gotdata_unfrozen w hs data len Hheap Hlen Hst).
    unfold plug_receive, plug_invoke. fold c. rewrite Hc.
    rewrite !bind_assoc, bind_emit, ?bind_assoc.
    set (w1 := mkWorld _ _ _ _ _).
    destruct (reenter_calm pre w1 hs Hheap (or_intror Hpre) (fun _ => Hq))
      as (w2 & hs2 & evs & Hrun & Hh2 & Ht2 & Hcalm & Hdc & Hf).
    assert (Hd2 : defer_close hs2 = false).
    { destruct Hf as (_ & _ & _ & _ & _ & _ & _ & _ & _ & Hx & _). congruence. }
    rewrite bind_reenter_app, (bind_ok _ _ _ _ _ Hrun).
    cbn [reenter sock_exec]. rewrite bind_assoc.
    rewrite (bind_ok _ _ _ _ _ (sk_handle_close_now w2 hs2 Hh2 Hd2)).
    rewrite (close_trace_frame _ _ Hf).
    exists evs. eexists. cbv zeta. split; [reflexivity |].
    cbn [heap trace]. split; [reflexivity |]. split; [exact Hcalm |].
    split; [| split].
    + rewrite Ht2. subst w1. cbn [trace]. rewrite <- !app_assoc. reflexivity.
    + cbn [filter is_sfree]. rewrite !filter_app. cbn [filter is_sfree].
      rewrite (calm_not_sfree _ Hcalm), close_trace_sfree. reflexivity.
    + cbn [teardown_outside_plug].
      rewrite (calm_teardown_outside _ true Hcalm).
      apply close_trace_inside.
Qed.

(** *** The queue invariant *)

Lemma handle_gotdata_invariant (data : list byte) (len : Z) (w : world) :
  world_invariant w ->
  world_invariant (snd (handle_gotdata consumer data len w)).
Proof.
  intro Hinv. unfold handle_gotdata.
  destruct (heap w) as [hs |] eqn:Hheap.
  2:{ unfold bind, deref. rewrite Hheap. exact Hinv. }
  rewrite (bind_deref _ _ _ Hheap).
  assert (Hplug : forall p c (k : unit -> M Z),
             (forall u w1, snd (k u w1) = w1) ->
             world_invariant (snd (bind (plug_invoke consumer p c) k w))).
  { intros p c k Hk. eapply heap_rel_invariant; [| exact Hinv].
    pose proof (plug_invoke_frame p c w) as Hf. unfold bind.
    destruct (plug_invoke consumer p c w) as [[u | |] w1]; simpl in *;
      rewrite ?Hk; exact Hf. }
  destruct (len <? 0); [apply Hplug; reflexivity |].
  destruct (len =? 0); [apply Hplug; reflexivity |].
  destruct (frozen hs) eqn:Hst; simpl.
  - rewrite bind_assert by reflexivity. apply Hplug; reflexivity.
  - rewrite bind_assert by reflexivity.
    rewrite (bind_store _ _ _ _ Hheap). erewrite bind_store by reflexivity.
    unfold ret, world_invariant. simpl. apply queue_invariant_iff. discriminate.
  - unfold bind, assert. simpl. exact Hinv.
  - unfold bind, assert. simpl. exact Hinv.
Qed.

Lemma handle_socket_unfreeze_invariant (w : world) :
  world_invariant w ->
  world_invariant (snd (handle_socket_unfreeze consumer prefix_len w)).
Proof.
  intro Hinv.
  destruct (heap w) as [hs |] eqn:Hheap.
  2:{ unfold handle_socket_unfreeze, bind, deref. rewrite Hheap. exact Hinv. }
  destruct (frozen_eqb (frozen hs) THAWING) eqn:Hst.
  2:{ unfold handle_socket_unfreeze. rewrite (bind_deref _ _ _ Hheap), Hst.
      exact Hinv. }
  apply frozen_eqb_eq in Hst.
  destruct (inputdata hs) as [| b q] eqn:Hq.
  { unfold handle_socket_unfreeze. rewrite (bind_deref _ _ _ Hheap), Hst.
    unfold bufchain_prefix. rewrite Hq. rewrite firstn_nil. simpl.
    unfold bind, assert. simpl. exact Hinv. }
  assert (Hne : inputdata hs <> []) by (rewrite Hq; discriminate).
  destruct (handle_socket_unfreeze_thawing w hs Hheap Hst Hne)
    as (w2 & hs2 & evs & Hh2 & Ht2 & Hcalm & Hf & Hdc & Hthaw & Hrun).
  rewrite Hrun. clear Hrun.
  assert (Hb : buffering (frozen hs2) = true).
  { destruct Hf as (_ & _ & _ & _ & _ & _ & Hb & _). rewrite Hb. simpl.
    rewrite Hst. reflexivity. }
  destruct (deferred_close hs2).
  - erewrite sk_handle_close_now by reflexivity. exact I.
  - destruct (0 <? bufchain_size _) eqn:Hsz.
    + unfold queue_toplevel_callback, world_invariant. simpl.
      apply queue_invariant_iff. simpl. rewrite Hb. discriminate.
    + erewrite bind_store by reflexivity.
      unfold handle_unthrottle, emit, world_invariant. simpl.
      apply queue_invariant_iff. simpl. intros _.
      destruct (skipn _ (inputdata hs)) as [| b' q'] eqn:Hs; [reflexivity |].
      rewrite ?Hs in Hsz. unfold bufchain_size in Hsz. simpl in Hsz. apply Z.ltb_ge in Hsz. lia.
Qed.

(** C6: the invariant "[inputdata] is empty whenever the state is
    UNFROZEN, and non-empty only in FROZEN or THAWING" holds of a socket
    [make_handle_socket] has just made, and if it holds before a call of
    [sk_handle_set_frozen] (any argument, any state), of [handle_gotdata]
    (any length) or of the drain callback [handle_socket_unfreeze], it
    holds in the world the call leaves, whatever the Plug does from
    inside [receive] and [closing]. *)
Theorem queue_invariant_preserved :
  (forall (send_H recv_H stderr_H : HANDLE) (p : Plug) (overlapped : Z)
          (w : world),
      world_invariant
        (snd (make_handle_socket send_H recv_H stderr_H p overlapped w))) /\
  (forall w : world,
      world_invariant w ->
      (forall is_frozen : Z,
          world_invariant (snd (sk_handle_set_frozen is_frozen w))) /\
      (forall (data : list byte) (len : Z),
          world_invariant (snd (handle_gotdata consumer data len w))) /\
      world_invariant (snd (handle_socket_unfreeze consumer prefix_len w))).
Proof.
  split.
  - intros sH rH eH p ov w. unfold make_handle_socket. unfold_prims.
    destruct (negb (eH =? NULL)); simpl;
      unfold world_invariant, queue_invariant; simpl;
      (split; [reflexivity | intro H; exfalso; apply H; reflexivity]).
  - intros w Hinv. split; [| split].
    + intro is_frozen. eapply heap_rel_invariant; [| exact Hinv].
      exact (sock_exec_frame (sk_set_frozen_call is_frozen) w).
    + intros data len. apply handle_gotdata_invariant. exact Hinv.
    + apply handle_socket_unfreeze_invariant. exact Hinv.
Qed.

(** *** Bytes reach the Plug in order *)

Lemma firstn_skipn_prefix (n : nat) (ch : bufchain) :
  firstn n ch ++ skipn (length (firstn n ch)) ch = ch.
Proof.
  revert n. induction ch as [| b ch IH]; intro n.
  - rewrite firstn_nil. reflexivity.
  - destruct n as [| n]; simpl; [reflexivity |]. rewrite IH. reflexivity.
Qed.

Lemma chunk_nonempty (data : list byte) (len : Z) :
  0 < len -> len <= Z.of_nat (length data) -> chunk data len <> [].
Proof.
  intros H1 H2 Hnil. apply (f_equal (@length byte)) in Hnil.
  unfold chunk in Hnil. rewrite length_firstn in Hnil. simpl in Hnil. lia.
Qed.

Lemma handle_socket_unfreeze_idle (w : world) (hs : HandleSocket) :
  heap w = Some hs -> frozen hs <> THAWING ->
  handle_socket_unfreeze consumer prefix_len w = (Ok tt, w).
Proof.
  intros Hheap Hst. unfold handle_socket_unfreeze.
  rewrite (bind_deref _ _ _ Hheap).
  destruct (frozen hs); try reflexivity. congruence.
Qed.

(** *** What the entry points append to the trace *)

Lemma plug_invoke_no_unthrottle (p : Plug) (c : plug_call) :
  emits not_unthrottle (plug_invoke consumer p c).
Proof.
  unfold plug_invoke.
  apply emits_bind; [apply emits_emit; reflexivity | intros _].
  apply emits_bind; [apply reenter_no_unthrottle | intros _].
  apply emits_emit. reflexivity.
Qed.

Ltac entry_emits tac :=
  repeat first
    [ apply plug_invoke_no_unthrottle
    | apply (sock_exec_no_unthrottle sk_close_call)
    | apply emits_ret | apply emits_deref | apply emits_store
    | apply emits_assert
    | apply emits_queue_toplevel_callback; tac
    | apply emits_emit; tac
    | apply emits_bind; [| intro]
    | match goal with
      | |- emits _ (if ?b then _ else _) => destruct b
      | |- emits _ (let '(_, _) := ?x in _) => destruct x
      end ].

Lemma handle_gotdata_no_unthrottle (data : list byte) (len : Z) :
  emits not_unthrottle (handle_gotdata consumer data len).
Proof.
  unfold handle_gotdata, plug_closing, plug_receive.
  entry_emits ltac:(reflexivity).
Qed.

Lemma handle_stderr_no_unthrottle (data : list byte) (len : Z) :
  emits not_unthrottle (handle_stderr log_proxy_stderr data len).
Proof. unfold handle_stderr. entry_emits ltac:(reflexivity). Qed.

Lemma handle_sentdata_no_unthrottle (new_backlog : Z) :
  emits not_unthrottle (handle_sentdata consumer win_strerror new_backlog).
Proof.
  unfold handle_sentdata, plug_closing, plug_sent.
  entry_emits ltac:(reflexivity).
Qed.

(** Every entry point only ever appends to the trace. *)
Lemma step_extends (o : op) (w : world) :
  exists evs,
    trace (snd (step consumer prefix_len win_strerror log_proxy_stderr o w)) =
    trace w ++ evs.
Proof.
  assert (Hnu : forall {A : Type} (m : M A), emits not_unthrottle m ->
                  exists evs, trace (snd (m w)) = trace w ++ evs).
  { intros A m Hm. destruct (Hm w) as (evs & Ht & _). eauto. }
  destruct o as [data len | data len | n | | c]; simpl.
  - apply Hnu. apply emits_bind; [apply handle_gotdata_no_unthrottle |].
    intro. apply emits_ret.
  - apply Hnu. apply emits_bind; [apply handle_stderr_no_unthrottle |].
    intro. apply emits_ret.
  - apply Hnu, handle_sentdata_no_unthrottle.
  - unfold run_toplevel_callback. destruct (toplevel_callbacks w) as [| n].
    + exists []. simpl. rewrite app_nil_r. reflexivity.
    + assert (Hany : emits any_event (handle_socket_unfreeze consumer prefix_len)).
      { unfold handle_socket_unfreeze, plug_receive, handle_unthrottle.
        repeat first
          [ apply (emits_weaken not_unthrottle any_event);
            [intros; exact I |];
            first [ apply plug_invoke_no_unthrottle
                  | apply (sock_exec_no_unthrottle sk_close_call) ]
          | apply emits_ret | apply emits_deref | apply emits_store
          | apply emits_assert
          | apply emits_queue_toplevel_callback; exact I
          | apply emits_emit; exact I
          | apply emits_bind; [| intro]
          | match goal with
            | |- emits _ (if ?b then _ else _) => destruct b
            | |- emits _ (let '(_, _) := ?x in _) => destruct x
            end ]. }
      destruct (Hany (mkWorld (heap w) (trace w) n (send_backlog w)
                        (next_handle w))) as (evs & Ht & _).
      exists evs. exact Ht.
  - apply Hnu, sock_exec_no_unthrottle.
Qed.

(** *** Throttle and unthrottle *)

Lemma unthrottles_app (a b : list event) :
  unthrottles (a ++ b) = (unthrottles a + unthrottles b)%nat.
Proof. unfold unthrottles. rewrite filter_app, length_app. reflexivity. Qed.

Lemma no_unthrottle_count (evs : list event) :
  Forall not_unthrottle evs -> unthrottles evs = O.
Proof.
  unfold unthrottles. induction 1 as [| e evs He _ IH]; simpl; [reflexivity |].
  unfold not_unthrottle in He. rewrite He. exact IH.
Qed.

Lemma emits_no_unthrottle_count {A : Type} (m : M A) (w : world) :
  emits not_unthrottle m ->
  unthrottles (trace (snd (m w))) = unthrottles (trace w).
Proof.
  intro Hm. destruct (Hm w) as (evs & Ht & Hnu).
  rewrite Ht, unthrottles_app, (no_unthrottle_count _ Hnu). lia.
Qed.

(** The drain callback in state THAWING, as in
    [handle_socket_unfreeze_thawing], with the calls the Plug makes from
    inside [receive] known not to unthrottle the receive worker. *)
Lemma handle_socket_unfreeze_thawing_quiet (w : world) (hs : HandleSocket) :
  heap w = Some hs -> frozen hs = THAWING -> inputdata hs <> [] ->
  let data := firstn (prefix_len (inputdata hs)) (inputdata hs) in
  let c := plug_receive_call 0 data (Z.of_nat (length data)) in
  exists w2 hs2 evs,
    heap w2 = Some hs2 /\
    trace w2 = trace w ++ EvPlug (plug hs) c :: evs ++ [EvPlugReturn] /\
    Forall calm_event evs /\ Forall not_unthrottle evs /\
    vtable_frame (with_defer_close true hs) hs2 /\
    deferred_close hs2 =
      deferred_close hs || existsb is_close_call (consumer (plug hs) c) /\
    handle_socket_unfreeze consumer prefix_len w =
      (if deferred_close hs2 then sk_handle_close
       else if 0 <? bufchain_size (skipn (length data) (inputdata hs))
            then queue_toplevel_callback
            else store (with_frozen UNFROZEN) ;;
                 handle_unthrottle (recv_h hs) 0)
        (mkWorld
           (Some (with_defer_close false
                    (with_inputdata (skipn (length data) (inputdata hs)) hs2)))
           (trace w2) (toplevel_callbacks w2) (send_backlog w2)
           (next_handle w2)).
Proof.
  intros Hheap Hst Hne data c.
  set (w1 := mkWorld (Some (with_defer_close true hs))
               (trace w ++ [EvPlug (plug hs) c]) (toplevel_callbacks w)
               (send_backlog w) (next_handle w)).
  destruct (reenter_calm (consumer (plug hs) c) w1 (with_defer_close true hs)
              eq_refl (or_introl eq_refl))
    as (w2 & hs2 & evs & Hrun & Hh2 & Ht2 & Hcalm & Hdc & Hf).
  { simpl. rewrite Hst. discriminate. }
  assert (Hnu : Forall not_unthrottle evs).
  { destruct (reenter_no_unthrottle (consumer (plug hs) c) w1)
      as (evs' & Ht' & Hnu).
    rewrite Hrun in Ht'. simpl in Ht'. rewrite Ht2 in Ht'.
    apply app_inv_head in Ht'. subst evs'. exact Hnu. }
  exists (mkWorld (heap w2) (trace w2 ++ [EvPlugReturn]) (toplevel_callbacks w2)
            (send_backlog w2) (next_handle w2)), hs2, evs.
  simpl. split; [exact Hh2 |]. split.
  { rewrite Ht2. subst w1. simpl. rewrite <- !app_assoc. reflexivity. }
  split; [exact Hcalm |]. split; [exact Hnu |]. split; [exact Hf |].
  split; [exact Hdc |].
  assert (Hi : inputdata hs2 = inputdata hs) by apply Hf.
  assert (Hr : recv_h hs2 = recv_h hs) by apply Hf.
  pose proof (prefix_nonempty _ Hne) as Hlen. fold data in Hlen.
  unfold handle_socket_unfreeze. rewrite (bind_deref _ _ _ Hheap), Hst.
  change (negb (frozen_eqb THAWING THAWING)) with false. cbv iota.
  unfold bufchain_prefix. cbv zeta. fold data.
  rewrite (bind_assert _ _ _ Hlen), (bind_store _ _ _ _ Hheap).
  unfold plug_receive, plug_invoke. rewrite chunk_whole. fold c.
  rewrite !bind_assoc, bind_emit.
  cbn [heap trace toplevel_callbacks send_backlog next_handle]. fold w1.
  rewrite !bind_assoc, (bind_ok _ _ _ _ _ Hrun), bind_emit.
  rewrite (bind_store _ _ _ hs2) by exact Hh2.
  erewrite bind_store by reflexivity. erewrite bind_deref by reflexivity.
  unfold bufchain_consume. rewrite Nat2Z.id, Hi.
  cbn [recv_h inputdata deferred_close with_defer_close with_inputdata].
  rewrite Hr. reflexivity.
Qed.

(** A positive-length read in state FREEZING is buffered. *)
Lemma handle_gotdata_freezing (w : world) (hs : HandleSocket)
    (data : list byte) (len : Z) :
  heap w = Some hs -> 0 < len -> frozen hs = FREEZING ->
  handle_gotdata consumer data len w =
    (Ok INT_MAX,
     mkWorld
       (Some (with_frozen FROZEN
                (with_inputdata (inputdata hs ++ chunk data len) hs)))
       (trace w) (toplevel_callbacks w) (send_backlog w) (next_handle w)).
Proof.
  intros Hheap Hlen Hst. unfold handle_gotdata. unfold_prims. rewrite Hheap.
  assert (H1 : (len <? 0) = false) by (apply Z.ltb_ge; lia).
  assert (H2 : (len =? 0) = false) by (apply Z.eqb_neq; lia).
  rewrite H1, H2, Hst. simpl. rewrite Hheap. simpl. reflexivity.
Qed.

Section NoCloseFromPlug.

(** The Plug never closes the socket from inside one of its methods. *)
Hypothesis consumer_keeps_open :
  forall (p : Plug) (c : plug_call), existsb is_close_call (consumer p c) = false.

Lemma set_frozen_settled (is_frozen : Z) (w : world) (hs : HandleSocket) :
  heap w = Some hs -> settled hs ->
  exists w' hs',
    sk_handle_set_frozen is_frozen w = (Ok tt, w') /\ heap w' = Some hs' /\
    settled hs' /\ inputdata hs' = inputdata hs /\
    received (trace w') = received (trace w) /\
    (drain_queued w -> drain_queued w').
Proof.
  intros Hheap (S1 & S2 & S3 & S4).
  assert (Hqueued : forall w', sk_handle_set_frozen is_frozen w = (Ok tt, w') ->
                               drain_queued w -> drain_queued w').
  { intros w' Hrun' Hdq.
    rewrite (set_frozen_run w hs is_frozen Hheap) in Hrun'.
    - inversion Hrun' as [Hw']. clear Hrun'. intros hs' Hh' Hth.
      simpl in Hh'. inversion Hh' as [Hhs']. rewrite <- Hhs' in Hth.
      simpl in Hth. simpl.
      destruct (negb (is_frozen =? 0)); destruct (frozen hs) eqn:Hst;
        simpl in *; try discriminate; try lia.
      apply (Hdq hs Hheap Hst).
    - intros (Hst & _ & Hne). apply Hne, S3. rewrite Hst. reflexivity. }
  destruct (sock_exec_calm (sk_set_frozen_call is_frozen) w hs Hheap
              (or_intror eq_refl) S3)
    as (w' & hs' & evs & Hrun & Hh' & Ht & Hcalm & Hdc).
  pose proof (sock_exec_frame (sk_set_frozen_call is_frozen) w) as Hf.
  unfold heap_rel in Hf. rewrite Hrun in Hf. simpl in Hf.
  rewrite Hh', Hheap in Hf.
  destruct Hf as (_ & _ & _ & _ & _ & _ & Hb & Hi & _ & Hd & _).
  exists w', hs'. split; [exact Hrun |]. split; [exact Hh' |].
  split; [| split; [exact Hi |]]; [| split; [| exact (Hqueued w' Hrun)]].
  - unfold settled. rewrite Hd, Hdc, Hb, Hi, S2. auto.
  - rewrite Ht, received_app. apply calm_event_quiet in Hcalm.
    destruct Hcalm as [_ Hr]. rewrite Hr, app_nil_r. reflexivity.
Qed.

Lemma gotdata_settled (data : list byte) (len : Z) (w : world)
    (hs : HandleSocket) :
  heap w = Some hs -> settled hs ->
  0 < len -> len <= Z.of_nat (length data) -> throttled w = false ->
  exists v w' hs',
    handle_gotdata consumer data len w = (Ok v, w') /\ heap w' = Some hs' /\
    settled hs' /\ frozen hs' <> THAWING /\
    received (trace w') ++ inputdata hs' =
      received (trace w) ++ inputdata hs ++ chunk data len.
Proof.
  intros Hheap (S1 & S2 & S3 & S4) Hlen Hbuf Hthr.
  unfold throttled in Hthr. rewrite Hheap in Hthr.
  destruct (frozen hs) eqn:Hst; try discriminate.
  - (* UNFROZEN *)
    rewrite (handle_gotdata_unfrozen w hs data len Hheap Hlen Hst).
    unfold plug_receive, plug_invoke.
    set (c := plug_receive_call 0 (chunk data len) len).
    rewrite !bind_assoc, bind_emit, ?bind_assoc.
    set (w1 := mkWorld _ _ _ _ _).
    assert (Hq : inputdata hs = []) by (apply S3; rewrite ?Hst; reflexivity).
    destruct (reenter_calm (consumer (plug hs) c) w1 hs Hheap
                (or_intror (consumer_keeps_open _ _)) (fun _ => Hq))
      as (w2 & hs2 & evs & Hrun & Hh2 & Ht2 & Hcalm & Hdc & Hf).
    rewrite (bind_ok _ _ _ _ _ Hrun), bind_emit.
    destruct Hf as (_ & _ & _ & _ & _ & _ & Hb & Hi & _ & Hd & _).
    eexists 0, _, hs2. split; [reflexivity |]. cbn [heap trace].
    split; [exact Hh2 |]. split.
    + unfold settled.
      rewrite Hd, Hdc, Hb, Hi, S2, consumer_keeps_open, Hst. simpl.
      repeat split; auto; discriminate.
    + split; [intro Hth; rewrite Hth, Hst in Hb; discriminate |].
      rewrite Ht2. subst w1. cbn [trace].
      rewrite Hi, Hq, !received_app. apply calm_event_quiet in Hcalm.
      destruct Hcalm as [_ Hr]. rewrite Hr. simpl.
      rewrite !app_nil_r. reflexivity.
  - (* FREEZING *)
    assert (Hq : inputdata hs = []) by (apply S3; rewrite ?Hst; reflexivity).
    unfold handle_gotdata. rewrite (bind_deref _ _ _ Hheap).
    assert (H1 : (len <? 0) = false) by (apply Z.ltb_ge; lia).
    assert (H2 : (len =? 0) = false) by (apply Z.eqb_neq; lia).
    rewrite H1, H2, Hst. simpl.
    rewrite bind_assert by reflexivity.
    rewrite (bind_store _ _ _ _ Hheap). erewrite bind_store by reflexivity.
    unfold ret. do 3 eexists. split; [reflexivity |]. cbn [heap trace].
    split; [reflexivity |]. split.
    + unfold settled. simpl. unfold bufchain_add. rewrite Hq. simpl.
      repeat split; auto; try discriminate.
      intros _. apply chunk_nonempty; assumption.
    + split; [simpl; discriminate |].
      simpl. unfold bufchain_add. rewrite Hq. reflexivity.
Qed.

(** One run of the drain callback between two top-level events.  In
    state THAWING it hands over a non-empty block; it then either ends
    the thaw, or stays in a buffering state with less in the queue and
    itself queued again. *)
Lemma unfreeze_settled (w : world) (hs : HandleSocket) :
  heap w = Some hs -> settled hs ->
  exists w' hs',
    handle_socket_unfreeze consumer prefix_len w = (Ok tt, w') /\
    heap w' = Some hs' /\ settled hs' /\
    received (trace w') ++ inputdata hs' = received (trace w) ++ inputdata hs /\
    (frozen hs' = THAWING -> frozen hs <> THAWING -> w' = w) /\
    (frozen hs = THAWING ->
     frozen hs' = UNFROZEN \/
     ((length (inputdata hs') < length (inputdata hs))%nat /\
      (1 <= toplevel_callbacks w')%nat /\
      (existsb is_freeze_call
         (consumer (plug hs)
            (plug_receive_call 0
               (firstn (prefix_len (inputdata hs)) (inputdata hs))
               (Z.of_nat
                  (length (firstn (prefix_len (inputdata hs)) (inputdata hs))))))
       = false -> frozen hs' = THAWING))).
Proof.
  intros Hheap Hset. assert (Hset' := Hset). destruct Hset' as (S1 & S2 & S3 & S4).
  destruct (frozen_eqb (frozen hs) THAWING) eqn:Hst.
  2:{ assert (Hne : frozen hs <> THAWING).
      { intro H. apply frozen_eqb_eq in H. congruence. }
      exists w, hs. split; [apply (handle_socket_unfreeze_idle w hs Hheap Hne) |].
      repeat split; auto. intro H. contradiction. }
  apply frozen_eqb_eq in Hst.
  assert (Hne : inputdata hs <> []) by (apply S4; rewrite ?Hst; reflexivity).
  destruct (handle_socket_unfreeze_thawing w hs Hheap Hst Hne)
    as (w2 & hs2 & evs & Hh2 & Ht2 & Hcalm & Hf & Hdc & Hthaw & Hrun).
  rewrite Hrun. clear Hrun.
  rewrite S2, consumer_keeps_open in Hdc. simpl in Hdc. rewrite Hdc.
  destruct Hf as (_ & _ & _ & _ & _ & _ & Hb & Hi & _ & Hd & _).
  simpl in Hb, Hi, Hd. rewrite Hst in Hb. simpl in Hb.
  apply calm_event_quiet in Hcalm. destruct Hcalm as [_ Hr].
  set (data := firstn (prefix_len (inputdata hs)) (inputdata hs)) in *.
  assert (Hrecv : forall q,
             data ++ q = inputdata hs ->
             received (trace w2) ++ q = received (trace w) ++ inputdata hs).
  { intros q Hq. rewrite Ht2, received_app. simpl.
    rewrite received_app, Hr. simpl. rewrite app_nil_r, <- !app_assoc, Hq.
    reflexivity. }
  assert (Hdata : (0 < length data)%nat).
  { pose proof (prefix_nonempty _ Hne) as Hp. apply Z.ltb_lt in Hp.
    fold data in Hp. lia. }
  pose proof (firstn_skipn_prefix (prefix_len (inputdata hs)) (inputdata hs))
    as Hsplit. fold data in Hsplit.
  destruct (0 <? bufchain_size _) eqn:Hsz.
  - unfold queue_toplevel_callback. do 2 eexists. split; [reflexivity |].
    cbn [heap trace toplevel_callbacks]. split; [reflexivity |]. split.
    { unfold settled. simpl. rewrite Hdc, Hb.
      repeat split; auto; try discriminate.
      intros _. apply bufchain_size_pos. exact Hsz. }
    split.
    { rewrite received_app. simpl. rewrite app_nil_r.
      apply Hrecv, Hsplit. }
    split; [intros _ Hno; contradiction |].
    intros _. right. simpl. split; [| split; [lia | exact Hthaw]].
    apply (f_equal (@length byte)) in Hsplit.
    rewrite length_app in Hsplit. lia.
  - erewrite bind_store by reflexivity. unfold handle_unthrottle, emit.
    do 2 eexists. split; [reflexivity |]. cbn [heap trace].
    split; [reflexivity |].
    assert (Hnil : skipn (length data) (inputdata hs) = []).
    { destruct (skipn _ (inputdata hs)) as [| b q] eqn:Hs; [reflexivity |].
      unfold bufchain_size in Hsz. simpl in Hsz. apply Z.ltb_ge in Hsz. lia. }
    split.
    { unfold settled. simpl. rewrite Hdc, Hnil.
      repeat split; auto; discriminate. }
    split.
    { rewrite received_app. simpl. rewrite app_nil_r, Hnil.
      apply Hrecv. rewrite <- Hnil at 1. exact Hsplit. }
    split; [simpl; discriminate |].
    intros _. left. reflexivity.
Qed.

Lemma unfreeze_drain_queued (w : world) (hs : HandleSocket) (n : nat) :
  heap w = Some hs -> settled hs -> toplevel_callbacks w = S n ->
  drain_queued w ->
  drain_queued
    (snd (handle_socket_unfreeze consumer prefix_len
            (mkWorld (heap w) (trace w) n (send_backlog w) (next_handle w)))).
Proof.
  intros Hheap Hset Hn Hdq.
  destruct (unfreeze_settled
              (mkWorld (heap w) (trace w) n (send_backlog w) (next_handle w))
              hs Hheap Hset)
    as (w' & hs' & Hrun & Hh' & _ & _ & Hidle & Hprog).
  rewrite Hrun. simpl. intros hs'' Hh'' Hth.
  rewrite Hh' in Hh''. inversion Hh'' as [Heq]. subst hs''.
  destruct (frozen_eqb (frozen hs) THAWING) eqn:Hst.
  - apply frozen_eqb_eq in Hst. destruct (Hprog Hst) as [Hu | (_ & Hq & _)].
    + congruence.
    + exact Hq.
  - exfalso.
    assert (Hne : frozen hs <> THAWING).
    { intro H. apply frozen_eqb_eq in H. congruence. }
    rewrite (Hidle Hth Hne) in Hh'. simpl in Hh'.
    rewrite Hheap in Hh'. inversion Hh'. congruence.
Qed.

Lemma step_settled (o : op) (w : world) (hs : HandleSocket) :
  heap w = Some hs -> settled hs -> drain_queued w -> flow_op o = true ->
  engine_contract consumer prefix_len win_strerror log_proxy_stderr [o] w = true ->
  exists w' hs',
    step consumer prefix_len win_strerror log_proxy_stderr o w = (Ok tt, w') /\
    heap w' = Some hs' /\ settled hs' /\ drain_queued w' /\
    received (trace w') ++ inputdata hs' =
      received (trace w) ++ inputdata hs ++ delivered [o].
Proof.
  intros Hheap Hset Hdq Hflow Hcontract.
  destruct o as [data len | data len | n | | c]; simpl in Hflow;
    try discriminate.
  - (* OpGotData *)
    apply andb_true_iff in Hflow. destruct Hflow as [Hlen Hbuf].
    simpl in Hcontract. rewrite Hlen in Hcontract. simpl in Hcontract.
    rewrite andb_true_r in Hcontract. apply negb_true_iff in Hcontract.
    apply Z.ltb_lt in Hlen. apply Z.leb_le in Hbuf.
    destruct (gotdata_settled data len w hs Hheap Hset Hlen Hbuf Hcontract)
      as (v & w' & hs' & Hrun & Hh' & Hs' & Hnth & Hr).
    exists w', hs'. simpl. rewrite (bind_ok _ _ _ _ _ Hrun).
    apply Z.ltb_lt in Hlen. rewrite Hlen, app_nil_r.
    split; [reflexivity |]. split; [exact Hh' |]. split; [exact Hs' |].
    split; [| exact Hr].
    intros hs'' Hh'' Hth. rewrite Hh' in Hh''. inversion Hh''. congruence.
  - (* OpCallback *)
    simpl. unfold run_toplevel_callback.
    destruct (toplevel_callbacks w) as [| n] eqn:Hn.
    + exists w, hs. rewrite !app_nil_r. auto 10.
    + pose proof (unfreeze_drain_queued w hs n Hheap Hset Hn Hdq) as Hdq'.
      destruct (unfreeze_settled
                  (mkWorld (heap w) (trace w) n (send_backlog w) (next_handle w))
                  hs Hheap Hset) as (w' & hs' & Hrun & Hh' & Hs' & Hr & _).
      rewrite Hrun in Hdq'. exists w', hs'. rewrite !app_nil_r. auto 10.
  - (* OpSock *)
    destruct c; try discriminate. simpl.
    destruct (set_frozen_settled is_frozen w hs Hheap Hset)
      as (w' & hs' & Hrun & Hh' & Hs' & Hi & Hr & Hq).
    exists w', hs'. rewrite Hr, Hi, !app_nil_r. auto 10.
Qed.

Lemma delivered_app (a b : list op) :
  delivered (a ++ b) = delivered a ++ delivered b.
Proof.
  induction a as [| x a IHa]; simpl; [reflexivity |].
  destruct x; rewrite ?IHa, <- ?app_assoc; reflexivity.
Qed.

Lemma run_settled (os : list op) :
  forall (w : world) (hs : HandleSocket),
    heap w = Some hs -> settled hs -> drain_queued w ->
    forallb flow_op os = true ->
    engine_contract consumer prefix_len win_strerror log_proxy_stderr os w = true ->
    exists w' hs',
      run consumer prefix_len win_strerror log_proxy_stderr os w = (Ok tt, w') /\
      heap w' = Some hs' /\ settled hs' /\ drain_queued w' /\
      received (trace w') ++ inputdata hs' =
        received (trace w) ++ inputdata hs ++ delivered os.
Proof.
  induction os as [| o os IH]; intros w hs Hheap Hset Hdq Hflow Hcontract.
  - exists w, hs. simpl. rewrite !app_nil_r. auto 10.
  - simpl in Hflow. apply andb_true_iff in Hflow. destruct Hflow as [Hf1 Hf2].
    cbn [engine_contract] in Hcontract.
    apply andb_true_iff in Hcontract. destruct Hcontract as [Hc1 Hc2].
    destruct (step_settled o w hs Hheap Hset Hdq Hf1)
      as (w1 & hs1 & Hrun1 & Hh1 & Hs1 & Hq1 & Hr1).
    { cbn [engine_contract]. rewrite Hc1. reflexivity. }
    rewrite Hrun1 in Hc2. cbn [snd] in Hc2.
    destruct (IH w1 hs1 Hh1 Hs1 Hq1 Hf2 Hc2)
      as (w2 & hs2 & Hrun2 & Hh2 & Hs2 & Hq2 & Hr2).
    exists w2, hs2. cbn [run]. rewrite (bind_ok _ _ _ _ _ Hrun1).
    split; [exact Hrun2 |]. split; [exact Hh2 |]. split; [exact Hs2 |].
    split; [exact Hq2 |].
    rewrite Hr2, app_assoc, Hr1, <- !app_assoc. f_equal. f_equal.
    change (o :: os) with ([o] ++ os). rewrite delivered_app. reflexivity.
Qed.

(** With a Plug that does not freeze the socket from inside [receive],
    a thaw that has a callback queued runs to its end: after as many
    callback runs as there are bytes queued (at most), the state is
    UNFROZEN and everything that was queued has been received. *)
Lemma drain_completes (n : nat) :
  (forall (p : Plug) (c : plug_call),
      existsb is_freeze_call (consumer p c) = false) ->
  forall (w : world) (hs : HandleSocket),
    heap w = Some hs -> settled hs -> frozen hs = THAWING ->
    (length (inputdata hs) <= n)%nat -> (1 <= toplevel_callbacks w)%nat ->
    exists k w' hs',
      run consumer prefix_len win_strerror log_proxy_stderr
        (repeat OpCallback k) w = (Ok tt, w') /\
      heap w' = Some hs' /\ frozen hs' = UNFROZEN /\ inputdata hs' = [] /\
      received (trace w') = received (trace w) ++ inputdata hs.
Proof.
  intro Hnofreeze.
  induction n as [| n IH]; intros w hs Hheap Hset Hst Hlen Hpending.
  - exfalso. destruct Hset as (_ & _ & _ & S4).
    apply S4; [rewrite Hst; reflexivity |].
    destruct (inputdata hs); [reflexivity | simpl in Hlen; lia].
  - destruct (toplevel_callbacks w) as [| m] eqn:Hm; [lia |].
    destruct (unfreeze_settled
                (mkWorld (heap w) (trace w) m (send_backlog w) (next_handle w))
                hs Hheap Hset)
      as (w1 & hs1 & Hrun1 & Hh1 & Hs1 & Hr1 & _ & Hprog).
    assert (Hstep : step consumer prefix_len win_strerror log_proxy_stderr
                      OpCallback w = (Ok tt, w1)).
    { simpl. unfold run_toplevel_callback. rewrite Hm. exact Hrun1. }
    simpl in Hr1.
    destruct (Hprog Hst) as [Hu | (Hshorter & Hq1 & Hth1)].
    + exists 1%nat, w1, hs1. cbn [repeat run].
      rewrite (bind_ok _ _ _ _ _ Hstep). unfold ret.
      assert (Hnil : inputdata hs1 = []).
      { destruct Hs1 as (_ & _ & S3 & _). apply S3. rewrite Hu. reflexivity. }
      repeat split; auto. rewrite Hnil, app_nil_r in Hr1. exact Hr1.
    + specialize (Hth1 (Hnofreeze _ _)).
      destruct (IH w1 hs1 Hh1 Hs1 Hth1) as (k & w2 & hs2 & Hrun2 & Hh2 & Hu2 & Hn2 & Hr2);
        [lia | exact Hq1 |].
      exists (S k), w2, hs2. cbn [repeat run].
      rewrite (bind_ok _ _ _ _ _ Hstep).
      repeat split; auto. rewrite Hr2. exact Hr1.
Qed.

(** C1: take a socket [make_handle_socket] has just made and a Plug that
    does not close it, and run any finite sequence of freeze/unfreeze
    requests, positive-length reads and queued drain callbacks in which
    winhandl.c hands over no data while it is throttled (state FROZEN or
    THAWING).  The sequence runs to its end without a failed assertion.
    The bytes passed to the Plug's [receive] so far (straight from
    [handle_gotdata] or by [handle_socket_unfreeze]), followed by those
    still in [inputdata], are the bytes winhandl.c delivered, in order;
    so whenever nothing is left buffered (in particular in state
    UNFROZEN) the Plug has received exactly the delivered bytes, none
    twice, none lost, in the same order.  And what is still buffered does
    arrive: if the Plug does not freeze the socket from inside [receive],
    an unfreeze request and some number of callback runs after the
    sequence end in state UNFROZEN with exactly the delivered bytes
    received. *)
Theorem bytes_reach_plug_in_order :
  forall (send_H recv_H stderr_H : HANDLE) (p : Plug) (overlapped : Z)
         (w0 : world) (os : list op),
    let w1 := snd (make_handle_socket send_H recv_H stderr_H p overlapped w0) in
    forallb flow_op os = true ->
    engine_contract consumer prefix_len win_strerror log_proxy_stderr os w1 = true ->
    (exists w hs,
        run consumer prefix_len win_strerror log_proxy_stderr os w1 = (Ok tt, w) /\
        heap w = Some hs /\
        received (trace w) ++ inputdata hs = received (trace w0) ++ delivered os /\
        (inputdata hs = [] ->
         received (trace w) = received (trace w0) ++ delivered os) /\
        (frozen hs = UNFROZEN -> inputdata hs = [])) /\
    ((forall (p : Plug) (c : plug_call),
         existsb is_freeze_call (consumer p c) = false) ->
     exists k w hs,
       run consumer prefix_len win_strerror log_proxy_stderr (os ++ thaw k) w1
         = (Ok tt, w) /\
       heap w = Some hs /\ frozen hs = UNFROZEN /\ inputdata hs = [] /\
       received (trace w) = received (trace w0) ++ delivered os).
Proof.
  intros sH rH eH p ov w0 os w1 Hflow Hcontract.
  assert (Hmake : exists hs1,
             heap w1 = Some hs1 /\ settled hs1 /\ inputdata hs1 = [] /\
             frozen hs1 = UNFROZEN /\
             received (trace w1) = received (trace w0)).
  { subst w1. unfold make_handle_socket. unfold_prims.
    destruct (negb (eH =? NULL)); simpl; eexists; (split; [reflexivity |]);
      unfold settled; simpl; rewrite !received_app; simpl;
      rewrite !app_nil_r; repeat split; auto; discriminate. }
  destruct Hmake as (hs1 & Hh1 & Hs1 & Hq1 & Hst1 & Hr1).
  assert (Hdq1 : drain_queued w1).
  { intros hs Hh Hth. rewrite Hh1 in Hh. inversion Hh. congruence. }
  destruct (run_settled os w1 hs1 Hh1 Hs1 Hdq1 Hflow Hcontract)
    as (w & hs & Hrun & Hh & Hs & Hdq & Hr).
  rewrite Hr1, Hq1 in Hr. simpl in Hr.
  split.
  - exists w, hs. split; [exact Hrun |]. split; [exact Hh |].
    split; [exact Hr |]. split.
    + intro Hq. rewrite Hq, app_nil_r in Hr. exact Hr.
    + intro Hst. destruct Hs as (_ & _ & S3 & _). apply S3. rewrite Hst. reflexivity.
  - intro Hnofreeze.
    destruct (set_frozen_settled 0 w hs Hh Hs)
      as (w2 & hs2 & Hrun2 & Hh2 & Hs2 & Hi2 & Hr2 & Hq2).
    specialize (Hq2 Hdq).
    assert (Hstate : frozen hs2 = UNFROZEN \/ frozen hs2 = THAWING).
    { assert (Hno : ~ (frozen hs = FREEZING /\ negb (0 =? 0) = false /\
                       inputdata hs <> [])).
      { intros (Hst & _ & Hne). destruct Hs as (_ & _ & S3 & _).
        apply Hne, S3. rewrite Hst. reflexivity. }
      rewrite (set_frozen_run w hs 0 Hh Hno) in Hrun2.
      inversion Hrun2 as [Hw2]. rewrite <- Hw2 in Hh2. simpl in Hh2.
      inversion Hh2. simpl. destruct (frozen hs); simpl; auto. }
    destruct Hstate as [Hu | Hth].
    + exists 0%nat, w2, hs2. unfold thaw. cbn [repeat].
      rewrite run_app, (bind_ok _ _ _ _ _ Hrun). cbn [run sock_exec].
      rewrite (bind_ok _ _ _ _ _ Hrun2). unfold ret.
      assert (Hnil : inputdata hs2 = []).
      { destruct Hs2 as (_ & _ & S3 & _). apply S3. rewrite Hu. reflexivity. }
      repeat split; auto.
      rewrite Hr2. rewrite <- Hi2, Hnil, app_nil_r in Hr. exact Hr.
    + destruct (drain_completes (length (inputdata hs2)) Hnofreeze w2 hs2
                  Hh2 Hs2 Hth (le_n _) (Hq2 hs2 Hh2 Hth))
        as (k & w3 & hs3 & Hrun3 & Hh3 & Hu3 & Hn3 & Hr3).
      exists k, w3, hs3. unfold thaw.
      rewrite run_app, (bind_ok _ _ _ _ _ Hrun). cbn [run sock_exec].
      rewrite (bind_ok _ _ _ _ _ Hrun2).
      repeat split; auto.
      rewrite Hr3, Hr2, Hi2. exact Hr.
Qed.

(** *** The flow of bytes among all other traffic *)

Lemma settled_frame (hs hs' : HandleSocket) :
  vtable_frame hs hs' -> deferred_close hs' = false -> settled hs ->
  settled hs'.
Proof.
  intros (_ & _ & _ & _ & _ & _ & Hb & Hi & _ & Hd & _) Hdc (S1 & S2 & S3 & S4).
  unfold settled. rewrite Hd, Hb, Hi. auto.
Qed.

(** A Plug method entered between two top-level events returns, and
    leaves the socket between two top-level events. *)
Lemma plug_invoke_settled (p : Plug) (c : plug_call) (w : world)
    (hs : HandleSocket) :
  heap w = Some hs -> settled hs ->
  exists w' hs' evs,
    plug_invoke consumer p c w = (Ok tt, w') /\ heap w' = Some hs' /\
    settled hs' /\ vtable_frame hs hs' /\
    trace w' = trace w ++ EvPlug p c :: evs ++ [EvPlugReturn] /\
    Forall calm_event evs.
Proof.
  intros Hheap Hset. assert (Hset' := Hset). destruct Hset' as (S1 & S2 & S3 & S4).
  unfold plug_invoke. rewrite bind_emit.
  set (w1 := mkWorld _ _ _ _ _).
  destruct (reenter_calm (consumer p c) w1 hs Hheap
              (or_intror (consumer_keeps_open _ _)) S3)
    as (w2 & hs2 & evs & Hrun & Hh2 & Ht2 & Hcalm & Hdc & Hf).
  rewrite (bind_ok _ _ _ _ _ Hrun). unfold emit.
  rewrite S2, consumer_keeps_open in Hdc. simpl in Hdc.
  do 2 eexists. exists evs. split; [reflexivity |]. cbn [heap trace].
  split; [exact Hh2 |]. split; [exact (settled_frame _ _ Hf Hdc Hset) |].
  split; [exact Hf |]. split; [| exact Hcalm].
  rewrite Ht2. subst w1. cbn [trace]. rewrite <- !app_assoc. reflexivity.
Qed.

Lemma received_plug_invoke (tr evs : list event) (p : Plug) (c : plug_call) :
  Forall calm_event evs ->
  received (tr ++ EvPlug p c :: evs ++ [EvPlugReturn]) =
  received tr ++ received [EvPlug p c].
Proof.
  intro Hcalm. apply calm_event_quiet in Hcalm. destruct Hcalm as [_ Hr].
  rewrite received_app. f_equal.
  change (EvPlug p c :: evs ++ [EvPlugReturn])
    with ([EvPlug p c] ++ evs ++ [EvPlugReturn]).
  rewrite !received_app, Hr. simpl. rewrite app_nil_r. reflexivity.
Qed.

(** A vtable call other than close, between two top-level events. *)
Lemma sock_exec_settled (c : sock_call) (w : world) (hs : HandleSocket) :
  heap w = Some hs -> settled hs -> is_close_call c = false ->
  exists w' hs',
    sock_exec c w = (Ok tt, w') /\ heap w' = Some hs' /\ settled hs' /\
    vtable_frame hs hs' /\ received (trace w') = received (trace w).
Proof.
  intros Hheap Hset Hc. assert (Hset' := Hset). destruct Hset' as (S1 & S2 & S3 & S4).
  destruct (sock_exec_calm c w hs Hheap (or_intror Hc) S3)
    as (w' & hs' & evs & Hrun & Hh' & Ht & Hcalm & Hdc).
  pose proof (sock_exec_frame c w) as Hf. unfold heap_rel in Hf.
  rewrite Hrun in Hf. simpl in Hf. rewrite Hh', Hheap in Hf.
  rewrite S2, Hc in Hdc. simpl in Hdc.
  exists w', hs'. split; [exact Hrun |]. split; [exact Hh' |].
  split; [exact (settled_frame _ _ Hf Hdc Hset) |]. split; [exact Hf |].
  rewrite Ht, received_app. apply calm_event_quiet in Hcalm.
  destruct Hcalm as [_ Hr]. rewrite Hr, app_nil_r. reflexivity.
Qed.

(** [handle_gotdata] with a length that is not positive: end of file or
    a read error. *)
Lemma gotdata_closing_settled (data : list byte) (len : Z) (w : world)
    (hs : HandleSocket) :
  heap w = Some hs -> settled hs -> len <= 0 ->
  exists w' hs' evs,
    handle_gotdata consumer data len w = (Ok 0, w') /\ heap w' = Some hs' /\
    settled hs' /\ vtable_frame hs hs' /\
    trace w' =
      trace w
      ++ EvPlug (plug hs)
           (plug_closing_call
              (if len <? 0 then Some "Read error from handle"%string else None)
              0 0)
         :: evs ++ [EvPlugReturn] /\
    Forall calm_event evs.
Proof.
  intros Hheap Hset Hlen. unfold handle_gotdata, plug_closing.
  rewrite (bind_deref _ _ _ Hheap).
  destruct (len <? 0) eqn:Hneg.
  - destruct (plug_invoke_settled (plug hs)
                (plug_closing_call (Some "Read error from handle"%string) 0 0)
                w hs Hheap Hset)
      as (w' & hs' & evs & Hrun & Hh' & Hs' & Hf & Ht & Hcalm).
    rewrite (bind_ok _ _ _ _ _ Hrun). exists w', hs', evs. auto 10.
  - assert (Hz : (len =? 0) = true).
    { apply Z.eqb_eq. apply Z.ltb_ge in Hneg. lia. }
    rewrite Hz.
    destruct (plug_invoke_settled (plug hs) (plug_closing_call None 0 0)
                w hs Hheap Hset)
      as (w' & hs' & evs & Hrun & Hh' & Hs' & Hf & Ht & Hcalm).
    rewrite (bind_ok _ _ _ _ _ Hrun). exists w', hs', evs. auto 10.
Qed.

(** [handle_stderr] between two top-level events. *)
Lemma handle_stderr_settled (data : list byte) (len : Z) (w : world)
    (hs : HandleSocket) :
  heap w = Some hs -> settled hs ->
  exists w' hs',
    handle_stderr log_proxy_stderr data len w = (Ok 0, w') /\
    heap w' = Some hs' /\ settled hs' /\ inputdata hs' = inputdata hs /\
    frozen hs' = frozen hs /\ received (trace w') = received (trace w).
Proof.
  intros Hheap Hset. unfold handle_stderr.
  destruct (0 <? len).
  - rewrite bind_assoc, (bind_deref _ _ _ Hheap), bind_assoc, bind_emit.
    rewrite ?bind_assoc. rewrite (bind_store _ _ _ hs) by exact Hheap.
    unfold bind, ret.
    do 2 eexists. split; [reflexivity |]. cbn [heap trace].
    split; [reflexivity |]. split; [exact Hset |]. split; [reflexivity |].
    split; [reflexivity |]. rewrite received_app. simpl. apply app_nil_r.
  - exists w, hs. auto 10.
Qed.

Lemma step_benign (o : op) (w : world) (hs : HandleSocket) :
  heap w = Some hs -> settled hs -> benign_op o = true ->
  engine_contract consumer prefix_len win_strerror log_proxy_stderr [o] w = true ->
  exists w' hs',
    step consumer prefix_len win_strerror log_proxy_stderr o w = (Ok tt, w') /\
    heap w' = Some hs' /\ settled hs' /\
    received (trace w') ++ inputdata hs' =
      received (trace w) ++ inputdata hs ++ delivered [o].
Proof.
  intros Hheap Hset Hben Hcontract.
  destruct o as [data len | data len | n | | c]; simpl in Hben.
  - (* OpGotData *)
    destruct (0 <? len) eqn:Hpos.
    + apply Z.ltb_lt in Hpos.
      assert (Hbuf : len <= Z.of_nat (length data)).
      { apply orb_true_iff in Hben. destruct Hben as [H | H];
          apply Z.leb_le in H; lia. }
      simpl in Hcontract. apply Z.ltb_lt in Hpos. rewrite Hpos in Hcontract.
      simpl in Hcontract. rewrite andb_true_r in Hcontract.
      apply negb_true_iff in Hcontract. apply Z.ltb_lt in Hpos.
      destruct (gotdata_settled data len w hs Hheap Hset Hpos Hbuf Hcontract)
        as (v & w' & hs' & Hrun & Hh' & Hs' & _ & Hr).
      exists w', hs'. simpl. rewrite (bind_ok _ _ _ _ _ Hrun).
      apply Z.ltb_lt in Hpos. rewrite Hpos, app_nil_r. auto 10.
    + apply Z.ltb_ge in Hpos.
      destruct (gotdata_closing_settled data len w hs Hheap Hset Hpos)
        as (w' & hs' & evs & Hrun & Hh' & Hs' & Hf & Ht & Hcalm).
      exists w', hs'. simpl. rewrite (bind_ok _ _ _ _ _ Hrun).
      apply Z.ltb_ge in Hpos. rewrite Hpos. simpl. rewrite app_nil_r.
      split; [reflexivity |]. split; [exact Hh' |]. split; [exact Hs' |].
      rewrite Ht, (received_plug_invoke _ _ _ _ Hcalm). simpl.
      rewrite app_nil_r. f_equal. apply Hf.
  - (* OpStderr *)
    destruct (handle_stderr_settled data len w hs Hheap Hset)
      as (w' & hs' & Hrun & Hh' & Hs' & Hi & _ & Hr).
    exists w', hs'. simpl. rewrite (bind_ok _ _ _ _ _ Hrun).
    rewrite Hr, Hi, app_nil_r. auto 10.
  - (* OpSentData *)
    simpl. unfold handle_sentdata, plug_closing, plug_sent.
    rewrite (bind_deref _ _ _ Hheap).
    destruct (n <? 0).
    + destruct (plug_invoke_settled (plug hs)
                  (plug_closing_call (Some (win_strerror (- n))) (- n) 0)
                  w hs Hheap Hset)
        as (w' & hs' & evs & Hrun & Hh' & Hs' & Hf & Ht & Hcalm).
      exists w', hs'. split; [exact Hrun |]. split; [exact Hh' |].
      split; [exact Hs' |].
      rewrite Ht, (received_plug_invoke _ _ _ _ Hcalm). simpl.
      rewrite !app_nil_r. f_equal. apply Hf.
    + destruct (plug_invoke_settled (plug hs) (plug_sent_call n)
                  w hs Hheap Hset)
        as (w' & hs' & evs & Hrun & Hh' & Hs' & Hf & Ht & Hcalm).
      exists w', hs'. split; [exact Hrun |]. split; [exact Hh' |].
      split; [exact Hs' |].
      rewrite Ht, (received_plug_invoke _ _ _ _ Hcalm). simpl.
      rewrite !app_nil_r. f_equal. apply Hf.
  - (* OpCallback *)
    simpl. unfold run_toplevel_callback.
    destruct (toplevel_callbacks w) as [| n].
    + exists w, hs. rewrite !app_nil_r. auto 10.
    + destruct (unfreeze_settled
                  (mkWorld (heap w) (trace w) n (send_backlog w) (next_handle w))
                  hs Hheap Hset) as (w' & hs' & Hrun & Hh' & Hs' & Hr & _).
      exists w', hs'. rewrite !app_nil_r. auto 10.
  - (* OpSock *)
    apply negb_true_iff in Hben.
    destruct (sock_exec_settled c w hs Hheap Hset Hben)
      as (w' & hs' & Hrun & Hh' & Hs' & Hf & Hr).
    exists w', hs'. simpl. rewrite Hr, !app_nil_r.
    split; [exact Hrun |]. split; [exact Hh' |]. split; [exact Hs' |].
    f_equal. apply Hf.
Qed.

Lemma run_benign (os : list op) :
  forall (w : world) (hs : HandleSocket),
    heap w = Some hs -> settled hs -> forallb benign_op os = true ->
    engine_contract consumer prefix_len win_strerror log_proxy_stderr os w = true ->
    exists w' hs',
      run consumer prefix_len win_strerror log_proxy_stderr os w = (Ok tt, w') /\
      heap w' = Some hs' /\ settled hs' /\
      received (trace w') ++ inputdata hs' =
        received (trace w) ++ inputdata hs ++ delivered os.
Proof.
  induction os as [| o os IH]; intros w hs Hheap Hset Hben Hcontract.
  - exists w, hs. simpl. rewrite !app_nil_r. auto 10.
  - simpl in Hben. apply andb_true_iff in Hben. destruct Hben as [Hb1 Hb2].
    cbn [engine_contract] in Hcontract.
    apply andb_true_iff in Hcontract. destruct Hcontract as [Hc1 Hc2].
    destruct (step_benign o w hs Hheap Hset Hb1)
      as (w1 & hs1 & Hrun1 & Hh1 & Hs1 & Hr1).
    { cbn [engine_contract]. rewrite Hc1. reflexivity. }
    rewrite Hrun1 in Hc2. cbn [snd] in Hc2.
    destruct (IH w1 hs1 Hh1 Hs1 Hb2 Hc2) as (w2 & hs2 & Hrun2 & Hh2 & Hs2 & Hr2).
    exists w2, hs2. cbn [run]. rewrite (bind_ok _ _ _ _ _ Hrun1).
    split; [exact Hrun2 |]. split; [exact Hh2 |]. split; [exact Hs2 |].
    rewrite Hr2, app_assoc, Hr1, <- !app_assoc. f_equal. f_equal.
    change (o :: os) with ([o] ++ os). rewrite delivered_app. reflexivity.
Qed.

Lemma make_handle_socket_settled (sH rH eH : HANDLE) (p : Plug)
    (overlapped : Z) (w0 : world) :
  exists hs,
    heap (snd (make_handle_socket sH rH eH p overlapped w0)) = Some hs /\
    settled hs /\ inputdata hs = [] /\ frozen hs = UNFROZEN /\
    send_H hs = sH /\ recv_H hs = rH /\ stderr_H hs = eH /\ plug hs = p /\
    received (trace (snd (make_handle_socket sH rH eH p overlapped w0))) =
      received (trace w0) /\
    unthrottles (trace (snd (make_handle_socket sH rH eH p overlapped w0))) =
      unthrottles (trace w0).
Proof.
  unfold make_handle_socket, unthrottles. unfold_prims.
  destruct (negb (eH =? NULL)); simpl; eexists; (split; [reflexivity |]);
    unfold settled; simpl; rewrite !received_app, !filter_app; simpl;
    rewrite !app_nil_r; repeat split; auto; discriminate.
Qed.

(** X1: a socket [make_handle_socket] has just made, a Plug that does
    not close it, and any finite sequence of events other than a close
    by the owner: reads, end of file and read errors, stderr data,
    sent-data notifications (write errors among them), queued callbacks,
    and any vtable call but close (write, out-of-band write, write-EOF,
    flush, set-frozen, set-plug, socket-error), with no positive-length
    read while winhandl.c is throttled.  The sequence runs to its end
    without a failed assertion and without touching freed memory, and the
    bytes the Plug received followed by those in [inputdata] are the
    bytes read, in order: no other traffic disturbs the flow. *)
Theorem bytes_in_order_among_other_traffic :
  forall (sH rH eH : HANDLE) (p : Plug) (overlapped : Z) (w0 : world)
         (os : list op),
    let w1 := snd (make_handle_socket sH rH eH p overlapped w0) in
    forallb benign_op os = true ->
    engine_contract consumer prefix_len win_strerror log_proxy_stderr os w1 = true ->
    exists w hs,
      run consumer prefix_len win_strerror log_proxy_stderr os w1 = (Ok tt, w) /\
      heap w = Some hs /\
      received (trace w) ++ inputdata hs = received (trace w0) ++ delivered os /\
      (frozen hs = UNFROZEN \/ frozen hs = FREEZING ->
       received (trace w) = received (trace w0) ++ delivered os).
Proof.
  intros sH rH eH p ov w0 os w1 Hben Hcontract.
  destruct (make_handle_socket_settled sH rH eH p ov w0)
    as (hs1 & Hh1 & Hs1 & Hq1 & _ & _ & _ & _ & _ & Hr1 & _).
  destruct (run_benign os w1 hs1 Hh1 Hs1 Hben Hcontract)
    as (w & hs & Hrun & Hh & Hs & Hr).
  subst w1. rewrite Hr1, Hq1 in Hr. simpl in Hr.
  exists w, hs. split; [exact Hrun |]. split; [exact Hh |].
  split; [exact Hr |].
  intro Hst. destruct Hs as (_ & _ & S3 & _).
  rewrite S3, app_nil_r in Hr; [exact Hr |].
  destruct Hst as [Hst | Hst]; rewrite Hst; reflexivity.
Qed.

(** *** How much is ever buffered *)

Lemma step_benign_bound (o : op) (w : world) (hs : HandleSocket) :
  heap w = Some hs -> settled hs -> benign_op o = true ->
  engine_contract consumer prefix_len win_strerror log_proxy_stderr [o] w = true ->
  exists w' hs',
    step consumer prefix_len win_strerror log_proxy_stderr o w = (Ok tt, w') /\
    heap w' = Some hs' /\ settled hs' /\
    (length (inputdata hs') <=
     Nat.max (length (inputdata hs)) (largest_read [o]))%nat.
Proof.
  intros Hheap Hset Hben Hcontract.
  destruct (step_benign o w hs Hheap Hset Hben Hcontract)
    as (w' & hs' & Hrun & Hh' & Hs' & Hr).
  exists w', hs'. split; [exact Hrun |]. split; [exact Hh' |].
  split; [exact Hs' |].
  destruct (step_extends o w) as (evs & Ht). rewrite Hrun in Ht. simpl in Ht.
  rewrite Ht, received_app, <- app_assoc in Hr. apply app_inv_head in Hr.
  apply (f_equal (@length byte)) in Hr. rewrite !length_app in Hr.
  destruct o as [data len | data len | n | | c]; simpl in Hr; simpl;
    try lia.
  destruct (0 <? len) eqn:Hpos; simpl in Hr; [| lia].
  simpl in Hcontract. rewrite Hpos in Hcontract. simpl in Hcontract.
  rewrite andb_true_r in Hcontract. apply negb_true_iff in Hcontract.
  unfold throttled in Hcontract. rewrite Hheap in Hcontract.
  destruct Hset as (_ & _ & S3 & _).
  assert (Hq : inputdata hs = []).
  { apply S3. destruct (frozen hs); simpl in *; congruence. }
  rewrite Hq in *. simpl in Hr. rewrite length_app in Hr. simpl in Hr. lia.
Qed.

Lemma run_benign_bound (os : list op) :
  forall (w : world) (hs : HandleSocket),
    heap w = Some hs -> settled hs -> forallb benign_op os = true ->
    engine_contract consumer prefix_len win_strerror log_proxy_stderr os w = true ->
    exists w' hs',
      run consumer prefix_len win_strerror log_proxy_stderr os w = (Ok tt, w') /\
      heap w' = Some hs' /\
      (length (inputdata hs') <=
       Nat.max (length (inputdata hs)) (largest_read os))%nat.
Proof.
  induction os as [| o os IH]; intros w hs Hheap Hset Hben Hcontract.
  - exists w, hs. simpl. split; [reflexivity |]. split; [exact Hheap | lia].
  - simpl in Hben. apply andb_true_iff in Hben. destruct Hben as [Hb1 Hb2].
    cbn [engine_contract] in Hcontract.
    apply andb_true_iff in Hcontract. destruct Hcontract as [Hc1 Hc2].
    destruct (step_benign_bound o w hs Hheap Hset Hb1)
      as (w1 & hs1 & Hrun1 & Hh1 & Hs1 & Hl1).
    { cbn [engine_contract]. rewrite Hc1. reflexivity. }
    rewrite Hrun1 in Hc2. cbn [snd] in Hc2.
    destruct (IH w1 hs1 Hh1 Hs1 Hb2 Hc2) as (w2 & hs2 & Hrun2 & Hh2 & Hl2).
    exists w2, hs2. cbn [run]. rewrite (bind_ok _ _ _ _ _ Hrun1).
    split; [exact Hrun2 |]. split; [exact Hh2 |].
    assert (Hmax : largest_read (o :: os) =
                   Nat.max (largest_read [o]) (largest_read os)).
    { destruct o; simpl; lia. }
    rewrite Hmax. lia.
Qed.

(** X2: under the conditions of X1, [inputdata] never holds more bytes
    than the longest single read handed over so far: at most one read
    is ever buffered, whatever the order of freeze requests, unfreeze
    requests, drains and other traffic. *)
Theorem input_buffer_bounded_by_one_read :
  forall (sH rH eH : HANDLE) (p : Plug) (overlapped : Z) (w0 : world)
         (os : list op),
    let w1 := snd (make_handle_socket sH rH eH p overlapped w0) in
    forallb benign_op os = true ->
    engine_contract consumer prefix_len win_strerror log_proxy_stderr os w1 = true ->
    exists w hs,
      run consumer prefix_len win_strerror log_proxy_stderr os w1 = (Ok tt, w) /\
      heap w = Some hs /\
      (length (inputdata hs) <= largest_read os)%nat.
Proof.
  intros sH rH eH p ov w0 os w1 Hben Hcontract.
  destruct (make_handle_socket_settled sH rH eH p ov w0)
    as (hs1 & Hh1 & Hs1 & Hq1 & _).
  destruct (run_benign_bound os w1 hs1 Hh1 Hs1 Hben Hcontract)
    as (w & hs & Hrun & Hh & Hl).
  exists w, hs. split; [exact Hrun |]. split; [exact Hh |].
  rewrite Hq1 in Hl. simpl in Hl. exact Hl.
Qed.

(** *** Every throttle is answered by one unthrottle *)

Lemma bind_ret_inv {A : Type} (m : M A) (w w' : world) :
  bind m (fun _ => ret tt) w = (Ok tt, w') -> exists v, m w = (Ok v, w').
Proof.
  unfold bind, ret. destruct (m w) as [[v | |] w1]; intro H;
    inversion H; subst; eauto.
Qed.

Lemma unfreeze_balance (w w' : world) (hs hs' : HandleSocket) :
  heap w = Some hs -> settled hs ->
  handle_socket_unfreeze consumer prefix_len w = (Ok tt, w') ->
  heap w' = Some hs' ->
  (unthrottles (trace w') + Nat.b2n (buffering (frozen hs')) =
   unthrottles (trace w) + Nat.b2n (buffering (frozen hs)))%nat.
Proof.
  intros Hheap (S1 & S2 & S3 & S4) Hrun Hh'.
  destruct (frozen_eqb (frozen hs) THAWING) eqn:Hst.
  2:{ rewrite (handle_socket_unfreeze_idle w hs Hheap) in Hrun.
      - inversion Hrun. subst w'. rewrite Hheap in Hh'. inversion Hh'.
        reflexivity.
      - intro H. apply frozen_eqb_eq in H. congruence. }
  apply frozen_eqb_eq in Hst.
  assert (Hne : inputdata hs <> []) by (apply S4; rewrite Hst; reflexivity).
  destruct (handle_socket_unfreeze_thawing_quiet w hs Hheap Hst Hne)
    as (w2 & hs2 & evs & Hh2 & Ht2 & Hcalm & Hnu & Hf & Hdc & Heq).
  rewrite Heq in Hrun. clear Heq.
  rewrite S2, consumer_keeps_open in Hdc. simpl in Hdc. rewrite Hdc in Hrun.
  destruct Hf as (_ & _ & _ & _ & _ & _ & Hb & _).
  simpl in Hb. rewrite Hst in Hb. simpl in Hb.
  assert (Hu2 : unthrottles (trace w2) = unthrottles (trace w)).
  { rewrite Ht2, unthrottles_app.
    change (EvPlug (plug hs)
              (plug_receive_call 0
                 (firstn (prefix_len (inputdata hs)) (inputdata hs))
                 (Z.of_nat
                    (length (firstn (prefix_len (inputdata hs)) (inputdata hs)))))
            :: evs ++ [EvPlugReturn])
      with ([EvPlug (plug hs)
               (plug_receive_call 0
                  (firstn (prefix_len (inputdata hs)) (inputdata hs))
                  (Z.of_nat
                     (length (firstn (prefix_len (inputdata hs)) (inputdata hs)))))]
            ++ evs ++ [EvPlugReturn]).
    rewrite !unthrottles_app, (no_unthrottle_count _ Hnu).
    unfold unthrottles. simpl. lia. }
  destruct (0 <? bufchain_size _).
  - unfold queue_toplevel_callback in Hrun. inversion Hrun. subst w'.
    simpl in Hh'. inversion Hh'. subst hs'. simpl.
    rewrite unthrottles_app, Hu2, Hb, Hst. unfold unthrottles. simpl. lia.
  - erewrite bind_store in Hrun by reflexivity.
    unfold handle_unthrottle, emit in Hrun. inversion Hrun. subst w'.
    simpl in Hh'. inversion Hh'. subst hs'. simpl.
    rewrite unthrottles_app, Hu2, Hst. unfold unthrottles. simpl. lia.
Qed.

Lemma step_balance (o : op) (w w' : world) (hs hs' : HandleSocket) :
  heap w = Some hs -> settled hs -> benign_op o = true ->
  engine_contract consumer prefix_len win_strerror log_proxy_stderr [o] w = true ->
  step consumer prefix_len win_strerror log_proxy_stderr o w = (Ok tt, w') ->
  heap w' = Some hs' ->
  (unthrottles (trace w') + Nat.b2n (buffering (frozen hs')) =
   unthrottles (trace w) + Nat.b2n (buffering (frozen hs))
   + throttles consumer prefix_len win_strerror log_proxy_stderr [o] w)%nat.
Proof.
  intros Hheap Hset Hben Hcontract Hrun Hh'.
  assert (Hset' := Hset). destruct Hset' as (S1 & S2 & S3 & S4).
  assert (Hframe : heap_rel vtable_frame w w' ->
                   buffering (frozen hs') = buffering (frozen hs)).
  { unfold heap_rel. rewrite Hh', Hheap. intro Hf. apply Hf. }
  destruct o as [data len | data len | n | | c]; simpl in Hben, Hrun;
    cbn [throttles].
  - (* OpGotData *)
    destruct (bind_ret_inv _ _ _ Hrun) as (v & Hg). rewrite Hg. cbn [fst].
    pose proof (emits_no_unthrottle_count _ w
                  (handle_gotdata_no_unthrottle data len)) as Hu.
    rewrite Hg in Hu. cbn [snd] in Hu. rewrite Hu.
    destruct (0 <? len) eqn:Hpos.
    + apply Z.ltb_lt in Hpos.
      simpl in Hcontract. apply Z.ltb_lt in Hpos. rewrite Hpos in Hcontract.
      simpl in Hcontract. rewrite andb_true_r in Hcontract.
      apply negb_true_iff in Hcontract. apply Z.ltb_lt in Hpos.
      unfold throttled in Hcontract. rewrite Hheap in Hcontract.
      destruct (frozen hs) eqn:Hst; try discriminate.
      * (* UNFROZEN *)
        rewrite (handle_gotdata_unfrozen w hs data len Hheap Hpos Hst) in Hg.
        unfold plug_receive, bind, ret in Hg.
        pose proof (plug_invoke_frame (plug hs)
                      (plug_receive_call 0 (chunk data len) len) w) as Hf.
        destruct (plug_invoke consumer (plug hs)
                    (plug_receive_call 0 (chunk data len) len) w)
          as [[u | |] wx]; inversion Hg; subst.
        simpl in Hf. rewrite (Hframe Hf). simpl. lia.
      * (* FREEZING *)
        rewrite (handle_gotdata_freezing w hs data len Hheap Hpos Hst) in Hg.
        inversion Hg. subst. simpl in Hh'. inversion Hh'. subst hs'.
        simpl. lia.
    + apply Z.ltb_ge in Hpos.
      destruct (gotdata_closing_settled data len w hs Hheap Hset Hpos)
        as (wx & hsx & evs & Hgx & Hhx & _ & Hf & _).
      rewrite Hgx in Hg. inversion Hg. subst.
      rewrite Hh' in Hhx. inversion Hhx. subst hsx.
      destruct Hf as (_ & _ & _ & _ & _ & _ & Hb & _). rewrite Hb.
      simpl. lia.
  - (* OpStderr *)
    destruct (bind_ret_inv _ _ _ Hrun) as (v & Hg).
    pose proof (emits_no_unthrottle_count _ w
                  (handle_stderr_no_unthrottle data len)) as Hu.
    rewrite Hg in Hu. cbn [snd] in Hu. rewrite Hu.
    destruct (handle_stderr_settled data len w hs Hheap Hset)
      as (wx & hsx & Hgx & Hhx & _ & _ & Hfz & _).
    rewrite Hgx in Hg. inversion Hg. subst.
    rewrite Hh' in Hhx. inversion Hhx. subst hsx. rewrite Hfz. lia.
  - (* OpSentData *)
    pose proof (emits_no_unthrottle_count _ w
                  (handle_sentdata_no_unthrottle n)) as Hu.
    rewrite Hrun in Hu. cbn [snd] in Hu. rewrite Hu.
    assert (Hf : heap_rel vtable_frame w w').
    { unfold handle_sentdata, plug_closing, plug_sent in Hrun.
      rewrite (bind_deref _ _ _ Hheap) in Hrun.
      destruct (n <? 0).
      - pose proof (plug_invoke_frame (plug hs)
                      (plug_closing_call (Some (win_strerror (- n))) (- n) 0) w)
          as Hf. rewrite Hrun in Hf. exact Hf.
      - pose proof (plug_invoke_frame (plug hs) (plug_sent_call n) w) as Hf.
        rewrite Hrun in Hf. exact Hf. }
    rewrite (Hframe Hf). lia.
  - (* OpCallback *)
    unfold run_toplevel_callback in Hrun.
    destruct (toplevel_callbacks w) as [| n].
    + inversion Hrun. subst w'. rewrite Hheap in Hh'. inversion Hh'. lia.
    + pose proof (unfreeze_balance
                    (mkWorld (heap w) (trace w) n (send_backlog w) (next_handle w))
                    w' hs hs' Hheap Hset Hrun Hh') as Hb.
      simpl in Hb. lia.
  - (* OpSock *)
    pose proof (emits_no_unthrottle_count _ w (sock_exec_no_unthrottle c)) as Hu.
    rewrite Hrun in Hu. cbn [snd] in Hu. rewrite Hu.
    pose proof (sock_exec_frame c w) as Hf. rewrite Hrun in Hf.
    rewrite (Hframe Hf). lia.
Qed.

Lemma run_balance (os : list op) :
  forall (w : world) (hs : HandleSocket),
    heap w = Some hs -> settled hs -> forallb benign_op os = true ->
    engine_contract consumer prefix_len win_strerror log_proxy_stderr os w = true ->
    exists w' hs',
      run consumer prefix_len win_strerror log_proxy_stderr os w = (Ok tt, w') /\
      heap w' = Some hs' /\
      (unthrottles (trace w') + Nat.b2n (buffering (frozen hs')) =
       unthrottles (trace w) + Nat.b2n (buffering (frozen hs))
       + throttles consumer prefix_len win_strerror log_proxy_stderr os w)%nat.
Proof.
  induction os as [| o os IH]; intros w hs Hheap Hset Hben Hcontract.
  - exists w, hs. simpl. split; [reflexivity |]. split; [exact Hheap | lia].
  - simpl in Hben. apply andb_true_iff in Hben. destruct Hben as [Hb1 Hb2].
    cbn [engine_contract] in Hcontract.
    apply andb_true_iff in Hcontract. destruct Hcontract as [Hc1 Hc2].
    assert (Hc1' : engine_contract consumer prefix_len win_strerror
                     log_proxy_stderr [o] w = true).
    { cbn [engine_contract]. rewrite Hc1. reflexivity. }
    destruct (step_benign o w hs Hheap Hset Hb1 Hc1')
      as (w1 & hs1 & Hrun1 & Hh1 & Hs1 & _).
    pose proof (step_balance o w w1 hs hs1 Hheap Hset Hb1 Hc1' Hrun1 Hh1) as Hbal.
    rewrite Hrun1 in Hc2. cbn [snd] in Hc2.
    destruct (IH w1 hs1 Hh1 Hs1 Hb2 Hc2) as (w2 & hs2 & Hrun2 & Hh2 & Hbal2).
    exists w2, hs2. cbn [run]. rewrite (bind_ok _ _ _ _ _ Hrun1).
    split; [exact Hrun2 |]. split; [exact Hh2 |].
    cbn [throttles] in Hbal |- *. rewrite Hrun1. cbn [snd]. lia.
Qed.

(** X3: under the conditions of X1, the number of times the receive
    worker has been unthrottled, plus one if the socket is buffering
    (state FROZEN or THAWING), is the number of times [handle_gotdata]
    has returned INT_MAX.  So winhandl.c is never unthrottled without
    having been throttled, never twice for one throttle, and once the
    socket is back in state UNFROZEN every throttle has been answered. *)
Theorem unthrottle_answers_each_throttle :
  forall (sH rH eH : HANDLE) (p : Plug) (overlapped : Z) (w0 : world)
         (os : list op),
    let w1 := snd (make_handle_socket sH rH eH p overlapped w0) in
    forallb benign_op os = true ->
    engine_contract consumer prefix_len win_strerror log_proxy_stderr os w1 = true ->
    exists w hs,
      run consumer prefix_len win_strerror log_proxy_stderr os w1 = (Ok tt, w) /\
      heap w = Some hs /\
      (unthrottles (trace w) + Nat.b2n (buffering (frozen hs)) =
       unthrottles (trace w0)
       + throttles consumer prefix_len win_strerror log_proxy_stderr os w1)%nat.
Proof.
  intros sH rH eH p ov w0 os w1 Hben Hcontract.
  destruct (make_handle_socket_settled sH rH eH p ov w0)
    as (hs1 & Hh1 & Hs1 & _ & Hst1 & _ & _ & _ & _ & _ & Hu1).
  destruct (run_balance os w1 hs1 Hh1 Hs1 Hben Hcontract)
    as (w & hs & Hrun & Hh & Hbal).
  exists w, hs. split; [exact Hrun |]. split; [exact Hh |].
  subst w1. rewrite Hu1, Hst1 in Hbal. simpl in Hbal. lia.
Qed.

(** *** Without a close the adapter is never freed *)

Lemma plug_invoke_alive (p : Plug) (c : plug_call) :
  stays_alive (plug_invoke consumer p c).
Proof.
  unfold plug_invoke.
  apply alive_bind; [apply alive_emit; reflexivity | intros _].
  apply alive_bind; [apply reenter_alive, consumer_keeps_open | intros _].
  apply alive_emit. reflexivity.
Qed.

Ltac entry_alive :=
  repeat first
    [ apply plug_invoke_alive
    | apply alive_ret | apply alive_assert | apply alive_emit; reflexivity
    | apply alive_queue_toplevel_callback
    | apply alive_store; intros ? ?; simpl; assumption
    | apply alive_bind_deref; intros ? ?
    | apply alive_bind; [| intro]
    | match goal with
      | H : deferred_close ?h = false
        |- stays_alive (if deferred_close ?h then _ else _) =>
          rewrite H
      | |- stays_alive (if ?b then _ else _) => destruct b
      | |- stays_alive (let '(_, _) := ?x in _) => destruct x
      end ].

Lemma handle_gotdata_alive (data : list byte) (len : Z) :
  stays_alive (handle_gotdata consumer data len).
Proof.
  unfold handle_gotdata, plug_closing, plug_receive. entry_alive.
Qed.

Lemma handle_stderr_alive (data : list byte) (len : Z) :
  stays_alive (handle_stderr log_proxy_stderr data len).
Proof. unfold handle_stderr. entry_alive. Qed.

Lemma handle_sentdata_alive (new_backlog : Z) :
  stays_alive (handle_sentdata consumer win_strerror new_backlog).
Proof.
  unfold handle_sentdata, plug_closing, plug_sent. entry_alive.
Qed.

Lemma handle_socket_unfreeze_alive :
  stays_alive (handle_socket_unfreeze consumer prefix_len).
Proof.
  unfold handle_socket_unfreeze, plug_receive, handle_unthrottle.
  entry_alive.
Qed.

Lemma step_alive (o : op) :
  close_free_op o = true ->
  stays_alive (step consumer prefix_len win_strerror log_proxy_stderr o).
Proof.
  intro Hfree. destruct o as [data len | data len | n | | c]; simpl.
  - apply alive_bind; [apply handle_gotdata_alive | intro; apply alive_ret].
  - apply alive_bind; [apply handle_stderr_alive | intro; apply alive_ret].
  - apply handle_sentdata_alive.
  - intros w hs Hh Hd. unfold run_toplevel_callback.
    destruct (toplevel_callbacks w) as [| n].
    + exists hs. simpl. repeat split; auto. discriminate.
    + exact (handle_socket_unfreeze_alive
               (mkWorld (heap w) (trace w) n (send_backlog w) (next_handle w))
               hs Hh Hd).
  - simpl in Hfree. apply negb_true_iff in Hfree.
    apply sock_exec_alive, Hfree.
Qed.

Lemma run_alive (os : list op) :
  forallb close_free_op os = true ->
  stays_alive (run consumer prefix_len win_strerror log_proxy_stderr os).
Proof.
  induction os as [| o os IH]; simpl; intro Hfree.
  - apply alive_ret.
  - apply andb_true_iff in Hfree. destruct Hfree as [Hf1 Hf2].
    apply alive_bind; [apply step_alive, Hf1 | intros _; apply IH, Hf2].
Qed.

(** X5: the adapter is freed by [sk_handle_close] only.  After
    [make_handle_socket], if neither the owner nor the Plug ever calls
    close, then whatever else happens (in any order, the Engine contract
    respected or not) the adapter is still allocated at the end, [sfree]
    has not been called, and no entry point has touched freed memory:
    the sequence either runs to its end or stops at a failed assertion. *)
Theorem never_freed_without_close :
  forall (sH rH eH : HANDLE) (p : Plug) (overlapped : Z) (w0 : world)
         (os : list op),
    let w1 := snd (make_handle_socket sH rH eH p overlapped w0) in
    let r := run consumer prefix_len win_strerror log_proxy_stderr os w1 in
    forallb close_free_op os = true ->
    heap (snd r) <> None /\ fst r <> UseAfterFree /\
    filter is_sfree (trace (snd r)) = filter is_sfree (trace w0).
Proof.
  intros sH rH eH p ov w0 os w1 r Hfree.
  destruct (make_handle_socket_settled sH rH eH p ov w0)
    as (hs1 & Hh1 & (_ & Hd1 & _) & _).
  destruct (run_alive os Hfree w1 hs1 Hh1 Hd1) as (hs & Hh & _ & Hok & Ht).
  fold r in Hh, Hok, Ht. split; [congruence |]. split; [exact Hok |].
  rewrite Ht. subst w1. unfold make_handle_socket. unfold_prims.
  destruct (negb (eH =? NULL)); simpl; rewrite !filter_app; simpl;
    rewrite !app_nil_r; reflexivity.
Qed.



(** X11: one run of the drain callback in state THAWING, for any Plug
    that does not close the socket from inside [receive].  The head block
    of [inputdata] is passed on and consumed.  If bytes remain, the
    callback queues itself again and the socket stays in a buffering
    state.  If none remain, the socket is left UNFROZEN and the receive
    worker is unthrottled, whatever the Plug asked for from inside
    [receive]: a freeze requested there is overwritten by line 208. *)
Theorem drain_step_outcome :
  forall (w : world) (hs : HandleSocket),
    heap w = Some hs -> frozen hs = THAWING -> inputdata hs <> [] ->
    deferred_close hs = false ->
    let data := firstn (prefix_len (inputdata hs)) (inputdata hs) in
    let rest := skipn (length data) (inputdata hs) in
    exists w' hs' evs,
      handle_socket_unfreeze consumer prefix_len w = (Ok tt, w') /\
      heap w' = Some hs' /\
      inputdata hs' = rest /\
      received (trace w') = received (trace w) ++ data /\
      defer_close hs' = false /\
      Forall not_unthrottle evs /\
      (rest = [] ->
       frozen hs' = UNFROZEN /\
       trace w' = trace w ++ evs ++ [EvHandleUnthrottle (recv_h hs) 0]) /\
      (rest <> [] ->
       buffering (frozen hs') = true /\
       trace w' = trace w ++ evs ++ [EvQueueToplevelCallback]).
Proof.
  intros w hs Hheap Hst Hne Hdc0 data rest.
  destruct (handle_socket_unfreeze_thawing_quiet w hs Hheap Hst Hne)
    as (w2 & hs2 & evs & Hh2 & Ht2 & Hcalm & Hnu & Hf & Hdc & Heq).
  fold data in Ht2, Hdc, Heq. fold rest in Heq.
  rewrite Hdc0, consumer_keeps_open in Hdc. simpl in Hdc.
  rewrite Hdc in Heq.
  set (c := plug_receive_call 0 data (Z.of_nat (length data))) in *.
  assert (Hrecv : received (trace w2) = received (trace w) ++ data).
  { rewrite Ht2.
    change (EvPlug (plug hs) c :: evs ++ [EvPlugReturn])
      with ([EvPlug (plug hs) c] ++ evs ++ [EvPlugReturn]).
    rewrite !received_app. destruct (calm_event_quiet _ Hcalm) as (_ & Hq).
    rewrite Hq. simpl. rewrite !app_nil_r. reflexivity. }
  assert (Hnu' : Forall not_unthrottle
                   (EvPlug (plug hs) c :: evs ++ [EvPlugReturn])).
  { constructor; [reflexivity |]. apply Forall_app. split; [exact Hnu |].
    constructor; [reflexivity | constructor]. }
  destruct Hf as (_ & _ & _ & _ & Hrh & _ & Hb & _).
  simpl in Hb. rewrite Hst in Hb. simpl in Hb.
  destruct (0 <? bufchain_size rest) eqn:Hsz.
  - assert (Hrest : rest <> []).
    { intro H. rewrite H in Hsz. discriminate Hsz. }
    exists (snd (queue_toplevel_callback
                   (mkWorld
                      (Some (with_defer_close false (with_inputdata rest hs2)))
                      (trace w2) (toplevel_callbacks w2) (send_backlog w2)
                      (next_handle w2)))),
           (with_defer_close false (with_inputdata rest hs2)),
           (EvPlug (plug hs) c :: evs ++ [EvPlugReturn]).
    rewrite Heq. unfold queue_toplevel_callback. simpl.
    split; [reflexivity |]. split; [reflexivity |]. split; [reflexivity |].
    split; [rewrite received_app, Hrecv; simpl; apply app_nil_r |].
    split; [reflexivity |]. split; [exact Hnu' |]. split.
    + intro H. contradiction.
    + intros _. split; [exact Hb |]. rewrite Ht2.
      rewrite <- app_assoc. reflexivity.
  - assert (Hrest : rest = []).
    { apply Z.ltb_ge in Hsz. unfold bufchain_size in Hsz.
      destruct rest; [reflexivity | simpl in Hsz; lia]. }
    erewrite bind_store in Heq by reflexivity.
    unfold handle_unthrottle, emit in Heq.
    cbn [heap trace toplevel_callbacks send_backlog next_handle] in Heq.
    eexists _, _, (EvPlug (plug hs) c :: evs ++ [EvPlugReturn]).
    split; [exact Heq |]. simpl.
    split; [reflexivity |]. split; [reflexivity |].
    split; [rewrite received_app, Hrecv; simpl; apply app_nil_r |].
    split; [reflexivity |]. split; [exact Hnu' |]. split.
    + intros _. split; [reflexivity |]. rewrite Ht2.
      rewrite <- app_assoc. reflexivity.
    + intro H. contradiction.
Qed.


(** *** Writes *)

Lemma engine_writes_app (a b : list event) :
  engine_writes (a ++ b) = engine_writes a ++ engine_writes b.
Proof.
  induction a as [| e a IH]; simpl; [reflexivity |].
  destruct e; simpl; rewrite IH; reflexivity.
Qed.

Lemma sock_exec_writes (c : sock_call) (w : world) (hs : HandleSocket) :
  heap w = Some hs ->
  engine_writes (trace (snd (sock_exec c w))) =
    engine_writes (trace w) ++ map (pair (send_h hs)) (written [c]) /\
  send_backlog (snd (sock_exec c w)) =
    send_backlog w + Z.of_nat (length (concat (written [c]))).
Proof.
  intro Hheap.
  destruct c as [p | | data len | data len | | | is_frozen |];
    unfold sock_exec, sk_handle_plug, sk_handle_close, sk_handle_write_oob,
      sk_handle_write, sk_handle_write_eof, sk_handle_flush,
      sk_handle_set_frozen, sk_handle_socket_error;
    unfold_prims; rewrite ?Hheap;
    repeat match goal with
           | |- context [if ?b then _ else _] => destruct b
           | |- context [match frozen ?h with _ => _ end] => destruct (frozen h)
           end;
    cbn [fst snd heap trace send_backlog written map concat length app];
    rewrite ?Hheap;
    cbn [fst snd heap trace send_backlog written map concat length app];
    rewrite ?engine_writes_app, ?app_nil_r, ?Z.add_0_r;
    cbn [engine_writes app]; rewrite ?app_nil_r; auto.
Qed.

(** X10: on a socket at rest, any list of vtable calls without a close
    runs to its end, and the bytes of its write and out-of-band write
    calls reach [handle_write] on the send worker once each, in call
    order and unchanged; out-of-band data travels in band.  The backlog
    the Engine reports grows by their total length, and no other vtable
    call writes. *)
Theorem writes_reach_send_worker_in_order :
  forall (cs : list sock_call) (w : world) (hs : HandleSocket),
    heap w = Some hs -> settled hs ->
    existsb is_close_call cs = false ->
    exists w',
      reenter cs w = (Ok tt, w') /\
      engine_writes (trace w') =
        engine_writes (trace w) ++ map (pair (send_h hs)) (written cs) /\
      send_backlog w' =
        send_backlog w + Z.of_nat (length (concat (written cs))).
Proof.
  induction cs as [| c cs IH]; intros w hs Hheap Hset Hcs.
  - exists w. simpl. rewrite app_nil_r, Z.add_0_r. auto.
  - simpl in Hcs. apply orb_false_iff in Hcs. destruct Hcs as [Hc Hcs].
    destruct (sock_exec_settled c w hs Hheap Hset Hc)
      as (w1 & hs1 & Hrun & Hh1 & Hs1 & Hf & _).
    destruct (sock_exec_writes c w hs Hheap) as [Hw Hb].
    rewrite Hrun in Hw, Hb. simpl fst in *. simpl snd in *.
    destruct (IH w1 hs1 Hh1 Hs1 Hcs) as (w' & Hrun' & Hw' & Hb').
    assert (Hsh : send_h hs1 = send_h hs) by apply Hf.
    exists w'. split; [| split].
    + change (reenter (c :: cs)) with (bind (sock_exec c) (fun _ => reenter cs)).
      rewrite (bind_ok _ _ _ _ _ Hrun). exact Hrun'.
    + rewrite Hw', Hw, Hsh, <- app_assoc, <- map_app. f_equal. f_equal.
      destruct c; reflexivity.
    + rewrite Hb', Hb.
      assert (Hlen : length (concat (written (c :: cs))) =
                     (length (concat (written [c]))
                      + length (concat (written cs)))%nat).
      { destruct c; simpl; rewrite ?app_nil_r, ?length_app; reflexivity. }
      rewrite Hlen. lia.
Qed.


End NoCloseFromPlug.

(** *** What no entry point ever changes *)

Ltac adapter_frames :=
  repeat first
    [ apply frames_ret; exact adapter_frame_refl
    | apply frames_deref; exact adapter_frame_refl
    | apply frames_assert; exact adapter_frame_refl
    | apply frames_emit; exact adapter_frame_refl
    | apply frames_queue_toplevel_callback; exact adapter_frame_refl
    | apply frames_store; intro; unfold adapter_frame; simpl; repeat split; auto
    | apply (frames_weaken vtable_frame); [exact vtable_adapter_frame |];
      first [ apply plug_invoke_frame | apply (sock_exec_frame sk_close_call)
            | apply sock_exec_frame ]
    | apply frames_bind; [exact adapter_frame_trans | | intro]
    | match goal with
      | |- frames _ (if ?b then _ else _) => destruct b
      | |- frames _ (let '(_, _) := ?x in _) => destruct x
      end ].

Lemma handle_gotdata_frame (data : list byte) (len : Z) :
  frames adapter_frame (handle_gotdata consumer data len).
Proof.
  unfold handle_gotdata, plug_closing, plug_receive. adapter_frames.
Qed.

Lemma handle_stderr_frame (data : list byte) (len : Z) :
  frames adapter_frame (handle_stderr log_proxy_stderr data len).
Proof. unfold handle_stderr. adapter_frames. Qed.

Lemma handle_sentdata_frame (new_backlog : Z) :
  frames adapter_frame (handle_sentdata consumer win_strerror new_backlog).
Proof.
  unfold handle_sentdata, plug_closing, plug_sent. adapter_frames.
Qed.

Lemma handle_socket_unfreeze_frame :
  frames adapter_frame (handle_socket_unfreeze consumer prefix_len).
Proof.
  unfold handle_socket_unfreeze, plug_receive, handle_unthrottle.
  adapter_frames.
Qed.

Lemma step_frame (o : op) :
  frames adapter_frame (step consumer prefix_len win_strerror log_proxy_stderr o).
Proof.
  destruct o as [data len | data len | n | | c]; simpl.
  - apply frames_bind; [exact adapter_frame_trans | apply handle_gotdata_frame |].
    intro. apply frames_ret. exact adapter_frame_refl.
  - apply frames_bind; [exact adapter_frame_trans | apply handle_stderr_frame |].
    intro. apply frames_ret. exact adapter_frame_refl.
  - apply handle_sentdata_frame.
  - intro w. unfold run_toplevel_callback.
    destruct (toplevel_callbacks w) as [| n].
    + apply heap_rel_refl. exact adapter_frame_refl.
    + exact (handle_socket_unfreeze_frame
               (mkWorld (heap w) (trace w) n (send_backlog w) (next_handle w))).
  - apply (frames_weaken vtable_frame); [exact vtable_adapter_frame |].
    apply sock_exec_frame.
Qed.

Lemma run_frame (os : list op) :
  frames adapter_frame (run consumer prefix_len win_strerror log_proxy_stderr os).
Proof.
  induction os as [| o os IH]; simpl.
  - apply frames_ret. exact adapter_frame_refl.
  - apply frames_bind; [exact adapter_frame_trans | apply step_frame |].
    intros _. exact IH.
Qed.

(** What [make_handle_socket] sets up. *)
Lemma make_handle_socket_heap (send_H recv_H stderr_H : HANDLE) (p : Plug)
    (overlapped : Z) (w0 : world) :
  exists hs,
    heap (snd (make_handle_socket send_H recv_H stderr_H p overlapped w0)) = Some hs /\
    error hs = None /\ plug hs = p /\ frozen hs = UNFROZEN /\ inputdata hs = [].
Proof.
  unfold make_handle_socket. unfold_prims.
  destruct (negb (stderr_H =? NULL)); simpl; eexists; repeat split.
Qed.

(** C8, as the code has it: the [error] field is set to NULL by
    [make_handle_socket] and no entry point of the module writes it, so
    after any sequence of events (reads, read failures and write failures
    among them) [sk_handle_socket_error] returns NULL on a socket that
    has not been freed. *)
Theorem socket_error_always_null :
  forall (send_H recv_H stderr_H : HANDLE) (p : Plug) (overlapped : Z)
         (w0 : world) (os : list op) (hs : HandleSocket),
    let w1 := snd (make_handle_socket send_H recv_H stderr_H p overlapped w0) in
    let w := snd (run consumer prefix_len win_strerror log_proxy_stderr os w1) in
    heap w = Some hs ->
    sk_handle_socket_error w = (Ok None, w).
Proof.
  intros sH rH eH p ov w0 os hs w1 w Hheap.
  destruct (make_handle_socket_heap sH rH eH p ov w0)
    as (hs1 & Hh1 & He1 & _).
  pose proof (run_frame os w1) as Hf. unfold heap_rel in Hf.
  fold w in Hf. rewrite Hheap in Hf. subst w1. rewrite Hh1 in Hf.
  destruct Hf as (_ & _ & _ & _ & _ & _ & He & _).
  unfold sk_handle_socket_error. rewrite (bind_deref _ _ _ Hheap).
  unfold ret. rewrite He, He1. reflexivity.
Qed.

(** C10: [sk_handle_plug] returns the Plug that was registered when it
    was called; called with NULL it changes nothing, called with another
    pointer it registers that one and changes nothing else.  So a socket
    made with a non-NULL Plug has a non-NULL Plug after any sequence of
    events, for as long as it is allocated. *)
Theorem set_plug_returns_previous_never_null :
  (forall (w : world) (hs : HandleSocket) (p : Plug),
      heap w = Some hs ->
      (p = NULL -> sk_handle_plug p w = (Ok (plug hs), w)) /\
      (p <> NULL ->
       sk_handle_plug p w =
         (Ok (plug hs),
          mkWorld (Some (with_plug p hs)) (trace w) (toplevel_callbacks w)
            (send_backlog w) (next_handle w)))) /\
  (forall (send_H recv_H stderr_H : HANDLE) (p : Plug) (overlapped : Z)
          (w0 : world) (os : list op) (hs : HandleSocket),
      p <> NULL ->
      let w1 := snd (make_handle_socket send_H recv_H stderr_H p overlapped w0) in
      let w := snd (run consumer prefix_len win_strerror log_proxy_stderr os w1) in
      heap w = Some hs ->
      plug hs <> NULL).
Proof.
  split.
  - intros w hs p Hheap. unfold sk_handle_plug. rewrite (bind_deref _ _ _ Hheap).
    split; intro Hp.
    + subst p. reflexivity.
    + apply Z.eqb_neq in Hp. rewrite Hp. simpl.
      rewrite (bind_store _ _ _ _ Hheap). reflexivity.
  - intros sH rH eH p ov w0 os hs Hp w1 w Hheap.
    destruct (make_handle_socket_heap sH rH eH p ov w0)
      as (hs1 & Hh1 & _ & Hp1 & _).
    pose proof (run_frame os w1) as Hf. unfold heap_rel in Hf.
    fold w in Hf. rewrite Hheap in Hf. subst w1. rewrite Hh1 in Hf.
    destruct Hf as (_ & _ & _ & _ & _ & _ & _ & Hnn).
    apply Hnn. rewrite Hp1. exact Hp.
Qed.

(** *** Every outward call names the socket's own workers *)

Lemma plug_invoke_addressed (ref : HandleSocket) (p : Plug) (c : plug_call) :
  emits_addressed ref (plug_invoke consumer p c).
Proof.
  unfold plug_invoke.
  apply addressed_bind;
    [apply addressed_emit; exact I
    | apply frames_emit; exact adapter_frame_refl | intros _].
  apply addressed_bind;
    [apply reenter_addressed
    | apply (frames_weaken vtable_frame);
      [exact vtable_adapter_frame | apply reenter_frame]
    | intros _].
  apply addressed_emit. exact I.
Qed.

Lemma plug_invoke_adapter_frame (p : Plug) (c : plug_call) :
  frames adapter_frame (plug_invoke consumer p c).
Proof.
  apply (frames_weaken vtable_frame); [exact vtable_adapter_frame |].
  apply plug_invoke_frame.
Qed.

Lemma sk_handle_close_adapter_frame : frames adapter_frame sk_handle_close.
Proof.
  apply (frames_weaken vtable_frame); [exact vtable_adapter_frame |].
  exact (sock_exec_frame sk_close_call).
Qed.

Ltac entry_addressed :=
  repeat first
    [ apply plug_invoke_addressed
    | apply (sock_exec_addressed _ sk_close_call)
    | apply addressed_ret | apply addressed_assert | apply addressed_store
    | apply addressed_queue_toplevel_callback
    | apply addressed_emit; addressed_side
    | apply addressed_bind_deref; intros ? ?
    | apply addressed_bind;
      [ | first [ apply plug_invoke_adapter_frame
                | apply sk_handle_close_adapter_frame
                | addressed_frames ]
        | intro ]
    | match goal with
      | |- emits_addressed _ (if ?b then _ else _) => destruct b
      | |- emits_addressed _ (let '(_, _) := ?x in _) => destruct x
      end ].

Lemma handle_gotdata_addressed (ref : HandleSocket) (data : list byte)
    (len : Z) :
  emits_addressed ref (handle_gotdata consumer data len).
Proof.
  unfold handle_gotdata, plug_closing, plug_receive. entry_addressed.
Qed.

Lemma handle_stderr_addressed (ref : HandleSocket) (data : list byte)
    (len : Z) :
  emits_addressed ref (handle_stderr log_proxy_stderr data len).
Proof. unfold handle_stderr. entry_addressed. Qed.

Lemma handle_sentdata_addressed (ref : HandleSocket) (new_backlog : Z) :
  emits_addressed ref (handle_sentdata consumer win_strerror new_backlog).
Proof.
  unfold handle_sentdata, plug_closing, plug_sent. entry_addressed.
Qed.

Lemma handle_socket_unfreeze_addressed (ref : HandleSocket) :
  emits_addressed ref (handle_socket_unfreeze consumer prefix_len).
Proof.
  unfold handle_socket_unfreeze, plug_receive, handle_unthrottle.
  entry_addressed.
Qed.

Lemma step_addressed (ref : HandleSocket) (o : op) :
  emits_addressed ref
    (step consumer prefix_len win_strerror log_proxy_stderr o).
Proof.
  destruct o as [data len | data len | n | | c]; simpl.
  - apply addressed_bind;
      [apply handle_gotdata_addressed | apply handle_gotdata_frame |].
    intro. apply addressed_ret.
  - apply addressed_bind;
      [apply handle_stderr_addressed | apply handle_stderr_frame |].
    intro. apply addressed_ret.
  - apply handle_sentdata_addressed.
  - intros w Hpre. unfold run_toplevel_callback.
    destruct (toplevel_callbacks w) as [| n].
    + exists []. simpl. rewrite app_nil_r. auto.
    + exact (handle_socket_unfreeze_addressed ref
               (mkWorld (heap w) (trace w) n (send_backlog w) (next_handle w))
               Hpre).
  - apply sock_exec_addressed.
Qed.

Lemma run_addressed (ref : HandleSocket) (os : list op) :
  emits_addressed ref
    (run consumer prefix_len win_strerror log_proxy_stderr os).
Proof.
  induction os as [| o os IH]; simpl.
  - apply addressed_ret.
  - apply addressed_bind; [apply step_addressed | apply step_frame |].
    intros _. exact IH.
Qed.

(** X4: whatever events follow [make_handle_socket] and whatever the
    Plug does, every call the module makes on a worker or a Windows
    handle names one the socket was made with: [handle_write] and
    [handle_write_eof] go to the send worker, [handle_unthrottle] to the
    receive worker with backlog 0, [handle_free] to the send or the
    receive worker, [CloseHandle] to [send_H] or [recv_H], and no worker
    is registered after creation.  So a stderr handle different from
    both is never closed, and its worker is never released. *)
Theorem outward_calls_name_own_workers :
  forall (sH rH eH : HANDLE) (p : Plug) (overlapped : Z) (w0 : world)
         (os : list op),
    let w1 := snd (make_handle_socket sH rH eH p overlapped w0) in
    exists hs1 evs,
      heap w1 = Some hs1 /\
      send_H hs1 = sH /\ recv_H hs1 = rH /\ stderr_H hs1 = eH /\
      trace (snd (run consumer prefix_len win_strerror log_proxy_stderr os w1)) =
        trace w1 ++ evs /\
      Forall (addressed hs1) evs /\
      (eH <> sH -> eH <> rH -> ~ In (EvCloseHandle eH) evs) /\
      (stderr_h hs1 <> send_h hs1 -> stderr_h hs1 <> recv_h hs1 ->
       ~ In (EvHandleFree (stderr_h hs1)) evs).
Proof.
  intros sH rH eH p ov w0 os w1.
  assert (Hmake : exists hs1,
             heap w1 = Some hs1 /\ send_H hs1 = sH /\ recv_H hs1 = rH /\
             stderr_H hs1 = eH).
  { subst w1. unfold make_handle_socket. unfold_prims.
    destruct (negb (eH =? NULL)); simpl; eexists; repeat split. }
  destruct Hmake as (hs1 & Hh1 & HsH & HrH & HeH).
  destruct (run_addressed hs1 os w1) as (evs & Ht & Hf).
  { intros hs Hh. rewrite Hh1 in Hh. inversion Hh. subst hs.
    repeat split. }
  exists hs1, evs. split; [exact Hh1 |]. split; [exact HsH |].
  split; [exact HrH |]. split; [exact HeH |]. split; [exact Ht |].
  split; [exact Hf |].
  rewrite Forall_forall in Hf. split.
  - intros H1 H2 Hin. apply Hf in Hin. simpl in Hin.
    destruct Hin as [Hin | Hin]; congruence.
  - intros H1 H2 Hin. apply Hf in Hin. simpl in Hin.
    destruct Hin as [Hin | Hin]; congruence.
Qed.

(** *** End of file, read errors and the stderr channel *)

(** X8: [handle_gotdata] with a length that is not positive never looks
    at the freeze state: in every state, FROZEN and THAWING included, it
    enters [plug_closing] exactly once (with "Read error from handle" for
    a negative length, with no message for length 0, error code 0 in
    both cases) and checks no assertion.  It passes no bytes on and
    buffers none: what is in [inputdata] stays there, so the Plug is told
    of the end of the stream before any bytes still buffered.  With a
    Plug that does not call back it returns 0 and changes nothing else. *)
Theorem gotdata_eof_and_error_close_at_once :
  forall (w : world) (hs : HandleSocket) (data : list byte) (len : Z),
    heap w = Some hs ->
    len <= 0 ->
    let msg := if len <? 0 then Some "Read error from handle"%string else None in
    let r := handle_gotdata consumer data len w in
    plug_calls (trace (snd r)) =
      plug_calls (trace w) ++ [plug_closing_call msg 0 0] /\
    received (trace (snd r)) = received (trace w) /\
    (forall hs', heap (snd r) = Some hs' ->
                 inputdata hs' = inputdata hs /\
                 buffering (frozen hs') = buffering (frozen hs)) /\
    (consumer (plug hs) (plug_closing_call msg 0 0) = [] ->
     r = (Ok 0,
          mkWorld (Some hs)
            (trace w ++ [EvPlug (plug hs) (plug_closing_call msg 0 0);
                         EvPlugReturn])
            (toplevel_callbacks w) (send_backlog w) (next_handle w))).
Proof.
  intros w hs data len Hheap Hlen msg r.
  assert (Hr : r = bind (plug_invoke consumer (plug hs)
                           (plug_closing_call msg 0 0))
                     (fun _ => ret 0) w).
  { subst r msg. unfold handle_gotdata, plug_closing.
    rewrite (bind_deref _ _ _ Hheap).
    destruct (len <? 0) eqn:Hneg; [reflexivity |].
    assert (Hz : (len =? 0) = true).
    { apply Z.eqb_eq. apply Z.ltb_ge in Hneg. lia. }
    rewrite Hz. reflexivity. }
  assert (Hsnd : snd r = snd (plug_invoke consumer (plug hs)
                                (plug_closing_call msg 0 0) w)).
  { rewrite Hr. unfold bind.
    destruct (plug_invoke consumer (plug hs) (plug_closing_call msg 0 0) w)
      as [[u | |] w1]; reflexivity. }
  destruct (plug_invoke_trace (plug hs) (plug_closing_call msg 0 0) w)
    as (evs & Ht & Hp & Hrc).
  pose proof (plug_invoke_frame (plug hs) (plug_closing_call msg 0 0) w) as Hf.
  rewrite Hsnd. split; [| split; [| split]].
  - rewrite Ht, plug_calls_app. simpl. rewrite Hp. reflexivity.
  - rewrite Ht, received_app. simpl. rewrite Hrc, app_nil_r. reflexivity.
  - intros hs' Hh'. unfold heap_rel in Hf. rewrite Hh', Hheap in Hf.
    destruct Hf as (_ & _ & _ & _ & _ & _ & Hb & Hi & _). auto.
  - intro Hq. rewrite Hr. unfold bind. rewrite (plug_invoke_quiet _ _ _ Hq).
    unfold ret. rewrite Hheap. reflexivity.
Qed.

(** X9: [handle_stderr] looks at the socket for positive lengths only.
    End of file or an error on the stderr handle (length 0 or negative)
    is dropped without reading the structure: the world is unchanged,
    even when the socket has been freed, and the Plug is not told.  Data
    of positive length goes to [log_proxy_stderr] once and changes
    nothing of the socket but [stderrdata]; on a freed socket it reads
    freed memory.  The return value is always 0: the stderr worker is
    never throttled. *)
Theorem stderr_touches_only_its_own_queue :
  forall (w : world) (data : list byte) (len : Z),
    (len <= 0 -> handle_stderr log_proxy_stderr data len w = (Ok 0, w)) /\
    (0 < len ->
     match heap w with
     | Some hs =>
         handle_stderr log_proxy_stderr data len w =
           (Ok 0,
            mkWorld
              (Some (with_stderrdata
                       (log_proxy_stderr (stderrdata hs) data len) hs))
              (trace w ++ [EvLogProxyStderr (plug hs) (chunk data len) len])
              (toplevel_callbacks w) (send_backlog w) (next_handle w))
     | None =>
         handle_stderr log_proxy_stderr data len w = (UseAfterFree, w)
     end) /\
    (forall v w', handle_stderr log_proxy_stderr data len w = (Ok v, w') ->
                  v = 0 /\ plug_calls (trace w') = plug_calls (trace w)).
Proof.
  intros w data len.
  assert (Hneg : len <= 0 -> handle_stderr log_proxy_stderr data len w = (Ok 0, w)).
  { intro Hlen. unfold handle_stderr.
    assert (H : (0 <? len) = false) by (apply Z.ltb_ge; lia).
    rewrite H. reflexivity. }
  assert (Hpos : 0 < len ->
     match heap w with
     | Some hs =>
         handle_stderr log_proxy_stderr data len w =
           (Ok 0,
            mkWorld
              (Some (with_stderrdata
                       (log_proxy_stderr (stderrdata hs) data len) hs))
              (trace w ++ [EvLogProxyStderr (plug hs) (chunk data len) len])
              (toplevel_callbacks w) (send_backlog w) (next_handle w))
     | None =>
         handle_stderr log_proxy_stderr data len w = (UseAfterFree, w)
     end).
  { intro Hlen. unfold handle_stderr.
    assert (H : (0 <? len) = true) by (apply Z.ltb_lt; lia).
    rewrite H. unfold_prims. destruct (heap w) as [hs |] eqn:Hh; simpl.
    - rewrite Hh. reflexivity.
    - reflexivity. }
  split; [exact Hneg |]. split; [exact Hpos |].
  intros v w' Hrun.
  destruct (Z_le_gt_dec len 0) as [Hle | Hgt].
  - rewrite (Hneg Hle) in Hrun. inversion Hrun. subst. auto.
  - assert (Hlt : 0 < len) by lia. specialize (Hpos Hlt).
    destruct (heap w) as [hs |].
    + rewrite Hpos in Hrun. inversion Hrun. subst. split; [reflexivity |].
      simpl. rewrite plug_calls_app. simpl. apply app_nil_r.
    + rewrite Hpos in Hrun. discriminate.
Qed.

(** *** After the teardown *)



(** *** Notifications go to the current Plug *)

Section PlugInPlace.

(** The Plug does not replace itself from inside one of its methods. *)
Hypothesis consumer_keeps_plug :
  forall (p : Plug) (c : plug_call),
    forallb keeps_plug_call (consumer p c) = true.

Lemma plug_invoke_routed (p : Plug) (c : plug_call) :
  routed p (plug_invoke consumer p c).
Proof.
  unfold plug_invoke.
  apply routed_bind; [apply routed_emit; reflexivity | intros _].
  apply routed_bind; [apply reenter_routed, consumer_keeps_plug | intros _].
  apply routed_emit. exact I.
Qed.

Ltac entry_routed :=
  repeat first
    [ apply routed_ret | apply routed_assert | apply routed_sfree
    | apply routed_queue_toplevel_callback | apply routed_handle_write
    | apply routed_store; intro; reflexivity
    | match goal with
      | H : plug ?hs = ?p |- routed ?p (plug_invoke _ (plug ?hs) _) =>
          rewrite H; apply plug_invoke_routed
      end
    | apply (sock_exec_routed _ sk_close_call eq_refl)
    | apply routed_emit; first [exact I | assumption]
    | apply routed_bind_deref; intros ? ?
    | apply routed_bind; [| intro]
    | match goal with
      | |- routed _ (if ?b then _ else _) => destruct b
      | |- routed _ (match ?x with _ => _ end) => destruct x
      end ].

Lemma handle_gotdata_routed (p : Plug) (data : list byte) (len : Z) :
  routed p (handle_gotdata consumer data len).
Proof.
  unfold handle_gotdata, plug_closing, plug_receive. entry_routed.
Qed.

Lemma handle_stderr_routed (p : Plug) (data : list byte) (len : Z) :
  routed p (handle_stderr log_proxy_stderr data len).
Proof. unfold handle_stderr. entry_routed. Qed.

Lemma handle_sentdata_routed (p : Plug) (new_backlog : Z) :
  routed p (handle_sentdata consumer win_strerror new_backlog).
Proof.
  unfold handle_sentdata, plug_closing, plug_sent. entry_routed.
Qed.

Lemma handle_socket_unfreeze_routed (p : Plug) :
  routed p (handle_socket_unfreeze consumer prefix_len).
Proof.
  unfold handle_socket_unfreeze, plug_receive, handle_unthrottle,
    bufchain_prefix.
  cbv zeta. entry_routed.
Qed.

Lemma step_routed (p : Plug) (o : op) :
  keeps_plug_op o = true ->
  routed p (step consumer prefix_len win_strerror log_proxy_stderr o).
Proof.
  intro Ho. destruct o as [data len | data len | n | | c]; simpl.
  - apply routed_bind; [apply handle_gotdata_routed | intro; apply routed_ret].
  - apply routed_bind; [apply handle_stderr_routed | intro; apply routed_ret].
  - apply handle_sentdata_routed.
  - intros w Hpre. unfold run_toplevel_callback.
    destruct (toplevel_callbacks w) as [| n].
    + split; [exact Hpre |]. exists []. simpl. rewrite app_nil_r. auto.
    + exact (handle_socket_unfreeze_routed p
               (mkWorld (heap w) (trace w) n (send_backlog w) (next_handle w))
               Hpre).
  - apply sock_exec_routed. exact Ho.
Qed.

Lemma run_routed (p : Plug) (os : list op) :
  forallb keeps_plug_op os = true ->
  routed p (run consumer prefix_len win_strerror log_proxy_stderr os).
Proof.
  induction os as [| o os IH]; simpl; intro Hos.
  - apply routed_ret.
  - apply andb_true_iff in Hos. destruct Hos as [Ho Hos].
    apply routed_bind; [apply step_routed; exact Ho | intros _; auto].
Qed.

(** X13: [sk_handle_plug] decides who is notified from then on.  After
    [sk_handle_plug p] on a live socket, which returns the Plug in place
    before, every Plug method entered and every stderr line logged by
    the events that follow names [p], or the Plug in place before when
    [p] is NULL, as long as no later call replaces the Plug again: the
    Plug that was replaced is not called any more. *)
Theorem notifications_go_to_current_plug :
  forall (w : world) (hs : HandleSocket) (p : Plug) (os : list op),
    heap w = Some hs ->
    forallb keeps_plug_op os = true ->
    let current := if p =? NULL then plug hs else p in
    let w1 := snd (sk_handle_plug p w) in
    sk_handle_plug p w = (Ok (plug hs), w1) /\
    trace w1 = trace w /\
    exists evs,
      trace (snd (run consumer prefix_len win_strerror log_proxy_stderr os w1))
        = trace w ++ evs /\
      Forall (to_plug current) evs.
Proof.
  intros w hs p os Hheap Hos current w1.
  assert (Hrun : sk_handle_plug p w =
                 (Ok (plug hs),
                  mkWorld (Some (if p =? NULL then hs else with_plug p hs))
                    (trace w) (toplevel_callbacks w) (send_backlog w)
                    (next_handle w))).
  { unfold sk_handle_plug. unfold_prims. rewrite Hheap.
    destruct (p =? NULL); simpl; rewrite ?Hheap; [| reflexivity].
    destruct w; simpl in *. rewrite Hheap. reflexivity. }
  assert (Hw1 : w1 = mkWorld (Some (if p =? NULL then hs else with_plug p hs))
                       (trace w) (toplevel_callbacks w) (send_backlog w)
                       (next_handle w)).
  { subst w1. rewrite Hrun. reflexivity. }
  split; [rewrite Hw1; exact Hrun |]. split; [rewrite Hw1; reflexivity |].
  destruct (run_routed current os Hos w1) as (_ & evs & Ht & Hall).
  { rewrite Hw1. simpl. intros hs' H. injection H as H. subst hs' current.
    destruct (p =? NULL); reflexivity. }
  exists evs. split; [| exact Hall].
  rewrite Ht, Hw1. reflexivity.
Qed.

End PlugInPlace.


End Proofs.

(** *** Close and write *)

(** C5, as the code has it: a close that is not deferred releases the
    send (write) worker, then the receive (read) worker, then closes the
    send handle, then the receive handle if it is a different one, then
    clears [inputdata], then [stderrdata], then frees the adapter; these
    are all its outward calls, in this order. *)
Theorem close_release_order :
  forall (w : world) (hs : HandleSocket),
    heap w = Some hs ->
    defer_close hs = false ->
    sk_handle_close w =
      (Ok tt,
       mkWorld None
         (trace w
          ++ [EvHandleFree (send_h hs); EvHandleFree (recv_h hs);
              EvCloseHandle (send_H hs)]
          ++ (if negb (recv_H hs =? send_H hs)
              then [EvCloseHandle (recv_H hs)] else [])
          ++ [EvBufchainClear q_inputdata; EvBufchainClear q_stderrdata;
              EvSfree])
         (toplevel_callbacks w) (send_backlog w) (next_handle w)).
Proof.
  intros w hs Hheap Hd. rewrite (sk_handle_close_now w hs Hheap Hd).
  reflexivity.
Qed.

(** C9, as the code has it: [sk_handle_write] passes a write of length 0
    on to [handle_write] for the send worker like any other write, once;
    it returns what [handle_write] returns, which is the backlog as it
    was, and nothing else changes. *)
Theorem empty_write_is_forwarded :
  forall (w : world) (hs : HandleSocket) (data : list byte),
    heap w = Some hs ->
    sk_handle_write data 0 w =
      (Ok (send_backlog w),
       mkWorld (heap w) (trace w ++ [EvHandleWrite (send_h hs) [] 0])
         (toplevel_callbacks w) (send_backlog w) (next_handle w)).
Proof.
  intros w hs data Hheap. unfold sk_handle_write.
  rewrite (bind_deref _ _ _ Hheap). unfold handle_write, chunk. simpl.
  rewrite Z.add_0_r. reflexivity.
Qed.

(** *** How freeze and unfreeze requests compose *)

(** X6: a request repeated changes nothing the second time: after a
    [sk_handle_set_frozen] that returned, another one with an argument of
    the same truth value returns and leaves the world as it is.  In
    particular a repeated unfreeze queues no second drain callback. *)
Theorem set_frozen_repeated_is_noop :
  forall (w w1 : world) (hs : HandleSocket) (a b : Z),
    heap w = Some hs ->
    (a =? 0) = (b =? 0) ->
    sk_handle_set_frozen a w = (Ok tt, w1) ->
    sk_handle_set_frozen b w1 = (Ok tt, w1).
Proof.
  intros w w1 hs a b Hheap Hab Hrun.
  unfold sk_handle_set_frozen in *. unfold_prims.
  rewrite Hheap in Hrun. rewrite <- Hab.
  destruct (a =? 0); destruct (frozen hs) eqn:Hst; simpl in Hrun;
    rewrite ?Hheap in Hrun; simpl in Hrun;
    try (inversion Hrun; subst w1; clear Hrun; simpl;
         rewrite ?Hheap, ?Hst; reflexivity).
  destruct (bufchain_size (inputdata hs) =? 0); simpl in Hrun;
    rewrite ?Hheap in Hrun; [| discriminate].
  inversion Hrun; subst w1; clear Hrun. reflexivity.
Qed.

(** X7: a freeze that is taken back before any read lands costs nothing:
    on a socket in state UNFROZEN with nothing buffered, a freeze request
    followed by an unfreeze request gives back the very same world (no
    callback queued, nothing in the trace).  During a thaw it is
    otherwise: a freeze followed by an unfreeze is back in state THAWING
    with one more drain callback queued than before. *)
Theorem freeze_then_unfreeze :
  forall (w : world) (hs : HandleSocket) (a : Z),
    heap w = Some hs ->
    a <> 0 ->
    (frozen hs = UNFROZEN -> inputdata hs = [] ->
     bind (sk_handle_set_frozen a) (fun _ => sk_handle_set_frozen 0) w =
       (Ok tt, w)) /\
    (frozen hs = THAWING ->
     bind (sk_handle_set_frozen a) (fun _ => sk_handle_set_frozen 0) w =
       (Ok tt,
        mkWorld (Some hs) (trace w ++ [EvQueueToplevelCallback])
          (S (toplevel_callbacks w)) (send_backlog w) (next_handle w))).
Proof.
  intros w hs a Hheap Ha. apply Z.eqb_neq in Ha.
  split.
  - intros Hst Hq. unfold sk_handle_set_frozen. unfold_prims.
    assert (Hhs : with_frozen UNFROZEN (with_frozen FREEZING hs) = hs)
      by (rewrite <- Hst; destruct hs; reflexivity).
    rewrite Hheap, Ha, Hst. simpl. rewrite Hheap. simpl. rewrite Hq. simpl.
    rewrite Hhs, <- Hheap, world_eta. reflexivity.
  - intros Hst. unfold sk_handle_set_frozen. unfold_prims.
    assert (Hhs : with_frozen THAWING (with_frozen FROZEN hs) = hs)
      by (rewrite <- Hst; destruct hs; reflexivity).
    rewrite Hheap, Ha, Hst. simpl. rewrite Hheap. simpl.
    rewrite Hhs. reflexivity.
Qed.

(** ** Concrete runs *)

Lemma whole_prefix_pos (ch : bufchain) : ch <> [] -> (0 < whole_prefix ch)%nat.
Proof.
  unfold whole_prefix. destruct ch; [congruence | simpl; lia].
Qed.

Lemma granule2_pos (ch : bufchain) : ch <> [] -> (0 < granule2 ch)%nat.
Proof.
  unfold granule2. destruct ch as [| a [| b ch]]; [congruence | |]; simpl; lia.
Qed.

Example fresh_world_heap : heap fresh_world = Some sample_hs.
Proof. reflexivity. Qed.

Example race_scenario_run :
  let w :=
    snd (run quiet_consumer granule2 sample_strerror sample_log race_scenario
           fresh_world) in
  plug_calls (trace w) =
    [plug_receive_call 0 AB 2; plug_receive_call 0 CD 2;
     plug_receive_call 0 [x45] 1] /\
  heap w = Some sample_hs /\
  filter (fun e => match e with EvHandleUnthrottle _ _ => true | _ => false end)
    (trace w) = [EvHandleUnthrottle 1 0].
Proof. vm_compute. repeat split. Qed.

(** A Plug that freezes the socket each time it is given data: "AB" is
    passed on and arms the freeze, "CD" is buffered, and is drained after
    the owner's unfreeze. *)
Example throttling_plug_run :
  received
    (trace
       (snd (run throttling_consumer whole_prefix sample_strerror sample_log
               [OpGotData AB 2; OpGotData CD 2; OpSock (sk_set_frozen_call 0);
                OpCallback]
               fresh_world)))
  = AB ++ CD.
Proof. reflexivity. Qed.

(** The Plug freezes the socket from inside [receive] while the last
    block is being drained: the callback still ends in UNFROZEN. *)
Example refreeze_inside_last_drain :
  let w := snd (handle_socket_unfreeze throttling_consumer whole_prefix
                  (in_state THAWING CD)) in
  option_map frozen (heap w) = Some UNFROZEN /\
  option_map inputdata (heap w) = Some [].
Proof. vm_compute. split; reflexivity. Qed.

(** A Plug that closes the socket twice from inside a [receive] made by
    [handle_gotdata] runs into the freed structure. *)
Example double_close_in_direct_receive :
  fst (handle_gotdata (fun _ _ => [sk_close_call; sk_close_call]) AB 2
         fresh_world) = UseAfterFree.
Proof. reflexivity. Qed.

(** After [sk_handle_close], a drain callback that was still queued runs
    into the freed structure. *)
Example queued_callback_after_close :
  fst (run quiet_consumer whole_prefix sample_strerror sample_log
         [OpSock (sk_set_frozen_call 0); OpSock sk_close_call; OpCallback]
         (in_state FROZEN CD)) = UseAfterFree.
Proof. reflexivity. Qed.

(** The stderr worker registered by [make_handle_socket] is not among
    the workers [sk_handle_close] releases. *)
Example stderr_worker_not_released :
  let w := snd (sk_handle_close fresh_world_stderr) in
  In (EvHandleInputNew 102 1 3) (trace w) /\
  filter (fun e => match e with EvHandleFree _ => true | _ => false end)
    (trace w) = [EvHandleFree 2; EvHandleFree 1].
Proof. vm_compute. split; [| reflexivity]. right. right. left. reflexivity. Qed.

(** The race of section 8, stopped while "CDE" is still buffered: what
    was received and what is buffered make up what was delivered, and a
    thaw brings the rest. *)
Lemma bytes_reach_plug_in_order_witness :
  forallb flow_op frozen_scenario = true /\
  engine_contract quiet_consumer granule2 sample_strerror sample_log
    frozen_scenario fresh_world = true /\
  (exists w hs,
      run quiet_consumer granule2 sample_strerror sample_log frozen_scenario
        fresh_world = (Ok tt, w) /\
      heap w = Some hs /\
      received (trace w) ++ inputdata hs =
        received (trace world0) ++ delivered frozen_scenario /\
      (inputdata hs = [] ->
       received (trace w) = received (trace world0) ++ delivered frozen_scenario) /\
      (frozen hs = UNFROZEN -> inputdata hs = [])) /\
  (exists k w hs,
      run quiet_consumer granule2 sample_strerror sample_log
        (frozen_scenario ++ thaw k) fresh_world = (Ok tt, w) /\
      heap w = Some hs /\ frozen hs = UNFROZEN /\ inputdata hs = [] /\
      received (trace w) = received (trace world0) ++ delivered frozen_scenario).
Proof.
  split; [reflexivity |]. split; [reflexivity |].
  destruct (bytes_reach_plug_in_order quiet_consumer granule2 sample_strerror
              sample_log granule2_pos (fun _ _ => eq_refl) 100 101 NULL 7 0
              world0 frozen_scenario eq_refl eq_refl) as [Hsafe Hlive].
  split; [exact Hsafe |]. exact (Hlive (fun _ _ => eq_refl)).
Defined.

(** Unfreeze while FROZEN: on to THAWING, one drain callback queued. *)
Lemma set_frozen_transition_table_witness :
  heap (in_state FROZEN CD) =
    Some (with_inputdata CD (with_frozen FROZEN sample_hs)) /\
  sk_handle_set_frozen 0 (in_state FROZEN CD) =
    (Ok tt,
     mkWorld (Some (with_frozen THAWING
                      (with_inputdata CD (with_frozen FROZEN sample_hs))))
       [EvQueueToplevelCallback] 2 0 3) /\
  handle_socket_unfreeze quiet_consumer whole_prefix (in_state FROZEN CD) =
    (Ok tt, in_state FROZEN CD).
Proof.
  split; [reflexivity |].
  destruct (set_frozen_transition_table quiet_consumer whole_prefix
              (in_state FROZEN CD) _ 0 eq_refl) as (_ & Hrun & Hidle).
  split.
  - apply Hrun. intros (Hst & _). discriminate Hst.
  - apply Hidle. discriminate.
Defined.

(** "CD" arrives in state FREEZING; "AB" arrives in state UNFROZEN. *)
Lemma gotdata_freezing_buffers_unfrozen_delivers_witness :
  heap (in_state FREEZING []) =
    Some (with_inputdata [] (with_frozen FREEZING sample_hs)) /\
  0 < 2 /\
  handle_gotdata quiet_consumer CD 2 (in_state FREEZING []) =
    (Ok INT_MAX,
     mkWorld
       (Some (with_frozen FROZEN
                (with_inputdata CD (with_frozen FREEZING sample_hs))))
       [] 1 0 3) /\
  handle_gotdata quiet_consumer AB 2 fresh_world =
    (Ok 0,
     mkWorld (Some sample_hs)
       (trace fresh_world
        ++ [EvPlug 7 (plug_receive_call 0 AB 2); EvPlugReturn])
       0 0 3).
Proof.
  split; [reflexivity |]. split; [reflexivity |]. split.
  - exact (proj1 (gotdata_freezing_buffers_unfrozen_delivers quiet_consumer
                    (in_state FREEZING []) _ CD 2 eq_refl eq_refl) eq_refl).
  - destruct (proj2 (gotdata_freezing_buffers_unfrozen_delivers quiet_consumer
                       fresh_world sample_hs AB 2 eq_refl eq_refl) eq_refl)
      as (_ & _ & _ & _ & Hquiet).
    exact (Hquiet eq_refl).
Defined.

(** A Plug that freezes, closes, writes and closes again from inside a
    [receive] of the drain callback; a Plug that closes from inside a
    [receive] made by [handle_gotdata]. *)
Lemma close_from_receive_completes_once_witness :
  (exists evs w',
      let new :=
        EvPlug 7 (plug_receive_call 0 CD 2)
        :: evs ++ EvPlugReturn :: close_trace sample_hs in
      handle_socket_unfreeze busy_consumer granule2 (in_state THAWING CDE) =
        (Ok tt, w') /\
      heap w' = None /\
      Forall calm_event evs /\
      trace w' = [] ++ new /\
      filter is_sfree new = [EvSfree] /\
      teardown_outside_plug false new = true) /\
  (exists evs w',
      let new :=
        EvPlug 7 (plug_receive_call 0 AB 2)
        :: evs ++ close_trace sample_hs ++ [EvPlugReturn] in
      handle_gotdata closing_consumer AB 2 fresh_world = (Ok 0, w') /\
      heap w' = None /\
      Forall calm_event evs /\
      trace w' = trace fresh_world ++ new /\
      filter is_sfree new = [EvSfree] /\
      teardown_outside_plug false new = false).
Proof.
  split.
  - destruct (close_from_receive_completes_once busy_consumer granule2
                granule2_pos (in_state THAWING CDE) _ eq_refl)
      as (_ & Hdrain & _).
    apply Hdrain; [reflexivity | discriminate | reflexivity].
  - destruct (close_from_receive_completes_once closing_consumer granule2
                granule2_pos fresh_world _ eq_refl)
      as (_ & _ & Hdirect).
    apply (Hdirect eq_refl eq_refl eq_refl AB 2 []); reflexivity.
Defined.

(** A close from inside the [receive] made by [handle_gotdata] is not
    deferred: the whole teardown lies between the entry of [receive] and
    its return. *)
Lemma close_from_receive_counterexample :
  closing_consumer 7 (plug_receive_call 0 AB 2) = [sk_close_call] /\
  trace after_direct_close =
    trace fresh_world
    ++ EvPlug 7 (plug_receive_call 0 AB 2)
       :: close_trace sample_hs ++ [EvPlugReturn] /\
  teardown_outside_plug false (trace after_direct_close) = false.
Proof. vm_compute. repeat split. Qed.

(** A drain step and a freeze request on a socket with "CDE" buffered. *)
Lemma queue_invariant_preserved_witness :
  world_invariant (in_state THAWING CDE) /\
  world_invariant
    (snd (handle_socket_unfreeze throttling_consumer granule2
            (in_state THAWING CDE))) /\
  world_invariant (snd (sk_handle_set_frozen 1 (in_state THAWING CDE))) /\
  world_invariant
    (snd (handle_gotdata throttling_consumer AB 2 (in_state THAWING CDE))).
Proof.
  assert (Hinv : world_invariant (in_state THAWING CDE)).
  { split; [discriminate | intros _; right; reflexivity]. }
  split; [exact Hinv |].
  destruct (proj2 (queue_invariant_preserved throttling_consumer granule2
                     granule2_pos) (in_state THAWING CDE) Hinv)
    as (Hfreeze & Hdata & Hdrain).
  split; [exact Hdrain |]. split; [exact (Hfreeze 1) | exact (Hdata AB 2)].
Defined.

(** The sent-data callback reports error code 5, then a backlog of 10. *)
Lemma sentdata_error_closes_else_forwards_witness :
  heap fresh_world = Some sample_hs /\
  0 < 5 <= INT_MAX /\
  plug_calls (trace (snd (handle_sentdata quiet_consumer sample_strerror (- 5)
                            fresh_world))) =
    plug_calls (trace fresh_world)
    ++ [plug_closing_call (Some "Access is denied."%string) 5 0] /\
  plug_calls (trace (snd (handle_sentdata quiet_consumer sample_strerror 10
                            fresh_world))) =
    plug_calls (trace fresh_world) ++ [plug_sent_call 10].
Proof.
  split; [reflexivity |]. split; [unfold INT_MAX; lia |].
  destruct (sentdata_error_closes_else_forwards quiet_consumer sample_strerror
              fresh_world sample_hs eq_refl) as (Herr & Hsent).
  split.
  - apply (Herr 5). unfold INT_MAX. lia.
  - apply (Hsent 10). lia.
Defined.

(** After a read failure and a write failure the accessor returns NULL. *)
Lemma socket_error_always_null_witness :
  heap after_failures = Some sample_hs /\
  sk_handle_socket_error after_failures = (Ok None, after_failures).
Proof.
  split; [reflexivity |].
  exact (socket_error_always_null quiet_consumer whole_prefix sample_strerror
           sample_log 100 101 NULL 7 0 world0 failure_scenario sample_hs
           eq_refl).
Defined.

(** Plug 7 is replaced by Plug 9; a later call with NULL changes nothing. *)
Lemma set_plug_returns_previous_never_null_witness :
  sk_handle_plug 9 fresh_world =
    (Ok 7,
     mkWorld (Some (with_plug 9 sample_hs)) (trace fresh_world) 0 0 3) /\
  (forall hs,
      heap (snd (run quiet_consumer whole_prefix sample_strerror sample_log
                   [OpSock (sk_plug_call 9); OpSock (sk_plug_call NULL)]
                   fresh_world)) = Some hs ->
      plug hs <> NULL).
Proof.
  destruct (set_plug_returns_previous_never_null quiet_consumer whole_prefix
              sample_strerror sample_log) as (Hcall & Hnever).
  split.
  - apply (proj2 (Hcall fresh_world sample_hs 9 eq_refl)). discriminate.
  - intros hs Hheap.
    apply (Hnever 100 101 NULL 7 0 world0
             [OpSock (sk_plug_call 9); OpSock (sk_plug_call NULL)] hs).
    + discriminate.
    + exact Hheap.
Defined.

(** Closing a socket on the pipe pair 100/101. *)
Lemma close_release_order_witness :
  heap fresh_world = Some sample_hs /\
  defer_close sample_hs = false /\
  trace (snd (sk_handle_close fresh_world)) =
    trace fresh_world
    ++ [EvHandleFree 2; EvHandleFree 1; EvCloseHandle 100; EvCloseHandle 101;
        EvBufchainClear q_inputdata; EvBufchainClear q_stderrdata; EvSfree].
Proof.
  split; [reflexivity |]. split; [reflexivity |].
  rewrite (close_release_order fresh_world sample_hs eq_refl eq_refl).
  reflexivity.
Defined.

(** The order of the spec (read worker first) is not the order of the
    code, already on a socket without a stderr handle. *)
Lemma close_release_order_counterexample :
  heap fresh_world = Some sample_hs /\
  stderr_H sample_hs = NULL /\
  trace (snd (sk_handle_close fresh_world)) <>
    trace fresh_world ++ spec_release_order sample_hs.
Proof.
  split; [reflexivity |]. split; [reflexivity |].
  vm_compute. intro H. discriminate H.
Qed.

(** An empty write on a fresh socket. *)
Lemma empty_write_is_forwarded_witness :
  heap fresh_world = Some sample_hs /\
  sk_handle_write [] 0 fresh_world =
    (Ok 0,
     mkWorld (Some sample_hs) (trace fresh_world ++ [EvHandleWrite 2 [] 0])
       0 0 3).
Proof.
  split; [reflexivity |].
  exact (empty_write_is_forwarded fresh_world sample_hs [] eq_refl).
Defined.

(** An empty write does reach winhandl.c's write operation. *)
Lemma empty_write_counterexample :
  fst (sk_handle_write [] 0 fresh_world) = Ok (send_backlog fresh_world) /\
  engine_writes (trace (snd (sk_handle_write [] 0 fresh_world))) <>
    engine_writes (trace fresh_world).
Proof.
  split; [reflexivity |]. vm_compute. intro H. discriminate H.
Qed.

(** After a read failure, and after a write failure, the Plug has been
    given the description but [sk_handle_socket_error] returns NULL. *)
Lemma socket_error_counterexample :
  (plug_calls (trace after_read_failure) =
     [plug_closing_call (Some "Read error from handle"%string) 0 0] /\
   fst (sk_handle_socket_error after_read_failure) = Ok None) /\
  (plug_calls (trace after_write_failure) =
     [plug_closing_call (Some "Access is denied."%string) 5 0] /\
   fst (sk_handle_socket_error after_write_failure) = Ok None).
Proof. vm_compute. repeat split. Qed.

(** ** Concrete runs of the further properties *)

Lemma throttling_consumer_keeps_open (p : Plug) (c : plug_call) :
  existsb is_close_call (throttling_consumer p c) = false.
Proof. destruct c; reflexivity. Qed.

Lemma fresh_world_settled : settled sample_hs.
Proof.
  split; [reflexivity |]. split; [reflexivity |].
  split; [reflexivity |]. intro H. discriminate H.
Qed.

(** Mixed traffic around a Plug that freezes on every [receive]: the
    bytes "ABCDE" arrive in order. *)
Lemma bytes_in_order_among_other_traffic_witness :
  forallb benign_op mixed_scenario = true /\
  engine_contract throttling_consumer granule2 sample_strerror sample_log
    mixed_scenario fresh_world = true /\
  exists w hs,
    run throttling_consumer granule2 sample_strerror sample_log mixed_scenario
      fresh_world = (Ok tt, w) /\
    heap w = Some hs /\
    received (trace w) ++ inputdata hs =
      received (trace world0) ++ delivered mixed_scenario /\
    (frozen hs = UNFROZEN \/ frozen hs = FREEZING ->
     received (trace w) = received (trace world0) ++ delivered mixed_scenario).
Proof.
  split; [reflexivity |]. split; [reflexivity |].
  exact (bytes_in_order_among_other_traffic throttling_consumer granule2
           sample_strerror sample_log granule2_pos
           throttling_consumer_keeps_open 100 101 NULL 7 0 world0
           mixed_scenario eq_refl eq_refl).
Defined.

(** In the same run no more than the three bytes of "CDE" are ever left
    buffered. *)
Lemma input_buffer_bounded_by_one_read_witness :
  forallb benign_op mixed_scenario = true /\
  engine_contract throttling_consumer granule2 sample_strerror sample_log
    mixed_scenario fresh_world = true /\
  largest_read mixed_scenario = 3%nat /\
  exists w hs,
    run throttling_consumer granule2 sample_strerror sample_log mixed_scenario
      fresh_world = (Ok tt, w) /\
    heap w = Some hs /\
    (length (inputdata hs) <= largest_read mixed_scenario)%nat.
Proof.
  split; [reflexivity |]. split; [reflexivity |]. split; [reflexivity |].
  exact (input_buffer_bounded_by_one_read throttling_consumer granule2
           sample_strerror sample_log granule2_pos
           throttling_consumer_keeps_open 100 101 NULL 7 0 world0
           mixed_scenario eq_refl eq_refl).
Defined.

(** In the same run the receive worker is throttled once, by the read of
    "CDE", and unthrottled once. *)
Lemma unthrottle_answers_each_throttle_witness :
  forallb benign_op mixed_scenario = true /\
  engine_contract throttling_consumer granule2 sample_strerror sample_log
    mixed_scenario fresh_world = true /\
  throttles throttling_consumer granule2 sample_strerror sample_log
    mixed_scenario fresh_world = 1%nat /\
  exists w hs,
    run throttling_consumer granule2 sample_strerror sample_log mixed_scenario
      fresh_world = (Ok tt, w) /\
    heap w = Some hs /\
    (unthrottles (trace w) + Nat.b2n (buffering (frozen hs)) =
     unthrottles (trace world0)
     + throttles throttling_consumer granule2 sample_strerror sample_log
         mixed_scenario fresh_world)%nat.
Proof.
  split; [reflexivity |]. split; [reflexivity |]. split; [reflexivity |].
  exact (unthrottle_answers_each_throttle throttling_consumer granule2
           sample_strerror sample_log granule2_pos
           throttling_consumer_keeps_open 100 101 NULL 7 0 world0
           mixed_scenario eq_refl eq_refl).
Defined.

(** A socket with a stderr handle, closed by its owner after some stderr
    output: neither the stderr handle 102 nor its worker 3 is released. *)
Lemma outward_calls_name_own_workers_witness :
  exists evs,
    trace (snd (run quiet_consumer whole_prefix sample_strerror sample_log
                  [OpStderr CD 2; OpSock sk_close_call] fresh_world_stderr)) =
      trace fresh_world_stderr ++ evs /\
    ~ In (EvCloseHandle 102) evs /\ ~ In (EvHandleFree 3) evs.
Proof.
  destruct (outward_calls_name_own_workers quiet_consumer whole_prefix
              sample_strerror sample_log 100 101 102 7 1 world0
              [OpStderr CD 2; OpSock sk_close_call])
    as (hs1 & evs & Hh & _ & _ & _ & Ht & _ & Hc & Hf).
  exists evs. split; [exact Ht |]. split.
  - apply Hc; intro H; discriminate H.
  - injection Hh as Hhs. rewrite <- Hhs in Hf.
    apply Hf; intro H; discriminate H.
Defined.

(** The same mixed traffic holds no close, and frees nothing. *)
Lemma never_freed_without_close_witness :
  forallb close_free_op mixed_scenario = true /\
  heap (snd (run throttling_consumer granule2 sample_strerror sample_log
               mixed_scenario fresh_world)) <> None /\
  fst (run throttling_consumer granule2 sample_strerror sample_log
         mixed_scenario fresh_world) <> UseAfterFree /\
  filter is_sfree
    (trace (snd (run throttling_consumer granule2 sample_strerror sample_log
                   mixed_scenario fresh_world))) =
    filter is_sfree (trace world0).
Proof.
  split; [reflexivity |].
  exact (never_freed_without_close throttling_consumer granule2
           sample_strerror sample_log throttling_consumer_keeps_open
           100 101 NULL 7 0 world0 mixed_scenario eq_refl).
Defined.

(** Freezing a socket twice, with different non-zero flags. *)
Lemma set_frozen_repeated_is_noop_witness :
  sk_handle_set_frozen 5
    (snd (sk_handle_set_frozen 1 (in_state UNFROZEN []))) =
    (Ok tt, snd (sk_handle_set_frozen 1 (in_state UNFROZEN []))).
Proof.
  exact (set_frozen_repeated_is_noop (in_state UNFROZEN []) _ _ 1 5
           eq_refl eq_refl eq_refl).
Defined.

(** Freeze and unfreeze at once: nothing happens to an idle socket; a
    thawing one gets a second drain callback. *)
Lemma freeze_then_unfreeze_witness :
  bind (sk_handle_set_frozen 1) (fun _ => sk_handle_set_frozen 0)
    (in_state UNFROZEN []) = (Ok tt, in_state UNFROZEN []) /\
  bind (sk_handle_set_frozen 1) (fun _ => sk_handle_set_frozen 0)
    (in_state THAWING CD) =
    (Ok tt,
     mkWorld (Some (with_inputdata CD (with_frozen THAWING sample_hs)))
       [EvQueueToplevelCallback] 2 0 3).
Proof.
  assert (Hnz : 1 <> 0) by (intro H; discriminate H).
  split.
  - exact (proj1 (freeze_then_unfreeze (in_state UNFROZEN []) _ 1 eq_refl Hnz)
             eq_refl eq_refl).
  - exact (proj2 (freeze_then_unfreeze (in_state THAWING CD) _ 1 eq_refl Hnz)
             eq_refl).
Defined.

(** A read error while "CD" is buffered in state FROZEN: the Plug is told
    at once, "CD" stays buffered. *)
Lemma gotdata_eof_and_error_close_at_once_witness :
  plug_calls (trace (snd (handle_gotdata quiet_consumer [] (-1)
                            (in_state FROZEN CD)))) =
    [plug_closing_call (Some "Read error from handle"%string) 0 0] /\
  handle_gotdata quiet_consumer [] (-1) (in_state FROZEN CD) =
    (Ok 0,
     mkWorld (Some (with_inputdata CD (with_frozen FROZEN sample_hs)))
       [EvPlug 7 (plug_closing_call (Some "Read error from handle"%string) 0 0);
        EvPlugReturn] 1 0 3).
Proof.
  assert (Hlen : -1 <= 0) by (intro H; discriminate H).
  destruct (gotdata_eof_and_error_close_at_once quiet_consumer
              (in_state FROZEN CD) _ [] (-1) eq_refl Hlen)
    as (Hcalls & _ & _ & Hrun).
  split; [exact Hcalls | exact (Hrun eq_refl)].
Defined.

(** Two bytes of stderr output are logged; an end of file on the stderr
    handle is dropped even where no socket is allocated. *)
Lemma stderr_touches_only_its_own_queue_witness :
  handle_stderr sample_log CD 2 fresh_world_stderr =
    (Ok 0,
     mkWorld (heap fresh_world_stderr)
       (trace fresh_world_stderr ++ [EvLogProxyStderr 7 CD 2]) 0 0 4) /\
  handle_stderr sample_log [] 0 world0 = (Ok 0, world0).
Proof.
  assert (Hle : 0 <= 0) by (intro H; discriminate H).
  split.
  - exact (proj1 (proj2 (stderr_touches_only_its_own_queue sample_log
                           fresh_world_stderr CD 2)) eq_refl).
  - exact (proj1 (stderr_touches_only_its_own_queue sample_log world0 [] 0)
             Hle).
Defined.

(** Two writes, one of them out of band, among other calls. *)
Lemma writes_reach_send_worker_in_order_witness :
  exists w',
    reenter [sk_write_call AB 2; sk_set_frozen_call 1; sk_write_oob_call CDE 3;
             sk_flush_call; sk_write_eof_call] fresh_world = (Ok tt, w') /\
    engine_writes (trace w') = [(2, AB); (2, CDE)] /\
    send_backlog w' = 5.
Proof.
  exact (writes_reach_send_worker_in_order
           [sk_write_call AB 2; sk_set_frozen_call 1; sk_write_oob_call CDE 3;
            sk_flush_call; sk_write_eof_call]
           fresh_world sample_hs eq_refl fresh_world_settled eq_refl).
Defined.

(** The last drain step with a Plug that freezes from inside [receive]:
    the socket ends UNFROZEN all the same. *)
Lemma drain_step_outcome_witness :
  exists w' hs' evs,
    handle_socket_unfreeze throttling_consumer whole_prefix
      (in_state THAWING CD) = (Ok tt, w') /\
    heap w' = Some hs' /\ inputdata hs' = [] /\ received (trace w') = CD /\
    frozen hs' = UNFROZEN /\
    trace w' = evs ++ [EvHandleUnthrottle 1 0].
Proof.
  assert (Hne : CD <> []) by (intro H; discriminate H).
  destruct (drain_step_outcome throttling_consumer whole_prefix
              whole_prefix_pos throttling_consumer_keeps_open
              (in_state THAWING CD) _ eq_refl eq_refl Hne eq_refl)
    as (w' & hs' & evs & Hrun & Hh & Hi & Hr & _ & _ & Hlast & _).
  destruct (Hlast eq_refl) as [Hst Ht].
  exists w', hs', evs.
  exact (conj Hrun (conj Hh (conj Hi (conj Hr (conj Hst Ht))))).
Defined.


(** Plug 7 is replaced by Plug 9: what follows is reported to Plug 9. *)
Lemma notifications_go_to_current_plug_witness :
  sk_handle_plug 9 fresh_world = (Ok 7, snd (sk_handle_plug 9 fresh_world)) /\
  exists evs,
    trace (snd (run throttling_consumer whole_prefix sample_strerror sample_log
                  [OpGotData AB 2; OpSock (sk_plug_call NULL); OpStderr CD 2;
                   OpSentData (-5)]
                  (snd (sk_handle_plug 9 fresh_world)))) =
      trace fresh_world ++ evs /\
    Forall (to_plug 9) evs.
Proof.
  destruct (notifications_go_to_current_plug throttling_consumer whole_prefix
              sample_strerror sample_log
              (fun q c => match c with
                          | plug_closing_call _ _ _ => eq_refl
                          | plug_receive_call _ _ _ => eq_refl
                          | plug_sent_call _ => eq_refl
                          end)
              fresh_world sample_hs 9
              [OpGotData AB 2; OpSock (sk_plug_call NULL); OpStderr CD 2;
               OpSentData (-5)]
              eq_refl eq_refl) as (Hret & _ & Hevs).
  split; [exact Hret | exact Hevs].
Defined.
